(** * react-iptv-player: playlist parser and playback engine

    A shallow embedding of [parseM3U] (utils/parser) and of the decision
    logic of the [VideoPlayer] component (backend selection, error
    handlers, the removal timer, [safePlay], [checkHealth]), followed by
    the properties of the specification that were checked against it.

    JavaScript strings are sequences of UTF-16 code units; they are
    modelled as lists of [N].  Plain objects used as dictionaries
    ([currentProps], [headers]) are finite maps.  Media times are
    JavaScript numbers: IEEE 754 binary64 values, with the operations
    of the kernel's primitive floats. *)

From Stdlib Require Import NArith ZArith Lia List Ascii.
From Stdlib Require Import Floats.
From Stdlib Require Import Sorting.Sorted.
From Stdlib Require Import DecimalNat.
From stdpp Require Import base option list strings gmap.

Local Open Scope N_scope.

(** ** Strings of UTF-16 code units *)

Abbreviation jsstring := (list N).

(** A literal: the code units of an ASCII text. *)
Definition js (s : string) : jsstring :=
  map N_of_ascii (String.list_ascii_of_string s).
Arguments js s%_string.

Definition LF : N := 10.
Definition QUOTE : N := 34.
Definition HASH : N := 35.
Definition PERCENT : N := 37.
Definition AMP : N := 38.
Definition COMMA : N := 44.
Definition EQUALS : N := 61.
Definition QMARK : N := 63.
Definition PIPE : N := 124.

(** [a + dq + b], for literals that contain a double quote. *)
Definition quoted (s : jsstring) : jsstring := QUOTE :: s ++ [QUOTE].

(** Lines joined by a line feed. *)
Fixpoint unlines (ls : list jsstring) : jsstring :=
  match ls with
  | [] => []
  | [l] => l
  | l :: rest => l ++ LF :: unlines rest
  end.

Module JS.

(** WhiteSpace and LineTerminator code points of ECMAScript, the ones
    [String.prototype.trim] strips. *)
Definition isWhiteSpace (c : N) : bool :=
  (9 <=? c) && (c <=? 13)
  || (c =? 32) || (c =? 160) || (c =? 5760)
  || (8192 <=? c) && (c <=? 8202)
  || (c =? 8232) || (c =? 8233) || (c =? 8239) || (c =? 8287)
  || (c =? 12288) || (c =? 65279).

Fixpoint trimStart (s : jsstring) : jsstring :=
  match s with
  | c :: s' => if isWhiteSpace c then trimStart s' else s
  | [] => []
  end.

Definition trimEnd (s : jsstring) : jsstring := rev (trimStart (rev s)).

Definition trim (s : jsstring) : jsstring := trimEnd (trimStart s).

(** [s.split(sep)] for a one-unit separator: never empty. *)
Fixpoint split (sep : N) (s : jsstring) : list jsstring :=
  match s with
  | [] => [[]]
  | c :: s' =>
      if c =? sep then [] :: split sep s'
      else match split sep s' with
           | p :: ps => (c :: p) :: ps
           | [] => [[c]]
           end
  end.

Fixpoint startsWith (s p : jsstring) : bool :=
  match p, s with
  | [], _ => true
  | _ :: _, [] => false
  | a :: p', b :: s' => (a =? b) && startsWith s' p'
  end.

Definition endsWith (s p : jsstring) : bool := startsWith (rev s) (rev p).

(** [s.indexOf(c)] for a one-unit needle: [-1] when absent. *)
Fixpoint indexOf (s : jsstring) (c : N) : Z :=
  match s with
  | [] => (-1)%Z
  | d :: s' =>
      if d =? c then 0%Z
      else let i := indexOf s' c in
           if (i =? -1)%Z then (-1)%Z else (i + 1)%Z
  end.

Definition includes (s : jsstring) (c : N) : bool :=
  negb (indexOf s c =? -1)%Z.

(** [s.substring(a)] and [s.substring(a, b)] for [0 <= a <= b]. *)
Definition substringFrom (s : jsstring) (a : nat) : jsstring := drop a s.
Definition substring (s : jsstring) (a b : nat) : jsstring :=
  take (b - a) (drop a s).

(** Truthiness of a string value: the empty string is falsy. *)
Definition nonEmpty (s : jsstring) : bool :=
  match s with [] => false | _ => true end.

(** Truthiness of a possibly [undefined] string. *)
Definition truthy (o : option jsstring) : bool :=
  match o with Some s => nonEmpty s | None => false end.

(** [a || b] on possibly [undefined] strings with a string default. *)
Definition orElse (o : option jsstring) (d : jsstring) : jsstring :=
  match o with
  | Some s => if nonEmpty s then s else d
  | None => d
  end.

(** [s.toLowerCase()] on the Basic Latin and Latin-1 letters; code units
    above U+00FF are left as they are (none of them lower-cases to a
    letter of the suffixes the player tests). *)
Definition toLowerUnit (c : N) : N :=
  if (65 <=? c) && (c <=? 90) then c + 32
  else if (192 <=? c) && (c <=? 222) && negb (c =? 215) then c + 32
  else c.

Definition toLowerCase (s : jsstring) : jsstring := map toLowerUnit s.

(** The comparison of [Array.prototype.sort] without a comparator on
    strings: lexicographic on code units. *)
Fixpoint ltb (a b : jsstring) : bool :=
  match a, b with
  | [], [] => false
  | [], _ :: _ => true
  | _ :: _, [] => false
  | x :: a', y :: b' => (x <? y) || (x =? y) && ltb a' b'
  end.

Fixpoint insertSorted (x : jsstring) (l : list jsstring) : list jsstring :=
  match l with
  | [] => [x]
  | y :: l' => if ltb y x then y :: insertSorted x l' else x :: l
  end.

Definition sort (l : list jsstring) : list jsstring :=
  foldr insertSorted [] l.

(** Strictly increasing in that order: sorted and without duplicates. *)
Definition increasing : list jsstring -> Prop :=
  StronglySorted (fun a b => ltb a b = true).

(** Decimal rendering of a natural number, as template literals do. *)
Definition digitUnit (d : N) : N := 48 + d.

Fixpoint uintUnits (u : Decimal.uint) : jsstring :=
  match u with
  | Decimal.Nil => []
  | Decimal.D0 u' => digitUnit 0 :: uintUnits u'
  | Decimal.D1 u' => digitUnit 1 :: uintUnits u'
  | Decimal.D2 u' => digitUnit 2 :: uintUnits u'
  | Decimal.D3 u' => digitUnit 3 :: uintUnits u'
  | Decimal.D4 u' => digitUnit 4 :: uintUnits u'
  | Decimal.D5 u' => digitUnit 5 :: uintUnits u'
  | Decimal.D6 u' => digitUnit 6 :: uintUnits u'
  | Decimal.D7 u' => digitUnit 7 :: uintUnits u'
  | Decimal.D8 u' => digitUnit 8 :: uintUnits u'
  | Decimal.D9 u' => digitUnit 9 :: uintUnits u'
  end.

Definition ofNat (n : nat) : jsstring := uintUnits (Nat.to_uint n).
Definition ofN (n : N) : jsstring := uintUnits (N.to_uint n).

(** *** Exceptions

    The only exception the parser can meet is the [URIError] of
    [decodeURIComponent]. *)

Inductive exn := URIError.

Inductive result (A : Type) : Type :=
| Ok (a : A)
| Throw (e : exn).
Arguments Ok {A} a.
Arguments Throw {A} e.

Definition bind {A B} (r : result A) (k : A -> result B) : result B :=
  match r with
  | Ok a => k a
  | Throw e => Throw e
  end.

(** *** [decodeURIComponent]

    ECMAScript's Decode with an empty set of preserved escapes: every
    [%XX] is an octet; an octet below 0x80 is a code unit; an octet with
    [n] leading one bits (2 <= n <= 4) opens a UTF-8 sequence of [n]
    escaped octets, which must be the well-formed encoding of a code
    point; anything else throws [URIError]. *)

Definition hexDigit (c : N) : option N :=
  if (48 <=? c) && (c <=? 57) then Some (c - 48)
  else if (65 <=? c) && (c <=? 70) then Some (c - 55)
  else if (97 <=? c) && (c <=? 102) then Some (c - 87)
  else None.

Definition hexOctet (h l : N) : option N :=
  match hexDigit h, hexDigit l with
  | Some a, Some b => Some (16 * a + b)
  | _, _ => None
  end.

(** Number of octets announced by a leading octet, [None] when it cannot
    lead (a continuation octet, or more than four leading ones). *)
Definition utf8Length (b : N) : option nat :=
  if b <? 128 then Some 1%nat
  else if b <? 192 then None
  else if b <? 224 then Some 2%nat
  else if b <? 240 then Some 3%nat
  else if b <? 248 then Some 4%nat
  else None.

Definition isContinuation (b : N) : bool := (128 <=? b) && (b <? 192).

(** The code point of a well-formed UTF-8 sequence: shortest form, no
    surrogate, at most U+10FFFF. *)
Definition utf8CodePoint (octets : list N) : option N :=
  match octets with
  | [b0; b1] =>
      let v := (b0 - 192) * 64 + (b1 - 128) in
      if isContinuation b1 && (128 <=? v) then Some v else None
  | [b0; b1; b2] =>
      let v := (b0 - 224) * 4096 + (b1 - 128) * 64 + (b2 - 128) in
      if isContinuation b1 && isContinuation b2 && (2048 <=? v)
         && negb ((55296 <=? v) && (v <=? 57343))
      then Some v else None
  | [b0; b1; b2; b3] =>
      let v := (b0 - 240) * 262144 + (b1 - 128) * 4096
               + (b2 - 128) * 64 + (b3 - 128) in
      if isContinuation b1 && isContinuation b2 && isContinuation b3
         && (65536 <=? v) && (v <=? 1114111)
      then Some v else None
  | _ => None
  end.

Definition utf16Encode (cp : N) : jsstring :=
  if cp <? 65536 then [cp]
  else let v := cp - 65536 in [55296 + v / 1024; 56320 + v mod 1024].

(** [pending] is the UTF-8 sequence being collected: the number of
    octets still expected and the octets read so far. *)
Fixpoint decodeFrom (pending : option (nat * list N)) (s : jsstring)
  : result jsstring :=
  match s with
  | [] =>
      match pending with
      | None => Ok []
      | Some _ => Throw URIError
      end
  | c :: s1 =>
      if c =? PERCENT then
        match s1 with
        | h :: l :: s2 =>
            match hexOctet h l with
            | None => Throw URIError
            | Some b =>
                match pending with
                | None =>
                    match utf8Length b with
                    | Some 1%nat =>
                        bind (decodeFrom None s2) (fun r => Ok (b :: r))
                    | Some (S (S k)) => decodeFrom (Some (S k, [b])) s2
                    | _ => Throw URIError
                    end
                | Some (1%nat, octets) =>
                    match utf8CodePoint (octets ++ [b]) with
                    | Some cp =>
                        bind (decodeFrom None s2)
                             (fun r => Ok (utf16Encode cp ++ r))
                    | None => Throw URIError
                    end
                | Some (S k, octets) =>
                    decodeFrom (Some (k, octets ++ [b])) s2
                | Some (O, _) => Throw URIError
                end
            end
        | _ => Throw URIError
        end
      else
        match pending with
        | None => bind (decodeFrom None s1) (fun r => Ok (c :: r))
        | Some _ => Throw URIError
        end
  end.

Definition decodeURIComponent (s : jsstring) : result jsstring :=
  decodeFrom None s.

(** *** Matching a quoted attribute

    [info.match(re)] for the regular expressions of the parser: the
    attribute name, an equals sign, a double quote, a captured run of
    units other than the double quote, a closing double quote.  The
    result is the capture group of the leftmost match, [None] for
    [null]. *)

Fixpoint untilQuote (s : jsstring) : option jsstring :=
  match s with
  | [] => None
  | c :: s' =>
      if c =? QUOTE then Some []
      else match untilQuote s' with
           | Some r => Some (c :: r)
           | None => None
           end
  end.

Fixpoint matchAttr (attr : jsstring) (s : jsstring) : option jsstring :=
  let here :=
    if startsWith s (attr ++ [EQUALS; QUOTE])
    then untilQuote (drop (length attr + 2) s)
    else None in
  match here with
  | Some r => Some r
  | None =>
      match s with
      | [] => None
      | _ :: s' => matchAttr attr s'
      end
  end.

(** *** Plain objects as dictionaries

    [obj[k] = v] on an object created by [{}], for a string [v].  The
    key [__proto__] is the accessor of [Object.prototype]: its setter
    ignores a value that is neither an object nor [null], and no own
    property is created. *)

Definition protoKey : jsstring := js "__proto__".

Definition objSet (k v : jsstring) (o : gmap jsstring jsstring)
  : gmap jsstring jsstring :=
  if bool_decide (k = protoKey) then o else <[k := v]> o.

(** [new Set()], [set.add(x)], [Array.from(set)]: insertion order, no
    duplicates. *)
Definition setAdd (x : jsstring) (s : list jsstring) : list jsstring :=
  if bool_decide (x ∈ s) then s else s ++ [x].

End JS.

Notation "'attempt' x <- r ; k" := (JS.bind r (fun x => k))
  (at level 10, x name, r at level 100, k at level 200).

(** ** Data model (types.ts) *)

Record DrmConfig := {
  drm_type : jsstring;
  licenseUrl : jsstring;
  headers : option (gmap jsstring jsstring);
}.

Record Channel := {
  id : jsstring;
  tvgId : option jsstring;
  name : jsstring;
  logo : option jsstring;
  group : option jsstring;
  url : jsstring;
  drm : option DrmConfig;
  userAgent : option jsstring;
  referrer : option jsstring;
}.

Record Category := {
  cat_id : jsstring;
  cat_name : jsstring;
}.

(** ** The playlist parser (utils/parser) *)

Module Parser.
Import JS.

(** [Partial<Channel>] as the parser fills it: the four fields an
    [#EXTINF] line sets; [{}] leaves them all undefined. *)
Record PartialChannel := {
  p_tvgId : option jsstring;
  p_name : option jsstring;
  p_logo : option jsstring;
  p_group : option jsstring;
}.

Definition emptyPartial : PartialChannel :=
  {| p_tvgId := None; p_name := None; p_logo := None; p_group := None |}.

(** The variables the [forEach] callback closes over. *)
Record State := {
  channels : list Channel;
  categoriesSet : list jsstring;
  currentChannel : PartialChannel;
  currentProps : gmap jsstring jsstring;
}.

Definition initial : State :=
  {| channels := []; categoriesSet := [];
     currentChannel := emptyPartial; currentProps := ∅ |}.

Definition KODIPROP : jsstring := js "#KODIPROP:".
Definition EXTINF : jsstring := js "#EXTINF:".
Definition LICENSE_TYPE : jsstring := js "inputstream.adaptive.license_type".
Definition LICENSE_KEY : jsstring := js "inputstream.adaptive.license_key".
Definition USER_AGENT : jsstring := js "http-user-agent".
Definition REFERRER : jsstring := js "http-referrer".
Definition UNCATEGORIZED : jsstring := js "Uncategorized".
Definition UNKNOWN_CHANNEL : jsstring := js "Unknown Channel".

(** The [#KODIPROP:] branch: the assignment to [currentProps]. *)
Definition kodipropSet (trimmed : jsstring) (props : gmap jsstring jsstring)
  : gmap jsstring jsstring :=
  let prop := substringFrom trimmed 10 in
  let splitIndex := indexOf prop EQUALS in
  if negb (splitIndex =? -1)%Z then
    let key := trim (substring prop 0 (Z.to_nat splitIndex)) in
    let val := trim (substringFrom prop (Z.to_nat (splitIndex + 1))) in
    objSet key val props
  else props.

Definition kodiprop (trimmed : jsstring) (st : State) : State :=
  {| channels := channels st; categoriesSet := categoriesSet st;
     currentChannel := currentChannel st;
     currentProps := kodipropSet trimmed (currentProps st) |}.

(** The name of an [#EXTINF] line: everything after the last comma,
    trimmed. *)
Definition extinfName (info : jsstring) : jsstring :=
  let nameParts := split COMMA info in
  trim (List.last nameParts []).

(** The object literal an [#EXTINF] line assigns to [currentChannel]. *)
Definition extinfChannel (info : jsstring) : PartialChannel :=
  let tvgIdMatch := matchAttr (js "tvg-id") info in
  let logoMatch := matchAttr (js "tvg-logo") info in
  let groupMatch := matchAttr (js "group-title") info in
  let name := extinfName info in
  {| p_tvgId := tvgIdMatch;
     p_name := Some (if nonEmpty name then name else UNKNOWN_CHANNEL);
     p_logo := logoMatch;
     p_group := Some (match groupMatch with
                      | Some g => g
                      | None => UNCATEGORIZED
                      end) |}.

(** The [#EXTINF:] branch. *)
Definition extinf (trimmed : jsstring) (st : State) : State :=
  let info := substringFrom trimmed 8 in
  let cc := extinfChannel info in
  {| channels := channels st;
     categoriesSet :=
       match p_group cc with
       | Some g => if nonEmpty g then setAdd g (categoriesSet st)
                   else categoriesSet st
       | None => categoriesSet st
       end;
     currentChannel := cc;
     currentProps := currentProps st |}.

(** One [Header=Val] pair of the pipe suffix of a license key. *)
Definition headerPair (hs : gmap jsstring jsstring) (h : jsstring)
  : result (gmap jsstring jsstring) :=
  let kv := split EQUALS h in
  let k := kv !! 0%nat in
  let v := kv !! 1%nat in
  match k, v with
  | Some k, Some v =>
      if nonEmpty k && nonEmpty v then
        attempt d <- decodeURIComponent v; Ok (objSet k d hs)
      else Ok hs
  | _, _ => Ok hs
  end.

Fixpoint headerPairs (hs : gmap jsstring jsstring) (l : list jsstring)
  : result (gmap jsstring jsstring) :=
  match l with
  | [] => Ok hs
  | h :: l' => attempt hs' <- headerPair hs h; headerPairs hs' l'
  end.

(** The DRM block of the URL branch. *)
Definition extractDrm (props : gmap jsstring jsstring)
  : result (option DrmConfig) :=
  let licenseType := props !! LICENSE_TYPE in
  let licenseKey := props !! LICENSE_KEY in
  match licenseType, licenseKey with
  | Some ty, Some key =>
      if nonEmpty ty && nonEmpty key then
        if includes key PIPE then
          let parts := split PIPE key in
          let licenseUrl := List.hd [] parts in
          attempt hs <-
            (match parts !! 1%nat with
             | Some p1 =>
                 if nonEmpty p1 then headerPairs ∅ (split AMP p1) else Ok ∅
             | None => Ok ∅
             end);
          Ok (Some {| drm_type := ty; licenseUrl := licenseUrl;
                      headers := Some hs |})
        else
          Ok (Some {| drm_type := ty; licenseUrl := key;
                      headers := Some ∅ |})
      else Ok None
  | _, _ => Ok None
  end.

(** The channel a URL line completes.  [now] is the reading of
    [Date.now()], [index] the position of the line, [n] the number of
    channels pushed so far. *)
Definition makeChannel (now : N) (index : nat) (n : nat)
    (cc : PartialChannel) (props : gmap jsstring jsstring)
    (trimmed : jsstring) (drm : option DrmConfig) : Channel :=
  {| id := js "ch-" ++ ofN now ++ js "-" ++ ofNat index;
     name := orElse (p_name cc) (js "Channel " ++ ofNat (n + 1));
     tvgId := p_tvgId cc;
     logo := p_logo cc;
     group := Some (orElse (p_group cc) UNCATEGORIZED);
     url := trimmed;
     drm := drm;
     userAgent := props !! USER_AGENT;
     referrer := props !! REFERRER |}.

(** The URL branch. *)
Definition urlLine (now : N) (index : nat) (trimmed : jsstring) (st : State)
  : result State :=
  attempt drm <- extractDrm (currentProps st);
  let ch := makeChannel now index (length (channels st))
                        (currentChannel st) (currentProps st) trimmed drm in
  Ok {| channels := channels st ++ [ch];
        categoriesSet :=
          match p_group (currentChannel st) with
          | Some g => if nonEmpty g then setAdd g (categoriesSet st)
                      else setAdd UNCATEGORIZED (categoriesSet st)
          | None => setAdd UNCATEGORIZED (categoriesSet st)
          end;
        currentChannel := emptyPartial;
        currentProps := ∅ |}.

(** The body of [lines.forEach((line, index) => ...)]. *)
Definition step (now : nat -> N) (st : State) (index : nat) (line : jsstring)
  : result State :=
  let trimmed := trim line in
  if negb (nonEmpty trimmed) then Ok st
  else if startsWith trimmed KODIPROP then Ok (kodiprop trimmed st)
  else if startsWith trimmed EXTINF then Ok (extinf trimmed st)
  else if negb (startsWith trimmed [HASH]) then
    urlLine (now index) index trimmed st
  else Ok st.

Fixpoint forEach (now : nat -> N) (lines : list jsstring) (index : nat)
    (st : State) : result State :=
  match lines with
  | [] => Ok st
  | line :: rest =>
      attempt st' <- step now st index line;
      forEach now rest (S index) st'
  end.

(** **** Vocabulary for the lines of a playlist

    The branch of [step] a line takes. *)
Inductive LineKind := Blank | PropertyLine | MetadataLine | UrlLine | Comment.

Definition kind (line : jsstring) : LineKind :=
  let trimmed := trim line in
  if negb (nonEmpty trimmed) then Blank
  else if startsWith trimmed KODIPROP then PropertyLine
  else if startsWith trimmed EXTINF then MetadataLine
  else if negb (startsWith trimmed [HASH]) then UrlLine
  else Comment.

Definition isUrl (line : jsstring) : bool :=
  match kind line with UrlLine => true | _ => false end.
Definition isProperty (line : jsstring) : bool :=
  match kind line with PropertyLine => true | _ => false end.
Definition isMetadata (line : jsstring) : bool :=
  match kind line with MetadataLine => true | _ => false end.

(** The lines before a channel's block: none, or up to a URL line. *)
Definition completed (pre : list jsstring) : Prop :=
  pre = [] \/ exists pre' l, pre = pre' ++ [l] /\ isUrl l = true.

Definition countUrls (lines : list jsstring) : nat :=
  length (filter (fun l => isUrl l = true) lines).

(** The properties the property lines of a block declare, later lines
    overwriting earlier ones. *)
Definition pendingProps (block : list jsstring) : gmap jsstring jsstring :=
  fold_left (fun props l =>
               if isProperty l then kodipropSet (trim l) props else props)
            block ∅.

(** A line declares the value [v] for the key [k]: trimmed, it reads
    [#KODIPROP:], a text without equals sign that trims to [k], an
    equals sign, and a text that trims to [v]. *)
Definition declares (l k v : jsstring) : Prop :=
  exists k0 v0,
    trim l = KODIPROP ++ k0 ++ EQUALS :: v0
    /\ (EQUALS ∉ k0) /\ trim k0 = k /\ trim v0 = v.

(** The metadata a block leaves pending: that of its last [#EXTINF]
    line. *)
Definition pendingChannel (block : list jsstring) : PartialChannel :=
  fold_left (fun cc l =>
               if isMetadata l then extinfChannel (substringFrom (trim l) 8)
               else cc)
            block emptyPartial.

(** The non-empty group names the [#EXTINF] lines declare. *)
Definition declaredGroups (lines : list jsstring) : list jsstring :=
  omap (fun l =>
          if isMetadata l then
            match p_group (extinfChannel (substringFrom (trim l) 8)) with
            | Some g => if nonEmpty g then Some g else None
            | None => None
            end
          else None)
       lines.

(** The group names of a channel list. *)
Definition channelGroups (chs : list Channel) : list jsstring :=
  omap group chs.

(** The display name the metadata of a block supplies: the text after
    the final comma of its last [#EXTINF] line, trimmed; empty when the
    block has no such line. *)
Definition suppliedName (block : list jsstring) : jsstring :=
  fold_left (fun n l =>
               if isMetadata l then extinfName (substringFrom (trim l) 8)
               else n)
            block [].

(** The distinct elements of a list, in order of first occurrence. *)
Definition distinct (l : list jsstring) : list jsstring :=
  fold_left (fun s x => setAdd x s) l [].

Record Parsed := {
  parsed_channels : list Channel;
  parsed_categories : list Category;
}.

Definition ALL : Category :=
  {| cat_id := js "all"; cat_name := js "All Channels" |}.

Definition sortedCategories (set : list jsstring) : list Category :=
  ALL :: imap (fun idx cat => {| cat_id := js "cat-" ++ ofNat idx;
                                 cat_name := cat |})
              (sort set).

(** [parseM3U(content)]; [now index] is what [Date.now()] returns while
    line [index] is processed. *)
Definition parseM3U (now : nat -> N) (content : jsstring) : result Parsed :=
  let lines := split LF content in
  attempt st <- forEach now lines 0 initial;
  Ok {| parsed_channels := channels st;
        parsed_categories := sortedCategories (categoriesSet st) |}.

(** The name and the raw value of a header pair that passes the test
    [k && v]. *)
Definition keptPair (h : jsstring) : option (jsstring * jsstring) :=
  let kv := split EQUALS h in
  match kv !! 0%nat, kv !! 1%nat with
  | Some k, Some v => if nonEmpty k && nonEmpty v then Some (k, v) else None
  | _, _ => None
  end.

(** What the category set holds while the lines [done] have been
    processed: the groups of the channels pushed so far and the groups
    the metadata lines declared, each once. *)
Definition categoriesInv (done : list jsstring) (st : State) : Prop :=
  NoDup (categoriesSet st)
  /\ forall g, g ∈ categoriesSet st
               <-> g ∈ channelGroups (channels st) \/ g ∈ declaredGroups done.

(** **** Claims in the words of the specification *)

(** C3 as stated: the category names are [All Channels] followed by the
    sorted distinct groups of the parsed channels. *)
Definition categoriesFromChannels (now : nat -> N) (content : jsstring)
  : Prop :=
  forall r, parseM3U now content = Ok r ->
    map cat_name (parsed_categories r)
    = js "All Channels" :: sort (distinct (channelGroups (parsed_channels r))).

(** C4 as stated: a channel whose metadata supplies no display name is
    called [Channel N], [N] its position in the output. *)
Definition defaultNumbered (now : nat -> N) (content : jsstring) : Prop :=
  forall pre mid u post r,
    split LF content = pre ++ mid ++ u :: post ->
    completed pre ->
    Forall (fun l => isUrl l = false) mid ->
    isUrl u = true ->
    parseM3U now content = Ok r ->
    suppliedName mid = [] ->
    exists c, parsed_channels r !! countUrls pre = Some c
              /\ name c = js "Channel " ++ ofNat (countUrls pre + 1).

(** C5 as stated: the license key is cut at its first pipe; what comes
    before is the license URL, what comes after, when present, holds the
    header pairs. *)
Fixpoint cutAtFirst (sep : N) (s : jsstring) : jsstring * option jsstring :=
  match s with
  | [] => ([], None)
  | c :: s' =>
      if c =? sep then ([], Some s')
      else let '(a, b) := cutAtFirst sep s' in (c :: a, b)
  end.

Definition drmFromFirstPipe (ty key : jsstring) : result DrmConfig :=
  let '(before, after) := cutAtFirst PIPE key in
  attempt hs <-
    (match after with
     | Some suffix => headerPairs ∅ (split AMP suffix)
     | None => Ok ∅
     end);
  Ok {| drm_type := ty; licenseUrl := before; headers := Some hs |}.

Definition licenseKeyCutAtFirstPipe (now : nat -> N) (content : jsstring)
  : Prop :=
  forall pre mid u post r ty key,
    split LF content = pre ++ mid ++ u :: post ->
    completed pre ->
    Forall (fun l => isUrl l = false) mid ->
    isUrl u = true ->
    parseM3U now content = Ok r ->
    pendingProps mid !! LICENSE_TYPE = Some ty ->
    pendingProps mid !! LICENSE_KEY = Some key ->
    exists c d, parsed_channels r !! countUrls pre = Some c
                /\ drm c = Some d
                /\ drmFromFirstPipe ty key = Ok d.

End Parser.

(** ** The player (components/VideoPlayer) *)

Module Player.
Import JS.

(** *** Backend selection *)

Inductive Protocol := DASH | MPEG_TS_FLV | HLS | NATIVE.

(** What the setup effect asks the environment. *)
Record Env := {
  (** [mpegts.getFeatureList().mseLivePlayback] *)
  mseLivePlayback : bool;
  (** [Hls.isSupported()] *)
  hlsIsSupported : bool;
  (** [video.canPlayType('application/vnd.apple.mpegurl')] is not the
      empty string *)
  canPlayNativeHls : bool;
}.

Definition cleanUrl (channelUrl : jsstring) : jsstring :=
  let url := trim channelUrl in
  toLowerCase (List.hd [] (split QMARK url)).

Definition isDash (c : jsstring) : bool := endsWith c (js ".mpd").
Definition isFlv (c : jsstring) : bool := endsWith c (js ".flv").
Definition isTs (c : jsstring) : bool := endsWith c (js ".ts").
Definition isM3u8 (c : jsstring) : bool := endsWith c (js ".m3u8").

(** The branch the [if]/[else if] chain of the setup effect takes. *)
Definition classify (env : Env) (channelUrl : jsstring) : Protocol :=
  let c := cleanUrl channelUrl in
  if isDash c then DASH
  else if (isFlv c || isTs c) && mseLivePlayback env then MPEG_TS_FLV
  else if hlsIsSupported env
          && (isM3u8 c
              || negb (isDash c) && negb (isFlv c) && negb (isTs c)
                 && negb (canPlayNativeHls env))
  then HLS
  else NATIVE.

(** The URL with its ASCII letters in upper case. *)
Definition upperAscii (c : N) : N :=
  if (97 <=? c) && (c <=? 122) then c - 32 else c.

(** *** Session state and engine events *)

Inductive HlsErrorType :=
| NETWORK_ERROR | MEDIA_ERROR | KEY_SYSTEM_ERROR | MUX_ERROR | OTHER_ERROR.

Record HlsErrorData := {
  hls_type : HlsErrorType;
  fatal : bool;
}.

Inductive MpegtsErrorType :=
| MPEGTS_NETWORK_ERROR | MPEGTS_MEDIA_ERROR | MPEGTS_OTHER_ERROR.

(** The [name] of the exception a play promise rejects with. *)
Inductive PlayRejection := AbortError | NotAllowedError | OtherRejection.

(** Calls that leave the component. *)
Inductive Effect :=
| ConsoleLog (msg : jsstring)
| ConsoleWarn (msg : jsstring)
| ConsoleError (msg : jsstring)
| HlsStartLoad
| HlsRecoverMediaError
| HlsDestroy
| DashDestroy
| MpegtsDestroy
| VideoRemoveSrc
| VideoLoad
| OnChannelError (channelId : jsstring).

Record State := {
  channel : Channel;
  backend : Protocol;
  (** [useState] cells *)
  isPlaying : bool;
  error : option jsstring;
  isRemoving : bool;
  (** [hlsRef.current], [dashRef.current], [mpegtsRef.current] are not
      [null]; [video.onerror] is set *)
  hlsRef : bool;
  dashRef : bool;
  mpegtsRef : bool;
  videoOnerror : bool;
  (** milliseconds left on the [setTimeout] of the removal effect *)
  removalTimer : option N;
  (** the [isRemoving] the removal effect last ran with *)
  removalDep : bool;
  trace : list Effect;
}.

Definition emit (e : list Effect) (st : State) : State :=
  {| channel := channel st; backend := backend st;
     isPlaying := isPlaying st; error := error st;
     isRemoving := isRemoving st;
     hlsRef := hlsRef st; dashRef := dashRef st; mpegtsRef := mpegtsRef st;
     videoOnerror := videoOnerror st;
     removalTimer := removalTimer st; removalDep := removalDep st;
     trace := trace st ++ e |}.

(** What the setup effect finds and leaves as it is: the [isPlaying]
    cell, which it does not reset, and [video.onerror], which the native
    branch assigns and nothing clears. *)
Record Inherited := {
  wasPlaying : bool;
  onerrorLeft : bool;
}.

(** The first session after mount: [useState(true)], no handler yet. *)
Definition mounted : Inherited :=
  {| wasPlaying := true; onerrorLeft := false |}.

(** The state after the setup effect ran for [ch] (adapter construction
    did not throw) and the removal effect settled: error and verdict
    reset, the adapters of the previous session destroyed, the adapter
    of the selected branch attached. *)
Definition setup (env : Env) (inh : Inherited) (ch : Channel) : State :=
  let b := classify env (url ch) in
  {| channel := ch; backend := b;
     isPlaying := wasPlaying inh; error := None; isRemoving := false;
     hlsRef := match b with HLS => true | _ => false end;
     dashRef := match b with DASH => true | _ => false end;
     mpegtsRef := match b with MPEG_TS_FLV => true | _ => false end;
     videoOnerror := match b with NATIVE => true | _ => onerrorLeft inh end;
     removalTimer := None; removalDep := false;
     trace := [] |}.


Definition destroyPlayers (st : State) : State :=
  let e := (if hlsRef st then [HlsDestroy] else [])
           ++ (if dashRef st then [DashDestroy] else [])
           ++ (if mpegtsRef st then [MpegtsDestroy] else [])
           ++ [VideoRemoveSrc; VideoLoad] in
  {| channel := channel st; backend := backend st;
     isPlaying := isPlaying st; error := error st;
     isRemoving := isRemoving st;
     hlsRef := false; dashRef := false; mpegtsRef := false;
     videoOnerror := videoOnerror st;
     removalTimer := removalTimer st; removalDep := removalDep st;
     trace := trace st ++ e |}.

Definition handleFatalError (msg : jsstring) (st : State) : State :=
  {| channel := channel st; backend := backend st;
     isPlaying := isPlaying st; error := Some msg;
     isRemoving := true;
     hlsRef := hlsRef st; dashRef := dashRef st; mpegtsRef := mpegtsRef st;
     videoOnerror := videoOnerror st;
     removalTimer := removalTimer st; removalDep := removalDep st;
     trace := trace st ++ [ConsoleWarn (js "Channel Fatal Error: " ++ msg)] |}.

Definition setIsPlaying (b : bool) (st : State) : State :=
  {| channel := channel st; backend := backend st;
     isPlaying := b; error := error st;
     isRemoving := isRemoving st;
     hlsRef := hlsRef st; dashRef := dashRef st; mpegtsRef := mpegtsRef st;
     videoOnerror := videoOnerror st;
     removalTimer := removalTimer st; removalDep := removalDep st;
     trace := trace st |}.

(** The rejection handler of [safePlay]. *)
Definition safePlayCatch (e : PlayRejection) (st : State) : State :=
  match e with
  | AbortError => st
  | NotAllowedError =>
      setIsPlaying false
        (emit [ConsoleWarn (js "Auto-play prevented by browser policy")] st)
  | OtherRejection => emit [ConsoleError (js "Auto-play failed")] st
  end.

(** The rejection handler on the promise of [player.play()] in the
    MPEG-TS / FLV branch. *)
Definition mpegtsPlayCatch (e : PlayRejection) (st : State) : State :=
  match e with
  | AbortError => st
  | _ => emit [ConsoleError (js "Auto-play failed")] st
  end.

(** The listener on [dashjs.MediaPlayer.events.ERROR]. *)
Definition onDashError (st : State) : State :=
  handleFatalError (js "DASH Error") (emit [ConsoleError (js "DASH Error")] st).

(** The listener on [mpegts.Events.ERROR]. *)
Definition onMpegtsError (ty : MpegtsErrorType) (st : State) : State :=
  let st := emit [ConsoleError (js "MPEGTS Error")] st in
  match ty with
  | MPEGTS_NETWORK_ERROR => handleFatalError (js "Network Error") st
  | _ => st
  end.

(** The listener on [Hls.Events.ERROR]. *)
Definition onHlsError (data : HlsErrorData) (st : State) : State :=
  if fatal data then
    match hls_type data with
    | NETWORK_ERROR =>
        emit [ConsoleLog (js "fatal network error encountered, trying to recover");
              HlsStartLoad] st
    | MEDIA_ERROR =>
        emit [ConsoleLog (js "fatal media error encountered, trying to recover");
              HlsRecoverMediaError] st
    | _ => handleFatalError (js "Stream Connection Failed") (destroyPlayers st)
    end
  else st.

(** [video.onerror] of the native branch. *)
Definition onVideoError (st : State) : State :=
  handleFatalError (js "Format not supported or offline") st.

(** The removal effect, with dependencies [isRemoving], [channel.id] and
    [onChannelError]; the last two do not change while one channel is
    loaded.  When [isRemoving] changed, the cleanup clears the timer and
    the effect arms a new one if [isRemoving] holds. *)
Definition DELAY : N := 2500.

Definition removalEffect (st : State) : State :=
  if Bool.eqb (isRemoving st) (removalDep st) then st
  else
    {| channel := channel st; backend := backend st;
       isPlaying := isPlaying st; error := error st;
       isRemoving := isRemoving st;
       hlsRef := hlsRef st; dashRef := dashRef st; mpegtsRef := mpegtsRef st;
       videoOnerror := videoOnerror st;
       removalTimer := if isRemoving st then Some DELAY else None;
       removalDep := isRemoving st;
       trace := trace st |}.

(** [ms] milliseconds pass: the timer callback runs when due. *)
Definition elapse (ms : N) (st : State) : State :=
  match removalTimer st with
  | None => st
  | Some remaining =>
      {| channel := channel st; backend := backend st;
         isPlaying := isPlaying st; error := error st;
         isRemoving := isRemoving st;
         hlsRef := hlsRef st; dashRef := dashRef st;
         mpegtsRef := mpegtsRef st;
         videoOnerror := videoOnerror st;
         removalTimer := if remaining <=? ms then None else Some (remaining - ms);
         removalDep := removalDep st;
         trace := if remaining <=? ms
                  then trace st ++ [OnChannelError (id (channel st))]
                  else trace st |}
  end.

Inductive Event :=
| DashError
| MpegtsError (ty : MpegtsErrorType)
| HlsError (data : HlsErrorData)
| VideoError
| PlayRejected (e : PlayRejection)
| Elapse (ms : N).

(** An engine event reaches its listener only while the engine is
    attached; the play promise is the one of the selected branch (the
    DASH branch issues no play request of its own). *)
Definition handle (ev : Event) (st : State) : State :=
  match ev with
  | DashError => if dashRef st then onDashError st else st
  | MpegtsError ty => if mpegtsRef st then onMpegtsError ty st else st
  | HlsError data => if hlsRef st then onHlsError data st else st
  | VideoError => if videoOnerror st then onVideoError st else st
  | PlayRejected e =>
      match backend st with
      | DASH => st
      | MPEG_TS_FLV => mpegtsPlayCatch e st
      | HLS | NATIVE => safePlayCatch e st
      end
  | Elapse ms => elapse ms st
  end.

(** One event, then the effects of the re-render it causes. *)
Definition dispatch (st : State) (ev : Event) : State :=
  removalEffect (handle ev st).

Definition run (evs : list Event) (st : State) : State :=
  fold_left dispatch evs st.

(** The invocations of [onChannelError], oldest first. *)
Definition callbacks (st : State) : list jsstring :=
  omap (fun e => match e with OnChannelError i => Some i | _ => None end)
       (trace st).

Fixpoint elapsed (evs : list Event) : N :=
  match evs with
  | [] => 0
  | Elapse ms :: evs' => ms + elapsed evs'
  | _ :: evs' => elapsed evs'
  end.

(** A timer that is armed has time left. *)
Definition armed (st : State) : Prop :=
  match removalTimer st with
  | Some remaining => 0 < remaining
  | None => True
  end.

(** The session is active while an adapter (or the native element) plays
    the channel and no fatal verdict is pending. *)
Definition active (st : State) : bool := negb (isRemoving st).

(** *** Buffer health *)

Inductive Status := good | fair | poor | buffering | offline.

Record NetworkMetrics := {
  status : Status;
  bufferLead : float;
  color : jsstring;
}.

(** What [checkHealth] reads from the media element. *)
Record Video := {
  video_error : bool;
  readyState : nat;
  currentTime : float;
  buffered : list (float * float);
}.

(** [Math.max(a, b)] on two numbers: [NaN] when one of them is, and
    [+0] larger than [-0]. *)
Definition mathMax (a b : float) : float :=
  if is_nan a || is_nan b then nan
  else match PrimFloat.classify a, PrimFloat.classify b with
       | NZero, PZero => b
       | _, _ => if (a <? b)%float then b else a
       end.

(** The loop over [video.buffered]: the end of the first range that
    covers [currentTime], [0] when there is none. *)
Fixpoint bufferEndAt (ranges : list (float * float)) (t : float) : float :=
  match ranges with
  | [] => 0%float
  | (s, e) :: rest =>
      if (s <=? t)%float && (t <=? e)%float then e else bufferEndAt rest t
  end.

(** [checkHealth]: the metrics it sets, [None] when [videoRef.current]
    is [null]. *)
Definition checkHealth (video : option Video) (isRemoving : bool)
  : option NetworkMetrics :=
  match video with
  | None => None
  | Some v =>
      if video_error v || isRemoving then
        Some {| status := offline; bufferLead := 0%float;
                color := js "text-red-500" |}
      else if (readyState v <? 3)%nat then
        Some {| status := buffering; bufferLead := 0%float;
                color := js "text-yellow-400" |}
      else
        let bufferEnd := bufferEndAt (buffered v) (currentTime v) in
        let lead := mathMax 0%float (bufferEnd - currentTime v)%float in
        if (lead <? 2)%float then
          Some {| status := poor; bufferLead := lead;
                  color := js "text-red-400" |}
        else if (lead <? 5)%float then
          Some {| status := fair; bufferLead := lead;
                  color := js "text-yellow-400" |}
        else
          Some {| status := good; bufferLead := lead;
                  color := js "text-green-400" |}
  end.

(** **** Vocabulary for the health reading *)

(** A buffered range contains a position, ends included. *)
Definition covers (r : float * float) (t : float) : Prop :=
  (fst r <=? t)%float = true /\ (t <=? snd r)%float = true.

(** The lead a sample with enough data reports. *)
Definition leadOf (v : Video) : float :=
  mathMax 0%float
          (bufferEndAt (buffered v) (currentTime v) - currentTime v)%float.

(** The three bands of the lead. *)
Definition band (lead : float) : Status :=
  if (lead <? 2)%float then poor
  else if (lead <? 5)%float then fair else good.

(** A binary64 value that is a number and carries the sign [s]. *)
Definition signed (s : bool) (x : spec_float) : Prop :=
  match x with
  | S754_zero s' | S754_infinity s' | S754_finite s' _ _ => s' = s
  | S754_nan => False
  end.

(** The numbers nearest to 0.4 and 2.4, which is what the literals
    [0.4] and [2.4] denote. *)
Definition nearest_0_4 : float := 0x1.999999999999ap-2%float.
Definition nearest_2_4 : float := 0x1.3333333333333p+1%float.

End Player.

(** ** Sample data for the concrete instances *)

Module Sample.
Import Player.

(** A browser with Media Source Extensions and no native HLS. *)
Definition mseBrowser : Env :=
  {| mseLivePlayback := true; hlsIsSupported := true;
     canPlayNativeHls := false |}.

(** A browser that plays HLS natively and supports neither engine. *)
Definition nativeBrowser : Env :=
  {| mseLivePlayback := false; hlsIsSupported := false;
     canPlayNativeHls := true |}.

Definition channelAt (u : string) : Channel :=
  {| id := js "ch-1700000000000-2"; tvgId := None; name := js "Channel 1";
     logo := None; group := Some (js "Uncategorized"); url := js u;
     drm := None; userAgent := None; referrer := None |}.

(** [Date.now()] standing still. *)
Definition clock : nat -> N := fun _ => 1700000000000.

(** The lines of a playlist with two channels: the first carries DRM
    properties and no metadata, the second follows an [#EXTINF] line
    whose name is empty. *)
Definition drmBlock : list jsstring :=
  [js "#EXTM3U";
   js "#KODIPROP:inputstream.adaptive.license_type=com.widevine.alpha";
   js "#KODIPROP:inputstream.adaptive.license_key=https://lic.example/x|Header1=aaa&Header2=b%20b"].

Definition firstUrl : jsstring := js "http://example.com/one.mpd".

Definition newsBlock : list jsstring :=
  [js "#EXTINF:-1 group-title=" ++ quoted (js "News") ++ js ","].

Definition secondUrl : jsstring := js "http://example.com/two.m3u8".

Definition twoChannels : jsstring :=
  unlines (drmBlock ++ firstUrl :: newsBlock ++ [secondUrl]).

(** Two [#EXTINF] lines in a row, then one URL line. *)
Definition replacedMetadata : jsstring :=
  unlines
    [js "#EXTINF:-1 group-title=" ++ quoted (js "News") ++ js ",Dropped";
     js "#EXTINF:-1 group-title=" ++ quoted (js "Sports") ++ js ",Kept";
     js "http://example.com/kept.m3u8"].

(** A license key with a second pipe: the Kodi layout
    [url|headers|post data]. *)
Definition kodiBlock : list jsstring :=
  [js "#KODIPROP:inputstream.adaptive.license_type=com.widevine.alpha";
   js "#KODIPROP:inputstream.adaptive.license_key=https://lic.example/x|A=1|B"].

Definition kodiKey : jsstring := js "https://lic.example/x|A=1|B".

Definition kodiPlaylist : jsstring := unlines (kodiBlock ++ [firstUrl]).

(** A license key whose header section has a pair without an equals
    sign, one without a name, one without a value, one with a second
    equals sign, and one named [__proto__]. *)
Definition oddHeaders : jsstring :=
  unlines
    [js "#KODIPROP:inputstream.adaptive.license_type=com.widevine.alpha";
     js "#KODIPROP:inputstream.adaptive.license_key=https://lic.example/x|Header1=aaa&bare&=v&k=&a=b=c&__proto__=abc";
     firstUrl].

End Sample.

(** ** Vocabulary for further properties of the parser *)

Module Playlist.
Import JS Parser.

Definition HYPHEN : N := 45.
Definition CR : N := 13.

(** The text with Windows line ends: a carriage return before every
    line feed. *)
Definition crlf (s : jsstring) : jsstring :=
  flat_map (fun c => if c =? LF then [CR; LF] else [c]) s.

(** The identifier the URL branch builds for line [index] read at time
    [t]. *)
Definition channelId (t : N) (index : nat) : jsstring :=
  js "ch-" ++ ofN t ++ js "-" ++ ofNat index.

(** The positions, counted from [i], of the URL lines of a list. *)
Fixpoint urlIndices (i : nat) (lines : list jsstring) : list nat :=
  match lines with
  | [] => []
  | l :: rest =>
      if isUrl l then i :: urlIndices (S i) rest else urlIndices (S i) rest
  end.

(** A channel the user interface can show and the player can load. *)
Definition presentable (c : Channel) : Prop :=
  nonEmpty (name c) = true
  /\ (exists g, group c = Some g /\ nonEmpty g = true)
  /\ nonEmpty (url c) = true
  /\ startsWith (url c) [HASH] = false
  /\ trim (url c) = url c.

(** Pending metadata never carries an empty name. *)
Definition namedOrBlank (cc : PartialChannel) : Prop :=
  match p_name cc with
  | Some n => nonEmpty n = true
  | None => True
  end.

End Playlist.

(** ** The application shell (App.tsx) *)

Module App.
Import JS.

(** [array.findIndex(p)]: the first index whose element satisfies [p],
    [-1] when there is none. *)
Fixpoint findIndex {A} (p : A -> bool) (l : list A) : Z :=
  match l with
  | [] => (-1)%Z
  | x :: l' =>
      if p x then 0%Z
      else let i := findIndex p l' in
           if (i =? -1)%Z then (-1)%Z else (i + 1)%Z
  end.

(** [array[i]] for an integer [i]: [undefined] out of range. *)
Definition at_ {A} (l : list A) (i : Z) : option A :=
  if (i <? 0)%Z then None else l !! Z.to_nat i.

(** [s.includes(sub)] for a string [sub]. *)
Fixpoint strIncludes (s sub : jsstring) : bool :=
  startsWith s sub
  || match s with
     | [] => false
     | _ :: s' => strIncludes s' sub
     end.

(** [set.has(x)] and [set.delete(x)] on a [Set] kept in insertion
    order. *)
Definition setHas (x : jsstring) (s : list jsstring) : bool :=
  bool_decide (x ∈ s).
Definition setDelete (x : jsstring) (s : list jsstring) : list jsstring :=
  filter (fun y => y <> x) s.

Inductive AppState := SETUP | BROWSING | PLAYING.

(** What the handlers show or log. *)
Inductive Output :=
| Alert (msg : jsstring)
| Log (msg : jsstring).

(** The [useState] cells of the component that the handlers below read
    or write. *)
Record State := {
  appState : AppState;
  channels : list Channel;
  categories : list Category;
  selectedCategory : jsstring;
  currentChannel : option Channel;
  searchTerm : jsstring;
  showFavoritesOnly : bool;
  favorites : list jsstring;
  focusedIndex : Z;
  isSidebarFocused : bool;
  output : list Output;
}.

(** The state of a fresh mount, [saved] being the favorites read from
    local storage. *)
Definition mount (saved : list jsstring) : State :=
  {| appState := SETUP; channels := []; categories := [];
     selectedCategory := js "all"; currentChannel := None;
     searchTerm := []; showFavoritesOnly := false;
     favorites := Parser.distinct saved;
     focusedIndex := (-1)%Z; isSidebarFocused := false; output := [] |}.

Definition setAppState (a : AppState) (st : State) : State :=
  {| appState := a; channels := channels st; categories := categories st;
     selectedCategory := selectedCategory st;
     currentChannel := currentChannel st; searchTerm := searchTerm st;
     showFavoritesOnly := showFavoritesOnly st; favorites := favorites st;
     focusedIndex := focusedIndex st;
     isSidebarFocused := isSidebarFocused st; output := output st |}.

Definition setChannels (chs : list Channel) (st : State) : State :=
  {| appState := appState st; channels := chs; categories := categories st;
     selectedCategory := selectedCategory st;
     currentChannel := currentChannel st; searchTerm := searchTerm st;
     showFavoritesOnly := showFavoritesOnly st; favorites := favorites st;
     focusedIndex := focusedIndex st;
     isSidebarFocused := isSidebarFocused st; output := output st |}.

Definition setCategories (cs : list Category) (st : State) : State :=
  {| appState := appState st; channels := channels st; categories := cs;
     selectedCategory := selectedCategory st;
     currentChannel := currentChannel st; searchTerm := searchTerm st;
     showFavoritesOnly := showFavoritesOnly st; favorites := favorites st;
     focusedIndex := focusedIndex st;
     isSidebarFocused := isSidebarFocused st; output := output st |}.

Definition setSelectedCategory (c : jsstring) (st : State) : State :=
  {| appState := appState st; channels := channels st;
     categories := categories st; selectedCategory := c;
     currentChannel := currentChannel st; searchTerm := searchTerm st;
     showFavoritesOnly := showFavoritesOnly st; favorites := favorites st;
     focusedIndex := focusedIndex st;
     isSidebarFocused := isSidebarFocused st; output := output st |}.

Definition setCurrentChannel (c : option Channel) (st : State) : State :=
  {| appState := appState st; channels := channels st;
     categories := categories st; selectedCategory := selectedCategory st;
     currentChannel := c; searchTerm := searchTerm st;
     showFavoritesOnly := showFavoritesOnly st; favorites := favorites st;
     focusedIndex := focusedIndex st;
     isSidebarFocused := isSidebarFocused st; output := output st |}.

Definition setSearchTerm (s : jsstring) (st : State) : State :=
  {| appState := appState st; channels := channels st;
     categories := categories st; selectedCategory := selectedCategory st;
     currentChannel := currentChannel st; searchTerm := s;
     showFavoritesOnly := showFavoritesOnly st; favorites := favorites st;
     focusedIndex := focusedIndex st;
     isSidebarFocused := isSidebarFocused st; output := output st |}.

Definition setShowFavoritesOnly (b : bool) (st : State) : State :=
  {| appState := appState st; channels := channels st;
     categories := categories st; selectedCategory := selectedCategory st;
     currentChannel := currentChannel st; searchTerm := searchTerm st;
     showFavoritesOnly := b; favorites := favorites st;
     focusedIndex := focusedIndex st;
     isSidebarFocused := isSidebarFocused st; output := output st |}.

Definition setFavorites (f : list jsstring) (st : State) : State :=
  {| appState := appState st; channels := channels st;
     categories := categories st; selectedCategory := selectedCategory st;
     currentChannel := currentChannel st; searchTerm := searchTerm st;
     showFavoritesOnly := showFavoritesOnly st; favorites := f;
     focusedIndex := focusedIndex st;
     isSidebarFocused := isSidebarFocused st; output := output st |}.

Definition setFocusedIndex (i : Z) (st : State) : State :=
  {| appState := appState st; channels := channels st;
     categories := categories st; selectedCategory := selectedCategory st;
     currentChannel := currentChannel st; searchTerm := searchTerm st;
     showFavoritesOnly := showFavoritesOnly st; favorites := favorites st;
     focusedIndex := i;
     isSidebarFocused := isSidebarFocused st; output := output st |}.

Definition setIsSidebarFocused (b : bool) (st : State) : State :=
  {| appState := appState st; channels := channels st;
     categories := categories st; selectedCategory := selectedCategory st;
     currentChannel := currentChannel st; searchTerm := searchTerm st;
     showFavoritesOnly := showFavoritesOnly st; favorites := favorites st;
     focusedIndex := focusedIndex st;
     isSidebarFocused := b; output := output st |}.

Definition say (o : Output) (st : State) : State :=
  {| appState := appState st; channels := channels st;
     categories := categories st; selectedCategory := selectedCategory st;
     currentChannel := currentChannel st; searchTerm := searchTerm st;
     showFavoritesOnly := showFavoritesOnly st; favorites := favorites st;
     focusedIndex := focusedIndex st;
     isSidebarFocused := isSidebarFocused st; output := output st ++ [o] |}.

(** [toggleFavorite]: the key is the URL of the channel. *)
Definition toggleFavorite (channel : Channel) (st : State) : State :=
  let key := url channel in
  let newFavs :=
    if setHas key (favorites st) then setDelete key (favorites st)
    else setAdd key (favorites st) in
  setFavorites newFavs st.

Section Handlers.

(** [String.prototype.toLowerCase], the full Unicode mapping the search
    uses, is a parameter. *)
Variable lower : jsstring -> jsstring.

(** [Date.now()] as the parser reads it. *)
Variable now : nat -> N.

(** The predicate of [channels.filter] in [filteredChannels]. *)
Definition shown (st : State) (ch : Channel) : bool :=
  if negb (bool_decide (selectedCategory st = js "all"))
     && negb (bool_decide (group ch = Some (selectedCategory st)))
  then false
  else if nonEmpty (searchTerm st)
          && negb (strIncludes (lower (name ch)) (lower (searchTerm st)))
  then false
  else if showFavoritesOnly st && negb (setHas (url ch) (favorites st))
  then false
  else true.

Definition filteredChannels (st : State) : list Channel :=
  filter (fun ch => shown st ch = true) (channels st).

(** [loadPlaylist]. *)
Definition loadPlaylist (content : jsstring) (st : State) : State :=
  match Parser.parseM3U now content with
  | Ok parsed =>
      if (length (Parser.parsed_channels parsed) =? 0)%nat then
        say (Alert (js "No channels found in playlist. The file might be empty or invalid.")) st
      else
        setFocusedIndex 0
          (setAppState BROWSING
             (setCategories (Parser.parsed_categories parsed)
                (setChannels (Parser.parsed_channels parsed) st)))
  | Throw _ => say (Alert (js "Failed to parse playlist")) st
  end.

Definition handleTextSubmit (playlistText : jsstring) (st : State) : State :=
  if negb (nonEmpty playlistText) then st else loadPlaylist playlistText st.

Definition handleChannelSelect (channel : Channel) (st : State) : State :=
  setAppState PLAYING (setCurrentChannel (Some channel) st).

Definition handleBackFromPlayer (st : State) : State :=
  setCurrentChannel None (setAppState BROWSING st).

(** [handleChannelError]. *)
Definition handleChannelError (channelId : jsstring) (st : State) : State :=
  let filtered := filteredChannels st in
  let failedChannelIndex :=
    findIndex (fun c => bool_decide (id c = channelId)) filtered in
  if (failedChannelIndex =? -1)%Z then st
  else
    let st := say (Log (js "Channel " ++ channelId
                        ++ js " failed. Removing and skipping.")) st in
    let nextChannel :=
      if (1 <? Z.of_nat (length filtered))%Z then
        at_ filtered (Z.rem (failedChannelIndex + 1)
                            (Z.of_nat (length filtered)))
      else None in
    let st :=
      setChannels (filter (fun c => id c <> channelId) (channels st)) st in
    match nextChannel with
    | Some next => setCurrentChannel (Some next) st
    | None =>
        setCurrentChannel None
          (setAppState BROWSING
             (say (Alert (js "All channels in this list seem to be offline."))
                  st))
    end.

Definition getCurrentChannelIndex (st : State) : Z :=
  match currentChannel st with
  | None => (-1)%Z
  | Some current =>
      findIndex (fun c => bool_decide (id c = id current))
                (filteredChannels st)
  end.

Definition handleNextChannel (st : State) : State :=
  let currentIndex := getCurrentChannelIndex st in
  if (currentIndex =? -1)%Z then st
  else
    let len := Z.of_nat (length (filteredChannels st)) in
    let nextIndex := Z.rem (currentIndex + 1) len in
    setCurrentChannel (at_ (filteredChannels st) nextIndex) st.

Definition handlePrevChannel (st : State) : State :=
  let currentIndex := getCurrentChannelIndex st in
  if (currentIndex =? -1)%Z then st
  else
    let len := Z.of_nat (length (filteredChannels st)) in
    let prevIndex := Z.rem (currentIndex - 1 + len) len in
    setCurrentChannel (at_ (filteredChannels st) prevIndex) st.

(** The keys the browsing view tells apart. *)
Inductive Key :=
| ArrowRight | ArrowLeft | ArrowDown | ArrowUp
| Enter | Backspace | Escape | OtherKey.

Definition COLUMNS : Z := 4.

(** [handleKeyDown] of the browsing view; the listener is only
    installed while the state is [BROWSING]. *)
Definition handleKeyDown (key : Key) (st : State) : State :=
  match appState st with
  | BROWSING =>
      if isSidebarFocused st then
        match key with
        | ArrowRight | Enter =>
            setFocusedIndex 0 (setIsSidebarFocused false st)
        | _ => st
        end
      else
        let len := Z.of_nat (length (filteredChannels st)) in
        let focused := focusedIndex st in
        let nextIndex :=
          match key with
          | ArrowRight => Z.min (len - 1) (focused + 1)
          | ArrowLeft => Z.max 0 (focused - 1)
          | ArrowDown => Z.min (len - 1) (focused + COLUMNS)
          | ArrowUp => Z.max 0 (focused - COLUMNS)
          | _ => focused
          end in
        let st :=
          match key with
          | Enter =>
              match at_ (filteredChannels st) focused with
              | Some ch => handleChannelSelect ch st
              | None => st
              end
          | Backspace | Escape => setAppState SETUP st
          | _ => st
          end in
        if negb (nextIndex =? focused)%Z then setFocusedIndex nextIndex st
        else st
  | _ => st
  end.

(** The click on a category of the sidebar. *)
Definition selectCategory (cat : Category) (st : State) : State :=
  setFocusedIndex 0
    (setSelectedCategory
       (if bool_decide (cat_name cat = js "All Channels") then js "all"
        else cat_name cat)
       st).

(** The [Clear filters] button of the empty grid. *)
Definition clearFilters (st : State) : State :=
  setSelectedCategory (js "all")
    (setShowFavoritesOnly false (setSearchTerm [] st)).

(** What the user and the player can ask of the mounted application:
    the handlers above, the search box, the favorites switch and the
    [Change Playlist] button. *)
Inductive Action :=
| TextSubmit (playlistText : jsstring)
| FileLoaded (content : jsstring)
| ChannelSelect (channel : Channel)
| BackFromPlayer
| ChannelError (channelId : jsstring)
| NextChannel
| PrevChannel
| KeyDown (key : Key)
| SelectCategory (cat : Category)
| ClearFilters
| ToggleFavorite (channel : Channel)
| Search (term : jsstring)
| FavoritesOnly
| ChangePlaylist.

Definition perform (a : Action) (st : State) : State :=
  match a with
  | TextSubmit playlistText => handleTextSubmit playlistText st
  | FileLoaded content => loadPlaylist content st
  | ChannelSelect channel => handleChannelSelect channel st
  | BackFromPlayer => handleBackFromPlayer st
  | ChannelError channelId => handleChannelError channelId st
  | NextChannel => handleNextChannel st
  | PrevChannel => handlePrevChannel st
  | KeyDown key => handleKeyDown key st
  | SelectCategory cat => selectCategory cat st
  | ClearFilters => clearFilters st
  | ToggleFavorite channel => toggleFavorite channel st
  | Search term => setSearchTerm term st
  | FavoritesOnly => setShowFavoritesOnly (negb (showFavoritesOnly st)) st
  | ChangePlaylist => setAppState SETUP st
  end.

(** The state after a sequence of actions on a freshly mounted
    application that found [saved] in local storage. *)
Definition session (saved : list jsstring) (actions : list Action) : State :=
  fold_left (fun st a => perform a st) actions (mount saved).

End Handlers.

End App.

(** ** Verdicts of a playback session *)

Module Verdict.
Import JS Player.

(** The events a session answers with [handleFatalError], on backend
    [b] and with [video.onerror] set or not: the DASH listener does for
    every error, the MPEG-TS listener for network errors, the HLS
    listener for fatal errors other than network and media errors,
    [video.onerror] for every error of the element. *)
Definition fatalFor (b : Protocol) (onerror : bool) (ev : Event) : bool :=
  match ev with
  | DashError => match b with DASH => true | _ => false end
  | MpegtsError ty =>
      match b, ty with
      | MPEG_TS_FLV, MPEGTS_NETWORK_ERROR => true
      | _, _ => false
      end
  | HlsError data =>
      match b with
      | HLS =>
          fatal data
          && match hls_type data with
             | NETWORK_ERROR | MEDIA_ERROR => false
             | _ => true
             end
      | _ => false
      end
  | VideoError => onerror
  | PlayRejected _ | Elapse _ => false
  end.

(** The message the handler of an event passes to [handleFatalError]. *)
Definition verdictMessage (ev : Event) : option jsstring :=
  match ev with
  | DashError => Some (js "DASH Error")
  | MpegtsError _ => Some (js "Network Error")
  | HlsError _ => Some (js "Stream Connection Failed")
  | VideoError => Some (js "Format not supported or offline")
  | PlayRejected _ | Elapse _ => None
  end.

(** A session on backend [b] as [setup] leaves it, but for what it
    logged and whether it plays: the adapter attached, no verdict, no
    timer, no callback made. *)
Definition quiescent (b : Protocol) (onerror : bool) (st : State) : Prop :=
  backend st = b
  /\ hlsRef st = match b with HLS => true | _ => false end
  /\ dashRef st = match b with DASH => true | _ => false end
  /\ mpegtsRef st = match b with MPEG_TS_FLV => true | _ => false end
  /\ videoOnerror st = onerror
  /\ isRemoving st = false /\ removalDep st = false
  /\ removalTimer st = None /\ error st = None /\ callbacks st = [].

(** A session on backend [b] whose verdict is pending or executed. *)
Definition condemned (b : Protocol) (onerror : bool) (st : State) : Prop :=
  backend st = b
  /\ (hlsRef st = true -> b = HLS)
  /\ (dashRef st = true -> b = DASH)
  /\ (mpegtsRef st = true -> b = MPEG_TS_FLV)
  /\ videoOnerror st = onerror
  /\ isRemoving st = true /\ removalDep st = true.

End Verdict.

(** ** Sample data for the application shell *)

Module Fixtures.
Import JS.

(** A property block whose license key carries a header value that is
    not percent-decodable. *)
Definition badBlock : list jsstring :=
  [js "#KODIPROP:inputstream.adaptive.license_type=com.widevine.alpha";
   js "#KODIPROP:inputstream.adaptive.license_key=https://lic.example/x|Token=%zz"].

Definition badEscape : jsstring := unlines (badBlock ++ [Sample.firstUrl]).

(** Three channels in two groups. *)
Definition threeChannels : jsstring :=
  unlines
    [js "#EXTINF:-1 tvg-id=" ++ quoted (js "one.tv") ++ js " group-title="
        ++ quoted (js "News") ++ js ",One";
     js "http://example.com/one.m3u8";
     js "#EXTINF:-1 group-title=" ++ quoted (js "News") ++ js ",Two";
     js "http://example.com/two.mpd";
     js "#EXTINF:-1 group-title=" ++ quoted (js "Sports") ++ js ",Three";
     js "http://example.com/three.ts"].

(** The same text with padded lines. *)
Definition paddedChannels : jsstring :=
  unlines
    [js "  #EXTINF:-1 tvg-id=" ++ quoted (js "one.tv") ++ js " group-title="
        ++ quoted (js "News") ++ js ",One ";
     js " http://example.com/one.m3u8  ";
     js "#EXTINF:-1 group-title=" ++ quoted (js "News") ++ js ",Two" ++ [Playlist.CR];
     js "http://example.com/two.mpd" ++ [Playlist.CR];
     js "#EXTINF:-1 group-title=" ++ quoted (js "Sports") ++ js ",Three";
     js "http://example.com/three.ts "].

(** The browsing view after [threeChannels] was pasted in. *)
Definition browsing : App.State :=
  App.handleTextSubmit Sample.clock threeChannels (App.mount []).

Definition channelNo (i : nat) : Channel :=
  List.nth i (App.channels browsing) (Sample.channelAt "").

(** The player showing the second of them. *)
Definition playing : App.State :=
  App.handleChannelSelect (channelNo 1) browsing.

(** An [#EXTINF] payload with an identifier and a group. *)
Definition info : jsstring :=
  js "-1 tvg-id=" ++ quoted (js "one.tv") ++ js " group-title="
  ++ quoted (js "News") ++ js ",One".

Definition fatalKeySystem : Player.Event :=
  Player.HlsError {| Player.hls_type := Player.KEY_SYSTEM_ERROR;
                     Player.fatal := true |}.


Definition dashChannel : Channel :=
  Sample.channelAt "http://example.com/live.mpd".

End Fixtures.

(** * Verified properties *)

(** ** Splitting *)

Section Splitting.
Import JS.

Lemma split_cons_sep (sep : N) (s : jsstring) :
  split sep (sep :: s) = [] :: split sep s.
Proof. simpl. rewrite N.eqb_refl. reflexivity. Qed.

Lemma split_nonempty (sep : N) (s : jsstring) : split sep s <> [].
Proof.
  induction s as [|c s IH]; simpl; [discriminate|].
  destruct (c =? sep); [discriminate|].
  destruct (split sep s); [contradiction|discriminate].
Qed.

Lemma split_app_sep (sep : N) (a b : jsstring) :
  sep ∉ a -> split sep (a ++ sep :: b) = a :: split sep b.
Proof.
  induction a as [|c a IH]; intros Ha.
  - apply split_cons_sep.
  - apply not_elem_of_cons in Ha as [Hc Ha]. simpl.
    destruct (N.eqb_spec c sep) as [->|_]; [contradiction|].
    rewrite (IH Ha). reflexivity.
Qed.

Lemma split_no_sep (sep : N) (a : jsstring) : sep ∉ a -> split sep a = [a].
Proof.
  induction a as [|c a IH]; intros Ha; [reflexivity|].
  apply not_elem_of_cons in Ha as [Hc Ha]. simpl.
  destruct (N.eqb_spec c sep) as [->|_]; [contradiction|].
  rewrite (IH Ha). reflexivity.
Qed.

(** The parts after a separator are the parts of what follows it. *)
Lemma split_app (sep : N) (a b : jsstring) :
  exists p ps, split sep (a ++ sep :: b) = (p :: ps) ++ split sep b.
Proof.
  induction a as [|c a (p & ps & IH)].
  - exists [], []. apply split_cons_sep.
  - simpl app. simpl split. rewrite IH. simpl.
    destruct (c =? sep); [exists [], (p :: ps)|exists (c :: p), ps];
      reflexivity.
Qed.

Lemma last_app_nonempty {A} (l k : list A) (d : A) :
  k <> [] -> List.last (l ++ k) d = List.last k d.
Proof.
  intros Hk. induction l as [|x l IH]; [reflexivity|].
  simpl app. simpl List.last. rewrite IH.
  destruct (l ++ k) eqn:E; [|reflexivity].
  apply app_eq_nil in E as [_ ->]. contradiction.
Qed.

Lemma split_last (sep : N) (a b : jsstring) :
  List.last (split sep (a ++ sep :: b)) [] = List.last (split sep b) [].
Proof.
  destruct (split_app sep a b) as (p & ps & ->).
  apply last_app_nonempty, split_nonempty.
Qed.

Lemma includes_elem_of (s : jsstring) (c : N) :
  includes s c = true <-> c ∈ s.
Proof.
  unfold includes. induction s as [|d s IH]; simpl.
  - rewrite elem_of_nil. split; [discriminate|tauto].
  - rewrite elem_of_cons. destruct (N.eqb_spec d c) as [->|Hne].
    + simpl. tauto.
    + destruct (indexOf s c =? -1)%Z eqn:E; simpl in *.
      * split; [discriminate|]. intros [->|H]; [contradiction|].
        apply IH in H. discriminate.
      * assert (Hi : (indexOf s c + 1 =? -1)%Z = false).
        { apply Z.eqb_neq. apply Z.eqb_neq in E.
          assert (-1 <= indexOf s c)%Z; [|lia].
          clear. induction s as [|x s IHs]; simpl; [lia|].
          destruct (x =? c); [lia|].
          destruct (indexOf s c =? -1)%Z; lia. }
        rewrite Hi. simpl. split; [|reflexivity].
        intros _. right. apply IH. reflexivity.
Qed.

End Splitting.

(** ** Sorting and the category set *)

Section Categories.
Import JS Parser.

Lemma ltb_irrefl (a : jsstring) : ltb a a = false.
Proof.
  induction a as [|x a IH]; simpl; [reflexivity|].
  rewrite N.ltb_irrefl, N.eqb_refl, IH. reflexivity.
Qed.

Lemma ltb_trans (a b c : jsstring) :
  ltb a b = true -> ltb b c = true -> ltb a c = true.
Proof.
  revert b c. induction a as [|x a IH]; intros [|y b] [|z c]; simpl;
    try discriminate; try reflexivity.
  intros H1 H2.
  apply orb_prop in H1. apply orb_prop in H2. apply orb_true_iff.
  destruct H1 as [H1|H1], H2 as [H2|H2];
    rewrite ?andb_true_iff, ?N.ltb_lt, ?N.eqb_eq in *.
  - left. lia.
  - left. lia.
  - left. lia.
  - right. destruct H1 as [-> H1], H2 as [-> H2]. split; [reflexivity|].
    eapply IH; eassumption.
Qed.

Lemma ltb_total (a b : jsstring) :
  ltb a b = false -> a <> b -> ltb b a = true.
Proof.
  revert b. induction a as [|x a IH]; intros [|y b]; simpl;
    try discriminate; try reflexivity; try congruence.
  intros H Hne. apply orb_false_elim in H as [H1 H2].
  apply N.ltb_ge in H1. apply orb_true_iff.
  destruct (N.eqb_spec x y) as [->|Hxy].
  - right. rewrite N.eqb_refl. simpl. simpl in H2. apply IH; [exact H2|].
    congruence.
  - left. apply N.ltb_lt. lia.
Qed.

Lemma elem_of_insertSorted (x y : jsstring) (l : list jsstring) :
  y ∈ insertSorted x l <-> y = x \/ y ∈ l.
Proof.
  induction l as [|z l IH]; simpl.
  - rewrite list_elem_of_singleton, elem_of_nil. tauto.
  - destruct (ltb z x); rewrite !elem_of_cons, ?IH; tauto.
Qed.

Lemma elem_of_sort (y : jsstring) (l : list jsstring) : y ∈ sort l <-> y ∈ l.
Proof.
  unfold sort. induction l as [|x l IH]; simpl; [reflexivity|].
  rewrite elem_of_insertSorted, elem_of_cons, IH. reflexivity.
Qed.

Lemma insertSorted_increasing (x : jsstring) (l : list jsstring) :
  x ∉ l -> increasing l -> increasing (insertSorted x l).
Proof.
  unfold increasing. intros Hx Hl. induction Hl as [|z l Hl IH Hz]; simpl.
  - constructor; constructor.
  - apply not_elem_of_cons in Hx as [Hxz Hx].
    destruct (ltb z x) eqn:E.
    + constructor; [exact (IH Hx)|].
      apply Forall_forall. intros y Hy. apply elem_of_insertSorted in Hy.
      destruct Hy as [->|Hy]; [exact E|].
      rewrite Forall_forall in Hz. exact (Hz y Hy).
    + assert (Hlt : ltb x z = true) by (apply ltb_total; [exact E|congruence]).
      constructor; [constructor; assumption|].
      constructor; [exact Hlt|].
      eapply Forall_impl; [exact Hz|]. intros y Hy. simpl in Hy.
      eapply ltb_trans; eassumption.
Qed.

Lemma sort_increasing (l : list jsstring) : NoDup l -> increasing (sort l).
Proof.
  induction 1 as [|x l Hx _ IH]; [constructor|].
  change (sort (x :: l)) with (insertSorted x (sort l)).
  apply insertSorted_increasing; [|exact IH].
  intros Hin. rewrite elem_of_sort in Hin. contradiction.
Qed.

Lemma elem_of_setAdd (x y : jsstring) (s : list jsstring) :
  y ∈ setAdd x s <-> y = x \/ y ∈ s.
Proof.
  unfold setAdd. case_bool_decide as Hx.
  - split; [tauto|]. intros [->|H]; assumption.
  - rewrite elem_of_app, list_elem_of_singleton. tauto.
Qed.

Lemma NoDup_setAdd (x : jsstring) (s : list jsstring) :
  NoDup s -> NoDup (setAdd x s).
Proof.
  intros Hs. unfold setAdd. case_bool_decide as Hx; [exact Hs|].
  apply NoDup_app. split; [exact Hs|]. split.
  - intros y Hy Hy'. apply list_elem_of_singleton in Hy'. congruence.
  - apply NoDup_singleton.
Qed.

End Categories.

(** ** The playlist parser *)

Section ParserBlocks.
Import JS Parser.
Variable now : nat -> N.

Lemma bind_Ok {A B} (r : result A) (k : A -> result B) (b : B) :
  bind r k = Ok b -> exists a, r = Ok a /\ k a = Ok b.
Proof. destruct r as [a|e]; simpl; [eauto|discriminate]. Qed.

(** [step] takes the branch [kind] names. *)
Lemma step_kind (st : State) (i : nat) (line : jsstring) :
  step now st i line
  = match kind line with
    | Blank | Comment => Ok st
    | PropertyLine => Ok (kodiprop (trim line) st)
    | MetadataLine => Ok (extinf (trim line) st)
    | UrlLine => urlLine (now i) i (trim line) st
    end.
Proof.
  unfold step, kind.
  destruct (negb (nonEmpty (trim line))); [reflexivity|].
  destruct (startsWith (trim line) KODIPROP); [reflexivity|].
  destruct (startsWith (trim line) EXTINF); [reflexivity|].
  destruct (negb (startsWith (trim line) [HASH])); reflexivity.
Qed.

Lemma forEach_app (l1 l2 : list jsstring) (i : nat) (st : State) :
  forEach now (l1 ++ l2) i st
  = attempt st' <- forEach now l1 i st;
    forEach now l2 (i + length l1) st'.
Proof.
  revert i st. induction l1 as [|l l1 IH]; intros i st; simpl.
  - rewrite Nat.add_0_r. reflexivity.
  - destruct (step now st i l) as [st1|e]; simpl; [|reflexivity].
    rewrite IH. replace (S i + length l1)%nat with (i + S (length l1))%nat by lia.
    reflexivity.
Qed.

(** A URL line pushes one channel and resets both accumulators. *)
Lemma urlLine_Ok (t : N) (i : nat) (trimmed : jsstring) (st st' : State) :
  urlLine t i trimmed st = Ok st' ->
  exists d,
    extractDrm (currentProps st) = Ok d
    /\ channels st'
       = channels st
         ++ [makeChannel t i (length (channels st)) (currentChannel st)
                         (currentProps st) trimmed d]
    /\ currentChannel st' = emptyPartial
    /\ currentProps st' = ∅
    /\ categoriesSet st'
       = setAdd (orElse (p_group (currentChannel st)) UNCATEGORIZED)
                (categoriesSet st).
Proof.
  unfold urlLine. intros H. apply bind_Ok in H as (d & Hd & H).
  injection H as <-. exists d. simpl. repeat split; try assumption.
  destruct (p_group (currentChannel st)) as [g|]; simpl; [|reflexivity].
  destruct (nonEmpty g); reflexivity.
Qed.

(** Lines that are not URL lines cannot fail; they leave the channels
    alone and accumulate properties and metadata. *)
Lemma forEach_pending (block : list jsstring) (i : nat) (st : State) :
  Forall (fun l => isUrl l = false) block ->
  exists st',
    forEach now block i st = Ok st'
    /\ channels st' = channels st
    /\ currentProps st'
       = fold_left (fun props l =>
                      if isProperty l then kodipropSet (trim l) props
                      else props) block (currentProps st)
    /\ currentChannel st'
       = fold_left (fun cc l =>
                      if isMetadata l
                      then extinfChannel (substringFrom (trim l) 8)
                      else cc) block (currentChannel st).
Proof.
  intros Hb. revert i st.
  induction Hb as [|l block Hl _ IH]; intros i st; simpl.
  - eauto.
  - rewrite step_kind. unfold isUrl, isProperty, isMetadata in *.
    destruct (kind l); try discriminate; simpl;
      match goal with
      | |- context [forEach now block ?j ?s] =>
          destruct (IH j s) as (st' & -> & Hc & Hp & Hm)
      end; exists st'; simpl in *; auto.
Qed.

Lemma forEach_channels (lines : list jsstring) (i : nat) (st st' : State) :
  forEach now lines i st = Ok st' ->
  exists more, channels st' = channels st ++ more
               /\ length more = countUrls lines.
Proof.
  revert i st. induction lines as [|l lines IH]; intros i st H; simpl in H.
  - injection H as <-. exists []. by rewrite app_nil_r.
  - apply bind_Ok in H as (st1 & H1 & H). apply IH in H as (more & Hm & Hlen).
    rewrite step_kind in H1. unfold countUrls, isUrl in *.
    rewrite filter_cons.
    destruct (kind l) eqn:Ek;
      try (injection H1 as <-; exists more; split; [exact Hm|];
           rewrite decide_False by discriminate; exact Hlen).
    apply urlLine_Ok in H1 as (d & _ & Hc & _).
    rewrite Hc, <- app_assoc in Hm. eexists. split; [exact Hm|].
    rewrite decide_True by reflexivity. simpl. by rewrite Hlen.
Qed.

(** After a completed prefix nothing is pending. *)
Lemma forEach_completed (pre : list jsstring) (st : State) :
  completed pre -> forEach now pre 0 initial = Ok st ->
  currentProps st = ∅ /\ currentChannel st = emptyPartial
  /\ length (channels st) = countUrls pre.
Proof.
  intros Hc H.
  assert (Hlen : length (channels st) = countUrls pre).
  { apply forEach_channels in H as (more & -> & <-). reflexivity. }
  destruct Hc as [->|(pre' & l & -> & Hl)].
  - injection H as <-. auto.
  - rewrite forEach_app in H. apply bind_Ok in H as (s1 & _ & H).
    simpl in H. apply bind_Ok in H as (s2 & H & H2). injection H2 as <-.
    rewrite step_kind in H. unfold isUrl in Hl.
    destruct (kind l); try discriminate.
    apply urlLine_Ok in H as (d & _ & _ & Hcc & Hp & _). auto.
Qed.

(** The channel of a block: the lines [mid] between the previous URL
    line and the URL line [u] decide it, with nothing from before. *)
Lemma parse_block (content : jsstring) (pre mid : list jsstring)
    (u : jsstring) (post : list jsstring) (r : Parsed) :
  split LF content = pre ++ mid ++ u :: post ->
  completed pre ->
  Forall (fun l => isUrl l = false) mid ->
  isUrl u = true ->
  parseM3U now content = Ok r ->
  exists d,
    extractDrm (pendingProps mid) = Ok d
    /\ parsed_channels r !! countUrls pre
       = Some (makeChannel (now (length (pre ++ mid))) (length (pre ++ mid))
                           (countUrls pre) (pendingChannel mid)
                           (pendingProps mid) (trim u) d).
Proof.
  intros Hs Hc Hmid Hu Hp. unfold parseM3U in Hp. rewrite Hs in Hp.
  apply bind_Ok in Hp as (st & Hf & Hr). injection Hr as <-. simpl.
  rewrite forEach_app in Hf. apply bind_Ok in Hf as (s1 & H1 & Hf).
  rewrite forEach_app in Hf. apply bind_Ok in Hf as (s2 & H2 & Hf).
  simpl in Hf. apply bind_Ok in Hf as (s3 & H3 & Hf).
  destruct (forEach_completed pre s1 Hc H1) as (Hp1 & Hc1 & Hn1).
  destruct (forEach_pending mid (0 + length pre) s1 Hmid)
    as (s2' & H2' & Hch2 & Hp2 & Hc2).
  rewrite H2 in H2'. injection H2' as <-.
  rewrite Hp1 in Hp2. rewrite Hc1 in Hc2.
  fold (pendingProps mid) in Hp2. fold (pendingChannel mid) in Hc2.
  rewrite step_kind in H3. unfold isUrl in Hu.
  destruct (kind u); try discriminate.
  apply urlLine_Ok in H3 as (d & Hd & Hch3 & _).
  apply forEach_channels in Hf as (more & Hm & _).
  exists d. rewrite <- Hp2. split; [exact Hd|].
  rewrite Hm, Hch3, Hch2, <- Hn1, <- app_assoc.
  rewrite lookup_app_r by lia. rewrite Nat.sub_diag. simpl.
  rewrite Hc2, length_app. reflexivity.
Qed.

End ParserBlocks.

Section CategoryInvariant.
Import JS Parser.
Variable now : nat -> N.

Lemma declaredGroups_snoc (done : list jsstring) (l : jsstring) :
  declaredGroups (done ++ [l])
  = declaredGroups done
    ++ (if isMetadata l then
          match p_group (extinfChannel (substringFrom (trim l) 8)) with
          | Some g => if nonEmpty g then [g] else []
          | None => []
          end
        else []).
Proof.
  unfold declaredGroups. rewrite omap_app. f_equal.
  cbv beta iota delta [omap list_omap].
  generalize (p_group (extinfChannel (substringFrom (trim l) 8))).
  intros og. destruct (isMetadata l); [|reflexivity].
  destruct og as [g|]; [|reflexivity].
  destruct (nonEmpty g); reflexivity.
Qed.

Lemma step_categories (done : list jsstring) (st st' : State) (i : nat)
    (l : jsstring) :
  categoriesInv done st -> step now st i l = Ok st' ->
  categoriesInv (done ++ [l]) st'.
Proof.
  intros [Hnd Hin] H. rewrite step_kind in H. unfold categoriesInv.
  rewrite declaredGroups_snoc. unfold isMetadata.
  destruct (kind l) eqn:Ek.
  - injection H as <-. rewrite app_nil_r. auto.
  - injection H as <-. rewrite app_nil_r. auto.
  - injection H as <-. unfold extinf, substringFrom.
    generalize (p_group (extinfChannel (drop 8 (trim l)))).
    intros og. cbn [categoriesSet channels].
    destruct og as [g|]; [|rewrite app_nil_r; auto].
    destruct (nonEmpty g); [|rewrite app_nil_r; auto].
    split; [apply NoDup_setAdd; exact Hnd|].
    intros g'. rewrite elem_of_setAdd, elem_of_app, list_elem_of_singleton, Hin.
    tauto.
  - apply urlLine_Ok in H as (d & _ & Hch & _ & _ & Hset).
    rewrite app_nil_r, Hch, Hset. unfold channelGroups. rewrite omap_app.
    simpl omap. split; [apply NoDup_setAdd; exact Hnd|].
    intros g'. rewrite elem_of_setAdd, elem_of_app, list_elem_of_singleton.
    fold (channelGroups (channels st)). rewrite Hin. tauto.
  - injection H as <-. rewrite app_nil_r. auto.
Qed.

Lemma forEach_categories (lines done : list jsstring) (i : nat)
    (st st' : State) :
  categoriesInv done st -> forEach now lines i st = Ok st' ->
  categoriesInv (done ++ lines) st'.
Proof.
  revert done i st. induction lines as [|l lines IH]; intros done i st Hi H.
  - injection H as <-. rewrite app_nil_r. exact Hi.
  - simpl in H. apply bind_Ok in H as (st1 & H1 & H).
    replace (done ++ l :: lines) with ((done ++ [l]) ++ lines)
      by (rewrite <- app_assoc; reflexivity).
    eapply IH; [|exact H]. eapply step_categories; eassumption.
Qed.

(** C3, amended.  The categories are [All Channels] with identifier
    [all], followed by the strictly increasing (code-unit order) list of
    names numbered [cat-0], [cat-1], ...; a name is in that list exactly
    when it is the group of a parsed channel or the non-empty group an
    [#EXTINF] line of the text declares, whether or not a URL line
    follows it. *)
Theorem categories_sorted_groups (content : jsstring) (r : Parsed) :
  parseM3U now content = Ok r ->
  exists names,
    parsed_categories r
    = {| cat_id := js "all"; cat_name := js "All Channels" |}
      :: imap (fun idx cat => {| cat_id := js "cat-" ++ ofNat idx;
                                 cat_name := cat |}) names
    /\ increasing names
    /\ forall g, g ∈ names
                 <-> (exists c, c ∈ parsed_channels r /\ group c = Some g)
                     \/ g ∈ declaredGroups (split LF content).
Proof.
  intros H. unfold parseM3U in H. apply bind_Ok in H as (st & Hf & Hr).
  injection Hr as <-. simpl.
  assert (Hi : categoriesInv [] initial).
  { split; [constructor|]. intros g. simpl. rewrite !elem_of_nil. tauto. }
  destruct (forEach_categories _ _ _ _ _ Hi Hf) as [Hnd Hin]. simpl in Hin.
  exists (sort (categoriesSet st)). split; [reflexivity|].
  split; [apply sort_increasing; exact Hnd|].
  intros g. rewrite elem_of_sort, Hin. unfold channelGroups.
  rewrite list_elem_of_omap. reflexivity.
Qed.

(** The input that refutes C3 as stated: the first [#EXTINF] line is
    replaced by the second before any URL line, so no channel is in its
    group [News], yet [News] is a category beside [Sports]. *)
Lemma categoriesFromChannels_fails :
  ~ categoriesFromChannels Sample.clock Sample.replacedMetadata.
Proof.
  intros H.
  destruct (parseM3U Sample.clock Sample.replacedMetadata) as [r|] eqn:E;
    [|vm_compute in E; discriminate].
  specialize (H r E). vm_compute in E. injection E as <-.
  vm_compute in H. discriminate.
Qed.

End CategoryInvariant.

Section PropertyLines.
Import JS Parser.

Lemma objSet_lookup (k d : jsstring) (hs : gmap jsstring jsstring)
    (k' : jsstring) :
  objSet k d hs !! k'
  = if decide (k = k' /\ k <> protoKey) then Some d else hs !! k'.
Proof.
  unfold objSet. case_bool_decide as Hp.
  - rewrite decide_False by tauto. reflexivity.
  - destruct (decide (k = k')) as [->|Hne].
    + rewrite decide_True by tauto. apply lookup_insert_eq.
    + rewrite decide_False by tauto. apply lookup_insert_ne. exact Hne.
Qed.

Lemma indexOf_first (k : jsstring) (c : N) (v : jsstring) :
  c ∉ k -> indexOf (k ++ c :: v) c = Z.of_nat (length k).
Proof.
  induction k as [|d k IH]; intros Hk; simpl.
  - rewrite N.eqb_refl. reflexivity.
  - apply not_elem_of_cons in Hk as [Hd Hk].
    destruct (N.eqb_spec d c) as [->|_]; [contradiction|].
    rewrite (IH Hk).
    destruct (Z.eqb_spec (Z.of_nat (length k)) (-1)) as [E|_]; lia.
Qed.

Lemma indexOf_absent (s : jsstring) (c : N) : c ∉ s -> indexOf s c = (-1)%Z.
Proof.
  induction s as [|d s IH]; intros Hs; [reflexivity|]. simpl.
  apply not_elem_of_cons in Hs as [Hd Hs].
  destruct (N.eqb_spec d c) as [->|_]; [contradiction|].
  rewrite (IH Hs). reflexivity.
Qed.

Lemma startsWith_prefix (p r : jsstring) : startsWith (p ++ r) p = true.
Proof.
  induction p as [|c p IH]; simpl; [destruct r; reflexivity|].
  rewrite N.eqb_refl. exact IH.
Qed.

(** The [#KODIPROP:] branch on a well-formed line: it splits at the
    first equals sign and trims both sides. *)
Lemma kodipropSet_pair (k v : jsstring) (props : gmap jsstring jsstring) :
  EQUALS ∉ k ->
  kodipropSet (KODIPROP ++ k ++ EQUALS :: v) props
  = objSet (trim k) (trim v) props.
Proof.
  intros Hk. unfold kodipropSet.
  change (substringFrom (KODIPROP ++ k ++ EQUALS :: v) 10)
    with (k ++ EQUALS :: v).
  rewrite (indexOf_first k EQUALS v Hk).
  destruct (Z.eqb_spec (Z.of_nat (length k)) (-1)) as [E|_]; [lia|].
  cbn [negb]. unfold substring, substringFrom.
  rewrite Nat2Z.id, Nat.sub_0_r, drop_0, take_app_length.
  replace (Z.to_nat (Z.of_nat (length k) + 1)) with (length k + 1)%nat by lia.
  rewrite <- drop_drop, drop_app_length. reflexivity.
Qed.

Lemma startsWith_split (s p : jsstring) :
  startsWith s p = true -> s = p ++ drop (length p) s.
Proof.
  revert s. induction p as [|a p IH]; intros s; [reflexivity|].
  destruct s as [|b s]; simpl; [discriminate|].
  intros H. apply andb_prop in H as [Hab H]. apply N.eqb_eq in Hab as ->.
  f_equal. exact (IH s H).
Qed.

(** A match of an attribute is a quoted, quote-free text right after
    the attribute name and the equals sign. *)
Lemma indexOf_found (s : jsstring) (c : N) :
  indexOf s c <> (-1)%Z ->
  s = take (Z.to_nat (indexOf s c)) s
      ++ c :: drop (Z.to_nat (indexOf s c + 1)) s
  /\ c ∉ take (Z.to_nat (indexOf s c)) s.
Proof.
  induction s as [|d s IH]; simpl; [congruence|].
  destruct (N.eqb_spec d c) as [->|Hd].
  - intros _. simpl. rewrite drop_0. split; [reflexivity|apply not_elem_of_nil].
  - destruct (Z.eqb_spec (indexOf s c) (-1)) as [E|E]; [congruence|].
    intros _. destruct (IH E) as [Hs Hn].
    assert (H0 : (0 <= indexOf s c)%Z).
    { clear -E. induction s as [|x s IH]; simpl in *; [congruence|].
      destruct (x =? c); [lia|].
      destruct (Z.eqb_spec (indexOf s c) (-1)); [congruence|].
      specialize (IH ltac:(assumption)). lia. }
    replace (Z.to_nat (indexOf s c + 1)) with (S (Z.to_nat (indexOf s c)))
      by lia.
    replace (Z.to_nat (indexOf s c + 1 + 1))
      with (S (Z.to_nat (indexOf s c + 1))) by lia.
    simpl. split.
    + f_equal. exact Hs.
    + apply not_elem_of_cons. split; [congruence|exact Hn].
Qed.

Lemma indexOf_none (s : jsstring) (c : N) : indexOf s c = (-1)%Z -> c ∉ s.
Proof.
  induction s as [|d s IH]; simpl; [intros _; apply not_elem_of_nil|].
  destruct (N.eqb_spec d c) as [->|Hd]; [discriminate|].
  destruct (Z.eqb_spec (indexOf s c) (-1)) as [E|E].
  - intros _. apply not_elem_of_cons. split; [congruence|exact (IH E)].
  - intros H. exfalso. clear -E H.
    assert (H0 : (-1 <= indexOf s c)%Z).
    { clear. induction s as [|x s IH]; simpl; [lia|].
      destruct (x =? c); [lia|].
      destruct (Z.eqb_spec (indexOf s c) (-1)); lia. }
    lia.
Qed.

Lemma isProperty_prefix (l : jsstring) :
  isProperty l = true -> trim l = KODIPROP ++ substringFrom (trim l) 10.
Proof.
  unfold isProperty, kind. intros H.
  destruct (negb (nonEmpty (trim l))); [discriminate|].
  destruct (startsWith (trim l) KODIPROP) eqn:E.
  - exact (startsWith_split _ _ E).
  - destruct (startsWith (trim l) EXTINF); [discriminate|].
    destruct (negb _); discriminate.
Qed.

Lemma prefix_isProperty (l rest : jsstring) :
  trim l = KODIPROP ++ rest -> isProperty l = true.
Proof.
  intros Hl. unfold isProperty, kind. rewrite Hl, startsWith_prefix.
  reflexivity.
Qed.

Lemma pendingProps_snoc (block : list jsstring) (l : jsstring) :
  pendingProps (block ++ [l])
  = if isProperty l then kodipropSet (trim l) (pendingProps block)
    else pendingProps block.
Proof. unfold pendingProps. rewrite fold_left_app. reflexivity. Qed.

(** A property line binds what it declares. *)
Lemma kodipropSet_declares (l k v : jsstring)
    (props : gmap jsstring jsstring) :
  declares l k v -> kodipropSet (trim l) props = objSet k v props.
Proof.
  intros (k0 & v0 & Hl & Hk & <- & <-). rewrite Hl.
  exact (kodipropSet_pair k0 v0 props Hk).
Qed.

(** A property line leaves alone the keys it does not declare. *)
Lemma kodipropSet_other (l k : jsstring) (props : gmap jsstring jsstring) :
  isProperty l = true -> (forall v, ~ declares l k v) ->
  kodipropSet (trim l) props !! k = props !! k.
Proof.
  intros Hp Hn. pose proof (isProperty_prefix l Hp) as Hl.
  unfold kodipropSet.
  set (prop := substringFrom (trim l) 10) in *.
  destruct (Z.eqb_spec (indexOf prop EQUALS) (-1)) as [E|E]; [reflexivity|].
  cbn [negb]. destruct (indexOf_found prop EQUALS E) as [Hs Hk].
  rewrite objSet_lookup. destruct (decide _) as [[Hkey _]|_]; [|reflexivity].
  exfalso. eapply Hn. eexists _, _. split; [|split; [exact Hk|split]].
  - rewrite Hl. f_equal. exact Hs.
  - unfold substring in Hkey. rewrite Nat.sub_0_r, drop_0 in Hkey.
    exact Hkey.
  - reflexivity.
Qed.

(** The value a block binds to a key is the one its last line declaring
    the key declares. *)
Lemma pendingProps_declared (a b : list jsstring) (l k v : jsstring) :
  declares l k v -> k <> protoKey ->
  Forall (fun l' => forall v', ~ declares l' k v') b ->
  pendingProps (a ++ l :: b) !! k = Some v.
Proof.
  intros Hd Hk. induction b as [|l' b IH] using rev_ind; intros Hb.
  - change (a ++ [l]) with (a ++ [l]). rewrite pendingProps_snoc.
    destruct Hd as (k0 & v0 & Hl & Hk0 & <- & <-).
    rewrite (prefix_isProperty l _ Hl), Hl, (kodipropSet_pair k0 v0 _ Hk0).
    rewrite objSet_lookup. destruct (decide _) as [_|Hn]; [reflexivity|].
    exfalso. apply Hn. split; [reflexivity|exact Hk].
  - apply Forall_app in Hb as [Hb Hl']. apply Forall_cons in Hl' as [Hl' _].
    replace (a ++ l :: b ++ [l']) with ((a ++ l :: b) ++ [l'])
      by (rewrite <- app_assoc; reflexivity).
    rewrite pendingProps_snoc. destruct (isProperty l') eqn:E.
    + rewrite (kodipropSet_other l' k _ E Hl'). exact (IH Hb).
    + exact (IH Hb).
Qed.

(** The DRM configuration the URL branch builds from the two license
    properties. *)
Lemma extractDrm_present (props : gmap jsstring jsstring) (ty key : jsstring)
    (d : option DrmConfig) :
  props !! LICENSE_TYPE = Some ty -> props !! LICENSE_KEY = Some key ->
  nonEmpty ty = true -> nonEmpty key = true ->
  extractDrm props = Ok d ->
  exists c, d = Some c /\ drm_type c = ty
            /\ licenseUrl c = List.hd [] (split PIPE key).
Proof.
  intros Ht Hk Hty Hkey. unfold extractDrm. rewrite Ht, Hk, Hty, Hkey.
  cbn [andb]. unfold includes.
  destruct (Z.eqb_spec (indexOf key PIPE) (-1)) as [E|E]; cbn [negb].
  - intros [= <-]. eexists. split; [reflexivity|]. split; [reflexivity|].
    cbn [licenseUrl]. rewrite split_no_sep; [reflexivity|].
    exact (indexOf_none key PIPE E).
  - intros H. apply bind_Ok in H as (hs & _ & [= <-]).
    eexists. repeat split.
Qed.

Lemma extractDrm_absent (props : gmap jsstring jsstring)
    (d : option DrmConfig) :
  (props !! LICENSE_TYPE = None \/ props !! LICENSE_TYPE = Some []
   \/ props !! LICENSE_KEY = None \/ props !! LICENSE_KEY = Some []) ->
  extractDrm props = Ok d -> d = None.
Proof.
  unfold extractDrm. intros [H|[H|[H|H]]]; rewrite H.
  - intros [= <-]. reflexivity.
  - destruct (props !! LICENSE_KEY); intros [= <-]; reflexivity.
  - destruct (props !! LICENSE_TYPE); intros [= <-]; reflexivity.
  - destruct (props !! LICENSE_TYPE) as [ty|]; [|intros [= <-]; reflexivity].
    rewrite andb_false_r. intros [= <-]. reflexivity.
Qed.

End PropertyLines.

Section ChannelBlocks.
Import JS Parser.
Variable now : nat -> N.

Lemma pendingProps_none (block : list jsstring) :
  Forall (fun l => isProperty l = false) block -> pendingProps block = ∅.
Proof.
  unfold pendingProps. generalize (∅ : gmap jsstring jsstring).
  intros m H. revert m.
  induction H as [|l block Hl _ IH]; intros m; simpl; [reflexivity|].
  rewrite Hl. apply IH.
Qed.

Lemma pendingChannel_none (block : list jsstring) :
  Forall (fun l => isMetadata l = false) block ->
  pendingChannel block = emptyPartial.
Proof.
  unfold pendingChannel. generalize emptyPartial.
  intros m H. revert m.
  induction H as [|l block Hl _ IH]; intros m; simpl; [reflexivity|].
  rewrite Hl. apply IH.
Qed.

Lemma pendingChannel_last (m1 : list jsstring) (e : jsstring)
    (m2 : list jsstring) :
  isMetadata e = true -> Forall (fun l => isMetadata l = false) m2 ->
  pendingChannel (m1 ++ e :: m2)
  = extinfChannel (substringFrom (trim e) 8).
Proof.
  intros He Hm2. unfold pendingChannel. rewrite fold_left_app.
  cbn [fold_left]. rewrite He.
  generalize (extinfChannel (substringFrom (trim e) 8)).
  induction Hm2 as [|l block Hl _ IH]; intros m; cbn [fold_left];
    [reflexivity|].
  rewrite Hl. apply IH.
Qed.

Lemma extinfName_after_comma (a b : jsstring) :
  COMMA ∉ b -> extinfName (a ++ COMMA :: b) = trim b.
Proof.
  intros Hb. unfold extinfName. rewrite split_last, (split_no_sep _ _ Hb).
  reflexivity.
Qed.

(** C6.  The channel of a URL line takes its properties from the
    [#KODIPROP] lines between the previous URL line and itself, and from
    no earlier line.  What a line of that block declares for a key, no
    later line of the block declaring the key again, is what the channel
    gets: its user agent and its referrer for the keys [http-user-agent]
    and [http-referrer], the type of its DRM configuration for the key
    of the license type and the license URL for the key of the license
    key (the two being declared and not empty).  The channel has no DRM
    configuration when one of the two is missing or empty, and with no
    property line in the block it has none, no user agent and no
    referrer, whatever the lines before the block declare. *)
Theorem kodiprop_next_url_only (content : jsstring) (pre mid : list jsstring)
    (u : jsstring) (post : list jsstring) (r : Parsed) :
  split LF content = pre ++ mid ++ u :: post ->
  completed pre ->
  Forall (fun l => isUrl l = false) mid ->
  isUrl u = true ->
  parseM3U now content = Ok r ->
  exists c,
    parsed_channels r !! countUrls pre = Some c
    /\ url c = trim u
    /\ extractDrm (pendingProps mid) = Ok (drm c)
    /\ userAgent c = pendingProps mid !! USER_AGENT
    /\ referrer c = pendingProps mid !! REFERRER
    /\ (forall a l b k v,
          mid = a ++ l :: b -> declares l k v -> k <> protoKey ->
          Forall (fun l' => forall v', ~ declares l' k v') b ->
          pendingProps mid !! k = Some v
          /\ (k = USER_AGENT -> userAgent c = Some v)
          /\ (k = REFERRER -> referrer c = Some v))
    /\ (forall ty key,
          pendingProps mid !! LICENSE_TYPE = Some ty ->
          pendingProps mid !! LICENSE_KEY = Some key ->
          nonEmpty ty = true -> nonEmpty key = true ->
          exists d, drm c = Some d /\ drm_type d = ty
                    /\ licenseUrl d = List.hd [] (split PIPE key))
    /\ (pendingProps mid !! LICENSE_TYPE = None
        \/ pendingProps mid !! LICENSE_TYPE = Some []
        \/ pendingProps mid !! LICENSE_KEY = None
        \/ pendingProps mid !! LICENSE_KEY = Some [] ->
        drm c = None)
    /\ (Forall (fun l => isProperty l = false) mid ->
        drm c = None /\ userAgent c = None /\ referrer c = None).
Proof.
  intros Hs Hc Hmid Hu Hp.
  destruct (parse_block now content pre mid u post r Hs Hc Hmid Hu Hp)
    as (d & Hd & Hl).
  eexists. split; [exact Hl|]. cbn [url drm userAgent referrer makeChannel].
  split; [reflexivity|]. split; [exact Hd|].
  split; [reflexivity|]. split; [reflexivity|].
  split; [|split; [|split]].
  - intros a l b k v -> Hdecl Hk Hb.
    pose proof (pendingProps_declared a b l k v Hdecl Hk Hb) as Hv.
    split; [exact Hv|]. split; intros ->; exact Hv.
  - intros ty key Ht Hk Hty Hkey.
    exact (extractDrm_present _ ty key d Ht Hk Hty Hkey Hd).
  - intros H. exact (extractDrm_absent _ d H Hd).
  - intros Hn. rewrite (pendingProps_none mid Hn) in *.
    rewrite !lookup_empty. split; [|split; reflexivity].
    unfold extractDrm in Hd. rewrite !lookup_empty in Hd. congruence.
Qed.

(** C4, amended.  A channel whose block has no [#EXTINF] line is called
    [Channel N], [N] its one-based position in the output.  A channel
    whose block has one takes the name of the last: the text after the
    final comma, trimmed, and [Unknown Channel] when that text is
    empty. *)
Theorem channel_name_fallbacks (content : jsstring) (pre mid : list jsstring)
    (u : jsstring) (post : list jsstring) (r : Parsed) :
  split LF content = pre ++ mid ++ u :: post ->
  completed pre ->
  Forall (fun l => isUrl l = false) mid ->
  isUrl u = true ->
  parseM3U now content = Ok r ->
  exists c,
    parsed_channels r !! countUrls pre = Some c
    /\ (Forall (fun l => isMetadata l = false) mid ->
        name c = js "Channel " ++ ofNat (countUrls pre + 1))
    /\ (forall m1 e m2,
          mid = m1 ++ e :: m2 -> isMetadata e = true ->
          Forall (fun l => isMetadata l = false) m2 ->
          (name c = if nonEmpty (extinfName (substringFrom (trim e) 8))
                    then extinfName (substringFrom (trim e) 8)
                    else js "Unknown Channel")
          /\ forall a b,
               substringFrom (trim e) 8 = a ++ COMMA :: b -> COMMA ∉ b ->
               name c = if nonEmpty (trim b) then trim b
                        else js "Unknown Channel").
Proof.
  intros Hs Hc Hmid Hu Hp.
  destruct (parse_block now content pre mid u post r Hs Hc Hmid Hu Hp)
    as (d & Hd & Hl).
  eexists. split; [exact Hl|]. cbn [name makeChannel]. split.
  - intros Hn. rewrite (pendingChannel_none mid Hn). reflexivity.
  - intros m1 e m2 -> He Hm2. rewrite (pendingChannel_last m1 e m2 He Hm2).
    assert (Hname :
      orElse (p_name (extinfChannel (substringFrom (trim e) 8)))
             (js "Channel " ++ ofNat (countUrls pre + 1))
      = if nonEmpty (extinfName (substringFrom (trim e) 8))
        then extinfName (substringFrom (trim e) 8)
        else js "Unknown Channel").
    { unfold extinfChannel. cbn [p_name orElse].
      destruct (nonEmpty (extinfName (substringFrom (trim e) 8))) eqn:E.
      - rewrite E. reflexivity.
      - reflexivity. }
    split; [exact Hname|].
    intros a b Hab Hb. rewrite Hname, Hab, (extinfName_after_comma a b Hb).
    reflexivity.
Qed.

End ChannelBlocks.

(** ** Concrete playlists *)

Section Playlists.
Import JS Parser.

Lemma twoChannels_lines :
  split LF Sample.twoChannels
  = (Sample.drmBlock ++ [Sample.firstUrl]) ++ Sample.newsBlock
    ++ Sample.secondUrl :: [].
Proof. vm_compute. reflexivity. Qed.

Lemma twoChannels_first :
  split LF Sample.twoChannels
  = [] ++ Sample.drmBlock
    ++ Sample.firstUrl :: Sample.newsBlock ++ [Sample.secondUrl].
Proof. vm_compute. reflexivity. Qed.

Lemma twoChannels_completed :
  completed (Sample.drmBlock ++ [Sample.firstUrl]).
Proof. right. eexists _, _. split; reflexivity. Qed.

(** An instance of C3. *)
Lemma categories_sorted_groups_witness :
  match parseM3U Sample.clock Sample.twoChannels with
  | Ok r =>
      exists names,
        parsed_categories r
        = {| cat_id := js "all"; cat_name := js "All Channels" |}
          :: imap (fun idx cat => {| cat_id := js "cat-" ++ ofNat idx;
                                     cat_name := cat |}) names
        /\ increasing names
        /\ forall g, g ∈ names
                     <-> (exists c, c ∈ parsed_channels r /\ group c = Some g)
                         \/ g ∈ declaredGroups (split LF Sample.twoChannels)
  | Throw _ => False
  end.
Proof.
  destruct (parseM3U Sample.clock Sample.twoChannels) as [r|] eqn:E.
  - exact (categories_sorted_groups Sample.clock Sample.twoChannels r E).
  - vm_compute in E. discriminate.
Defined.

Lemma drmBlock_type :
  declares (js "#KODIPROP:inputstream.adaptive.license_type=com.widevine.alpha")
           LICENSE_TYPE (js "com.widevine.alpha").
Proof.
  exists LICENSE_TYPE, (js "com.widevine.alpha").
  split; [vm_compute; reflexivity|].
  split; [apply (bool_decide_unpack _); vm_compute; reflexivity|].
  split; vm_compute; reflexivity.
Qed.

Lemma drmBlock_key :
  declares (js "#KODIPROP:inputstream.adaptive.license_key=https://lic.example/x|Header1=aaa&Header2=b%20b")
           LICENSE_KEY (js "https://lic.example/x|Header1=aaa&Header2=b%20b").
Proof.
  exists LICENSE_KEY, (js "https://lic.example/x|Header1=aaa&Header2=b%20b").
  split; [vm_compute; reflexivity|].
  split; [apply (bool_decide_unpack _); vm_compute; reflexivity|].
  split; vm_compute; reflexivity.
Qed.

(** The type line is followed by the key line, which declares another
    key. *)
Lemma drmBlock_type_last :
  Forall (fun l' => forall v', ~ declares l' LICENSE_TYPE v')
    [js "#KODIPROP:inputstream.adaptive.license_key=https://lic.example/x|Header1=aaa&Header2=b%20b"].
Proof.
  constructor; [|constructor].
  intros v' (k0 & v0 & Hl & Hk & Ht & _).
  set (line := js "#KODIPROP:inputstream.adaptive.license_key=https://lic.example/x|Header1=aaa&Header2=b%20b") in *.
  assert (Hi : indexOf (substringFrom (trim line) 10) EQUALS
               = Z.of_nat (length k0)).
  { rewrite Hl. change (substringFrom (KODIPROP ++ k0 ++ EQUALS :: v0) 10)
      with (k0 ++ EQUALS :: v0). apply indexOf_first, Hk. }
  assert (Hv : indexOf (substringFrom (trim line) 10) EQUALS = 32%Z)
    by (vm_compute; reflexivity).
  assert (Hlen : length k0 = 32%nat) by lia.
  assert (Hk0 : k0 = take 32 (drop 10 (trim line))).
  { rewrite Hl.
    change (drop 10 (KODIPROP ++ k0 ++ EQUALS :: v0))
      with (k0 ++ EQUALS :: v0).
    rewrite <- Hlen, take_app_length. reflexivity. }
  rewrite Hk0 in Ht.
  apply (f_equal (fun s => bool_decide (s = LICENSE_TYPE))) in Ht.
  vm_compute in Ht. discriminate Ht.
Qed.

(** An instance of C6: the first channel gets the DRM type and the
    license URL its block declares, the second channel, with no
    property line of its own, gets none. *)
Lemma kodiprop_next_url_only_witness :
  match parseM3U Sample.clock Sample.twoChannels with
  | Ok r =>
      (exists c, parsed_channels r !! 1%nat = Some c /\ drm c = None)
      /\ (exists c d,
            parsed_channels r !! 0%nat = Some c /\ drm c = Some d
            /\ drm_type d = js "com.widevine.alpha"
            /\ licenseUrl d = js "https://lic.example/x")
  | Throw _ => False
  end.
Proof.
  destruct (parseM3U Sample.clock Sample.twoChannels) as [r|] eqn:E;
    [|vm_compute in E; discriminate].
  split.
  - destruct (kodiprop_next_url_only Sample.clock Sample.twoChannels
                (Sample.drmBlock ++ [Sample.firstUrl]) Sample.newsBlock
                Sample.secondUrl [] r)
      as (c & Hc & _ & _ & _ & _ & _ & _ & _ & Hnone).
    + exact twoChannels_lines.
    + exact twoChannels_completed.
    + repeat constructor.
    + reflexivity.
    + exact E.
    + exists c. split; [exact Hc|]. apply Hnone. repeat constructor.
  - destruct (kodiprop_next_url_only Sample.clock Sample.twoChannels
                [] Sample.drmBlock Sample.firstUrl
                (Sample.newsBlock ++ [Sample.secondUrl]) r)
      as (c & Hc & _ & _ & _ & _ & Hline & Hdrm & _).
    + exact twoChannels_first.
    + left. reflexivity.
    + repeat constructor.
    + reflexivity.
    + exact E.
    + destruct (Hline [js "#EXTM3U"] _ _ LICENSE_TYPE _ eq_refl drmBlock_type)
        as [Hty _].
      { vm_compute. discriminate. }
      { exact drmBlock_type_last. }
      destruct (Hline [js "#EXTM3U"; js "#KODIPROP:inputstream.adaptive.license_type=com.widevine.alpha"]
                      _ [] LICENSE_KEY _ eq_refl drmBlock_key)
        as [Hkey _].
      { vm_compute. discriminate. }
      { constructor. }
      destruct (Hdrm _ _ Hty Hkey eq_refl eq_refl) as (d & Hd & Ht & Hu).
      exists c, d. split; [exact Hc|]. split; [exact Hd|].
      split; [exact Ht|]. rewrite Hu. vm_compute. reflexivity.
Defined.

(** An instance of C4 as amended: [Channel 1] without metadata,
    [Unknown Channel] after an [#EXTINF] line with an empty name. *)
Lemma channel_name_fallbacks_witness :
  match parseM3U Sample.clock Sample.twoChannels with
  | Ok r =>
      (exists c, parsed_channels r !! 0%nat = Some c
                 /\ name c = js "Channel 1")
      /\ (exists c, parsed_channels r !! 1%nat = Some c
                    /\ name c = js "Unknown Channel")
  | Throw _ => False
  end.
Proof.
  destruct (parseM3U Sample.clock Sample.twoChannels) as [r|] eqn:E;
    [|vm_compute in E; discriminate].
  split.
  - destruct (channel_name_fallbacks Sample.clock Sample.twoChannels
                [] Sample.drmBlock Sample.firstUrl
                (Sample.newsBlock ++ [Sample.secondUrl]) r)
      as (c & Hc & Hdefault & _).
    + exact twoChannels_first.
    + left. reflexivity.
    + repeat constructor.
    + reflexivity.
    + exact E.
    + exists c. split; [exact Hc|]. apply Hdefault. repeat constructor.
  - destruct (channel_name_fallbacks Sample.clock Sample.twoChannels
                (Sample.drmBlock ++ [Sample.firstUrl]) Sample.newsBlock
                Sample.secondUrl [] r)
      as (c & Hc & _ & Hlast).
    + exact twoChannels_lines.
    + exact twoChannels_completed.
    + repeat constructor.
    + reflexivity.
    + exact E.
    + exists c. split; [exact Hc|].
      destruct (Hlast [] (js "#EXTINF:-1 group-title=" ++ quoted (js "News")
                          ++ js ",") [] eq_refl eq_refl
                         ltac:(constructor))
        as [_ Hcomma].
      apply (Hcomma (js "-1 group-title=" ++ quoted (js "News")) []).
      * reflexivity.
      * apply not_elem_of_nil.
Defined.

(** The input that refutes C4 as stated: after an [#EXTINF] line whose
    text after the final comma is empty, the channel is called
    [Unknown Channel], not [Channel 1]. *)
Lemma defaultNumbered_fails :
  ~ defaultNumbered Sample.clock
      (unlines [js "#EXTINF:-1,"; js "http://example.com/a.m3u8"]).
Proof.
  intros H.
  destruct (H [] [js "#EXTINF:-1,"] (js "http://example.com/a.m3u8") [] _
              eq_refl (or_introl eq_refl)
              ltac:(repeat constructor) eq_refl eq_refl eq_refl)
    as (c & Hc & Hn).
  vm_compute in Hc. injection Hc as <-. vm_compute in Hn. discriminate.
Qed.

End Playlists.

(** ** DRM extraction *)

Section Drm.
Import JS Parser.
Variable now : nat -> N.

Lemma headerPairs_empty : headerPairs ∅ (split AMP []) = Ok ∅.
Proof. reflexivity. Qed.

Lemma elem_of_app_sep (c : N) (a b : jsstring) : c ∈ a ++ c :: b.
Proof. apply elem_of_app. right. apply elem_of_cons. left. reflexivity. Qed.

Lemma not_elem_of_pipe (s : jsstring) : includes s PIPE = false -> PIPE ∉ s.
Proof. intros H Hin. apply includes_elem_of in Hin. congruence. Qed.

(** The DRM block on a license key with a pipe: the first part is the
    URL, the second the header section. *)
Lemma extractDrm_pipe (props : gmap jsstring jsstring)
    (ty a h : jsstring) (parts : list jsstring) :
  props !! LICENSE_TYPE = Some ty ->
  nonEmpty ty = true ->
  PIPE ∉ a -> PIPE ∉ h ->
  (parts = [] \/ exists rest, parts = [PIPE :: rest]) ->
  props !! LICENSE_KEY = Some (a ++ PIPE :: h ++ concat parts) ->
  extractDrm props
  = attempt hs <- headerPairs ∅ (split AMP h);
    Ok (Some {| drm_type := ty; licenseUrl := a; headers := Some hs |}).
Proof.
  intros Hty Hne Ha Hh Hparts Hkey. unfold extractDrm. rewrite Hty, Hkey, Hne.
  assert (Hk : nonEmpty (a ++ PIPE :: h ++ concat parts) = true)
    by (destruct a; reflexivity).
  rewrite Hk. cbn [andb].
  assert (Hi : includes (a ++ PIPE :: h ++ concat parts) PIPE = true)
    by (apply includes_elem_of, elem_of_app_sep).
  rewrite Hi, (split_app_sep _ _ _ Ha). cbn [List.hd lookup list_lookup].
  assert (Hs : exists ps, split PIPE (h ++ concat parts) = h :: ps).
  { destruct Hparts as [->|(rest & ->)].
    - simpl. rewrite app_nil_r, (split_no_sep _ _ Hh). eauto.
    - simpl. rewrite app_nil_r, (split_app_sep _ _ _ Hh). eauto. }
  destruct Hs as (ps & ->).
  destruct h as [|x h]; [reflexivity|]. reflexivity.
Qed.

(** C5, amended.  For a channel whose pending properties carry a
    non-empty license type and a non-empty license key, the DRM
    configuration has that type; its license URL is the text before the
    first pipe of the key (the whole key when it has no pipe); its
    headers are the pairs of the text between the first pipe and the
    second, or the end of the key when there is no second pipe, split on
    [&] and on [=], values URL-decoded; what follows a second pipe is
    ignored.  [https://lic.example/x|Header1=aaa&Header2=b%20b] gives the
    URL [https://lic.example/x] and the headers Header1: aaa,
    Header2: b b. *)
Theorem license_key_fields (content : jsstring) (pre mid : list jsstring)
    (u : jsstring) (post : list jsstring) (r : Parsed) (ty key : jsstring) :
  split LF content = pre ++ mid ++ u :: post ->
  completed pre ->
  Forall (fun l => isUrl l = false) mid ->
  isUrl u = true ->
  parseM3U now content = Ok r ->
  pendingProps mid !! LICENSE_TYPE = Some ty ->
  pendingProps mid !! LICENSE_KEY = Some key ->
  nonEmpty ty = true -> nonEmpty key = true ->
  (exists c d,
     parsed_channels r !! countUrls pre = Some c
     /\ drm c = Some d
     /\ drm_type d = ty
     /\ (PIPE ∉ key -> licenseUrl d = key /\ headers d = Some ∅)
     /\ (forall a h,
           key = a ++ PIPE :: h -> PIPE ∉ a -> PIPE ∉ h ->
           licenseUrl d = a
           /\ exists hs, headers d = Some hs
                         /\ headerPairs ∅ (split AMP h) = Ok hs)
     /\ (forall a h rest,
           key = a ++ PIPE :: h ++ PIPE :: rest -> PIPE ∉ a -> PIPE ∉ h ->
           licenseUrl d = a
           /\ exists hs, headers d = Some hs
                         /\ headerPairs ∅ (split AMP h) = Ok hs))
  /\ match parseM3U now Sample.twoChannels with
     | Ok r0 =>
         drm <$> (parsed_channels r0 !! 0%nat)
         = Some (Some {| drm_type := js "com.widevine.alpha";
                         licenseUrl := js "https://lic.example/x";
                         headers := Some {[ (js "Header1") := (js "aaa");
                                            (js "Header2") := (js "b b") ]} |})
     | Throw _ => False
     end.
Proof.
  intros Hs Hc Hmid Hu Hp Hty Hkey Hnty Hnkey.
  split; [|vm_compute; reflexivity].
  destruct (parse_block now content pre mid u post r Hs Hc Hmid Hu Hp)
    as (d0 & Hd & Hl).
  assert (Hpipe : forall a h parts,
             key = a ++ PIPE :: h ++ concat parts -> PIPE ∉ a -> PIPE ∉ h ->
             (parts = [] \/ exists rest, parts = [PIPE :: rest]) ->
             exists hs, d0 = Some {| drm_type := ty; licenseUrl := a;
                                     headers := Some hs |}
                        /\ headerPairs ∅ (split AMP h) = Ok hs).
  { intros a h parts -> Ha Hh Hparts.
    rewrite (extractDrm_pipe _ ty a h parts Hty Hnty Ha Hh Hparts Hkey) in Hd.
    apply bind_Ok in Hd as (hs & Hhs & Hd). injection Hd as <-. eauto. }
  destruct (decide (PIPE ∈ key)) as [Hin|Hnin].
  - apply list_elem_of_split_l in Hin as (a & rest & -> & Ha).
    assert (Hrest : exists h parts,
               rest = h ++ concat parts /\ (PIPE ∉ h)
               /\ (parts = [] \/ exists rest', parts = [PIPE :: rest'])).
    { destruct (decide (PIPE ∈ rest)) as [Hin|Hnin].
      - apply list_elem_of_split_l in Hin as (h & rest' & -> & Hh).
        exists h, [PIPE :: rest']. simpl. rewrite app_nil_r. eauto.
      - exists rest, []. simpl. rewrite app_nil_r. auto. }
    destruct Hrest as (h & parts & -> & Hh & Hparts).
    destruct (Hpipe a h parts eq_refl Ha Hh Hparts) as (hs & -> & Hhs).
    eexists _, _. split; [exact Hl|]. cbn [drm makeChannel].
    split; [reflexivity|]. cbn [drm_type licenseUrl headers].
    split; [reflexivity|]. split; [|split].
    + intros Hn. exfalso. apply Hn, elem_of_app_sep.
    + intros a' h' E Ha' Hh'.
      destruct (Hpipe a' h' [] ltac:(simpl; rewrite app_nil_r; exact E)
                  Ha' Hh' (or_introl eq_refl)) as (hs' & E' & Hhs').
      injection E' as <- <-. eauto.
    + intros a' h' rest' E Ha' Hh'.
      destruct (Hpipe a' h' [PIPE :: rest']
                  ltac:(simpl; rewrite app_nil_r; exact E)
                  Ha' Hh' (or_intror (ex_intro _ rest' eq_refl)))
        as (hs' & E' & Hhs').
      injection E' as <- <-. eauto.
  - assert (Hi : includes key PIPE = false).
    { destruct (includes key PIPE) eqn:E; [|reflexivity].
      apply includes_elem_of in E. contradiction. }
    unfold extractDrm in Hd. rewrite Hty, Hkey, Hnty, Hnkey, Hi in Hd.
    injection Hd as <-.
    eexists _, _. split; [exact Hl|]. cbn [drm makeChannel].
    split; [reflexivity|]. cbn [drm_type licenseUrl headers].
    split; [reflexivity|]. split; [auto|split].
    + intros a h -> _ _. exfalso. apply Hnin, elem_of_app_sep.
    + intros a h rest -> _ _. exfalso. apply Hnin, elem_of_app_sep.
Qed.

End Drm.

Section DrmInstances.
Import JS Parser.

(** An instance of C5 as amended: what follows the second pipe of the
    key is ignored. *)
Lemma license_key_fields_witness :
  match parseM3U Sample.clock Sample.kodiPlaylist with
  | Ok r =>
      exists c d hs,
        parsed_channels r !! 0%nat = Some c /\ drm c = Some d
        /\ licenseUrl d = js "https://lic.example/x"
        /\ headers d = Some hs
        /\ headerPairs ∅ (split AMP (js "A=1")) = Ok hs
  | Throw _ => False
  end.
Proof.
  destruct (parseM3U Sample.clock Sample.kodiPlaylist) as [r|] eqn:E;
    [|vm_compute in E; discriminate].
  destruct (license_key_fields Sample.clock Sample.kodiPlaylist [] Sample.kodiBlock
              Sample.firstUrl [] r (js "com.widevine.alpha") Sample.kodiKey)
    as [(c & d & Hc & Hd & _ & _ & _ & Hsecond) _].
  - vm_compute. reflexivity.
  - left. reflexivity.
  - repeat constructor.
  - reflexivity.
  - exact E.
  - vm_compute. reflexivity.
  - vm_compute. reflexivity.
  - reflexivity.
  - reflexivity.
  - destruct (Hsecond (js "https://lic.example/x") (js "A=1") (js "B"))
      as (Hu & hs & Hh & Hhs).
    + reflexivity.
    + apply not_elem_of_pipe. reflexivity.
    + apply not_elem_of_pipe. reflexivity.
    + exists c, d, hs. auto.
Defined.


(** The input that refutes C5 as stated: cut at the first pipe, the
    header section of [https://lic.example/x|A=1|B] would be [A=1|B];
    the parser takes [A=1]. *)
Lemma licenseKeyCutAtFirstPipe_fails :
  ~ licenseKeyCutAtFirstPipe Sample.clock Sample.kodiPlaylist.
Proof.
  intros H.
  destruct (parseM3U Sample.clock Sample.kodiPlaylist) as [r|] eqn:E;
    [|vm_compute in E; discriminate].
  destruct (H [] Sample.kodiBlock Sample.firstUrl [] r
              (js "com.widevine.alpha") Sample.kodiKey)
    as (c & d & Hc & Hd & Hspec).
  - vm_compute. reflexivity.
  - left. reflexivity.
  - repeat constructor.
  - vm_compute. reflexivity.
  - exact E.
  - vm_compute. reflexivity.
  - vm_compute. reflexivity.
  - vm_compute in E. injection E as <-.
    vm_compute in Hc. injection Hc as <-.
    vm_compute in Hd. injection Hd as <-.
    vm_compute in Hspec. discriminate.
Qed.

End DrmInstances.

(** ** Header pairs *)

Section Headers.
Import JS Parser.

Lemma headerPair_kept (hs : gmap jsstring jsstring) (h : jsstring) :
  headerPair hs h
  = match keptPair h with
    | Some (k, v) => attempt d <- decodeURIComponent v; Ok (objSet k d hs)
    | None => Ok hs
    end.
Proof.
  unfold headerPair, keptPair.
  destruct (split EQUALS h !! 0%nat) as [k|]; [|reflexivity].
  destruct (split EQUALS h !! 1%nat) as [v|]; [|reflexivity].
  destruct (nonEmpty k && nonEmpty v); reflexivity.
Qed.

Lemma headerPairs_snoc (hs : gmap jsstring jsstring) (l : list jsstring)
    (h : jsstring) :
  headerPairs hs (l ++ [h])
  = attempt hs' <- headerPairs hs l; headerPair hs' h.
Proof.
  revert hs. induction l as [|x l IH]; intros hs; simpl.
  - destruct (headerPair hs h); reflexivity.
  - destruct (headerPair hs x) as [hs1|]; simpl; [apply IH|reflexivity].
Qed.

(** A pair without an equals sign, without a name or without a value is
    not kept; the value of a kept pair stops at a second equals sign. *)
Lemma keptPair_bare (h : jsstring) : EQUALS ∉ h -> keptPair h = None.
Proof.
  intros H. unfold keptPair. rewrite (split_no_sep _ _ H). reflexivity.
Qed.

Lemma keptPair_name_value (k v : jsstring) (tail : list jsstring) :
  EQUALS ∉ k -> EQUALS ∉ v ->
  (tail = [] \/ exists junk, tail = [EQUALS :: junk]) ->
  keptPair (k ++ EQUALS :: v ++ concat tail)
  = if nonEmpty k && nonEmpty v then Some (k, v) else None.
Proof.
  intros Hk Hv Ht. unfold keptPair. rewrite (split_app_sep _ _ _ Hk).
  cbn [lookup list_lookup].
  destruct Ht as [->|(junk & ->)]; simpl concat; rewrite app_nil_r.
  - rewrite (split_no_sep _ _ Hv). reflexivity.
  - rewrite (split_app_sep _ _ _ Hv). reflexivity.
Qed.

Lemma snoc_split {A} (l : list A) (h : A) (l1 : list A) (x : A)
    (l2 : list A) :
  l ++ [h] = l1 ++ x :: l2 ->
  (l2 = [] /\ x = h /\ l1 = l)
  \/ exists l2', l2 = l2' ++ [h] /\ l = l1 ++ x :: l2'.
Proof.
  intros E. destruct l2 as [|y l2 _] using rev_ind.
  - left. apply app_inj_tail in E as [-> ->]. auto.
  - right. exists l2.
    change (l1 ++ x :: l2 ++ [y]) with (l1 ++ (x :: l2) ++ [y]) in E.
    rewrite app_assoc in E. apply app_inj_tail in E as [-> ->]. auto.
Qed.

(** The headers of a header section: a name is bound exactly when it is
    not [__proto__] and some kept pair carries it, and it is bound to
    the decoded value of the last such pair. *)
Lemma headerPairs_lookup (l : list jsstring) (hs : gmap jsstring jsstring) :
  headerPairs ∅ l = Ok hs ->
  forall k d,
    hs !! k = Some d
    <-> k <> protoKey
        /\ exists l1 h l2 v,
             l = l1 ++ h :: l2
             /\ keptPair h = Some (k, v)
             /\ decodeURIComponent v = Ok d
             /\ Forall (fun h' => forall v', keptPair h' <> Some (k, v')) l2.
Proof.
  revert hs. induction l as [|h l IH] using rev_ind; intros hs H k d.
  - injection H as <-. rewrite lookup_empty. split; [discriminate|].
    intros (_ & l1 & h & l2 & v & E & _). destruct l1; discriminate.
  - rewrite headerPairs_snoc in H. apply bind_Ok in H as (hs' & Hl & Hh).
    specialize (IH hs' Hl k d). rewrite headerPair_kept in Hh.
    destruct (keptPair h) as [[k0 v0]|] eqn:Ek.
    + apply bind_Ok in Hh as (d0 & Hd0 & Hh). injection Hh as <-.
      rewrite objSet_lookup.
      destruct (decide (k0 = k /\ k0 <> protoKey)) as [[-> Hp]|Hn].
      * split.
        -- intros [= <-]. split; [exact Hp|].
           exists l, h, [], v0. repeat split; auto.
        -- intros (_ & l1 & x & l2 & v & E & Hx & Hv & Hlast).
           apply snoc_split in E as [(-> & -> & ->)|(l2' & -> & ->)].
           ++ congruence.
           ++ apply Forall_app in Hlast as [_ Hlast].
              apply Forall_cons in Hlast as [Hlast _].
              exfalso. exact (Hlast v0 Ek).
      * rewrite IH. split.
        -- intros (Hp & l1 & x & l2 & v & -> & Hx & Hv & Hlast).
           split; [exact Hp|].
           exists l1, x, (l2 ++ [h]), v. rewrite <- app_assoc.
           repeat split; auto.
           apply Forall_app. split; [exact Hlast|].
           constructor; [|constructor].
           intros v' E. rewrite Ek in E. injection E as -> ->.
           apply Hn. auto.
        -- intros (Hp & l1 & x & l2 & v & E & Hx & Hv & Hlast).
           split; [exact Hp|].
           apply snoc_split in E as [(-> & -> & ->)|(l2' & -> & ->)].
           ++ rewrite Ek in Hx. injection Hx as -> ->. exfalso. apply Hn. auto.
           ++ apply Forall_app in Hlast as [Hlast _].
              exists l1, x, l2', v. auto.
    + injection Hh as <-. rewrite IH. split.
      * intros (Hp & l1 & x & l2 & v & -> & Hx & Hv & Hlast).
        split; [exact Hp|].
        exists l1, x, (l2 ++ [h]), v. rewrite <- app_assoc.
        repeat split; auto.
        apply Forall_app. split; [exact Hlast|].
        constructor; [|constructor]. intros v'. rewrite Ek. discriminate.
      * intros (Hp & l1 & x & l2 & v & E & Hx & Hv & Hlast).
        split; [exact Hp|].
        apply snoc_split in E as [(-> & -> & ->)|(l2' & -> & ->)].
        -- congruence.
        -- apply Forall_app in Hlast as [Hlast _].
           exists l1, x, l2', v. auto.
Qed.

(** A DRM configuration always carries a headers mapping. *)
Lemma extractDrm_headers (props : gmap jsstring jsstring) (d : DrmConfig) :
  extractDrm props = Ok (Some d) -> is_Some (headers d).
Proof.
  unfold extractDrm. intros H.
  destruct (props !! LICENSE_TYPE) as [ty|]; [|discriminate].
  destruct (props !! LICENSE_KEY) as [key|]; [|discriminate].
  destruct (nonEmpty ty && nonEmpty key); [|discriminate].
  destruct (includes key PIPE).
  - apply bind_Ok in H as (hs & _ & H). injection H as <-. simpl. eauto.
  - injection H as <-. simpl. eauto.
Qed.

(** C10, at the input where the code departs from it.  Of the header
    pairs [Header1=aaa], [bare], [=v], [k=], [a=b=c] and [__proto__=abc]
    the parser keeps Header1: aaa and a: b, as claimed; the pair named
    [__proto__] has a non-empty name and a non-empty value and is not
    stored. *)
Theorem proto_header_pair_not_stored :
  match parseM3U Sample.clock Sample.oddHeaders with
  | Ok r =>
      exists c d hs,
        parsed_channels r !! 0%nat = Some c
        /\ drm c = Some d
        /\ headers d = Some hs
        /\ hs = {[ (js "Header1") := (js "aaa"); (js "a") := (js "b") ]}
        /\ keptPair (js "__proto__=abc") = Some (js "__proto__", js "abc")
        /\ hs !! js "__proto__" = None
  | Throw _ => False
  end.
Proof.
  vm_compute. eexists _, _, _. repeat split; reflexivity.
Qed.

End Headers.

(** ** Backend selection *)

Section CleanUrl.
Import JS Player.

Lemma isWhiteSpace_upperAscii (c : N) :
  isWhiteSpace (upperAscii c) = isWhiteSpace c.
Proof.
  unfold upperAscii.
  destruct ((97 <=? c) && (c <=? 122)) eqn:E; [|reflexivity].
  apply andb_prop in E as [E1 E2]. apply N.leb_le in E1, E2.
  transitivity false; [|symmetry]; unfold isWhiteSpace;
    repeat (apply orb_false_intro);
    first [ apply N.eqb_neq; lia
          | apply andb_false_iff; right; apply N.leb_gt; lia
          | apply andb_false_iff; left; apply N.leb_gt; lia ].
Qed.

Lemma toLowerUnit_upperAscii (c : N) :
  toLowerUnit (upperAscii c) = toLowerUnit c.
Proof.
  unfold upperAscii.
  destruct ((97 <=? c) && (c <=? 122)) eqn:E; [|reflexivity].
  apply andb_prop in E as [E1 E2]. apply N.leb_le in E1, E2.
  unfold toLowerUnit.
  replace ((65 <=? c - 32) && (c - 32 <=? 90)) with true
    by (symmetry; apply andb_true_intro; split; apply N.leb_le; lia).
  replace ((65 <=? c) && (c <=? 90)) with false
    by (symmetry; apply andb_false_iff; right; apply N.leb_gt; lia).
  replace ((192 <=? c) && (c <=? 222)) with false
    by (symmetry; apply andb_false_iff; left; apply N.leb_gt; lia).
  simpl. lia.
Qed.

Lemma upperAscii_qmark (c : N) : (upperAscii c =? QMARK) = (c =? QMARK).
Proof.
  unfold upperAscii, QMARK.
  destruct ((97 <=? c) && (c <=? 122)) eqn:E; [|reflexivity].
  apply andb_prop in E as [E1 E2]. apply N.leb_le in E1, E2.
  transitivity false; [|symmetry]; apply N.eqb_neq; lia.
Qed.

Lemma trimStart_map (s : jsstring) :
  trimStart (map upperAscii s) = map upperAscii (trimStart s).
Proof.
  induction s as [|c s IH]; [reflexivity|]. simpl.
  rewrite isWhiteSpace_upperAscii. destruct (isWhiteSpace c); [exact IH|].
  reflexivity.
Qed.

Lemma trim_map (s : jsstring) :
  trim (map upperAscii s) = map upperAscii (trim s).
Proof.
  unfold trim, trimEnd.
  rewrite trimStart_map, <- map_rev, trimStart_map, map_rev. reflexivity.
Qed.

Lemma split_map (s : jsstring) :
  split QMARK (map upperAscii s) = map (map upperAscii) (split QMARK s).
Proof.
  induction s as [|c s IH]; [reflexivity|]. simpl.
  rewrite upperAscii_qmark, IH. destruct (c =? QMARK); [reflexivity|].
  destruct (split QMARK s); reflexivity.
Qed.

Lemma toLowerCase_map (s : jsstring) :
  toLowerCase (map upperAscii s) = toLowerCase s.
Proof.
  unfold toLowerCase. rewrite map_map. apply map_ext.
  exact toLowerUnit_upperAscii.
Qed.

(** The tested suffix does not depend on the case of the letters. *)
Lemma cleanUrl_upper (u : jsstring) :
  cleanUrl (map upperAscii u) = cleanUrl u.
Proof.
  unfold cleanUrl. rewrite trim_map, split_map.
  destruct (split QMARK (trim u)) as [|p ps]; [reflexivity|].
  simpl. apply toLowerCase_map.
Qed.

Lemma trimStart_app (p : jsstring) (x : N) (r : jsstring) :
  isWhiteSpace x = false ->
  trimStart (p ++ x :: r) = trimStart p ++ x :: r.
Proof.
  intros Hx. induction p as [|c p IH]; simpl.
  - rewrite Hx. reflexivity.
  - destruct (isWhiteSpace c); [exact IH|reflexivity].
Qed.

Lemma trimEnd_app (a : jsstring) (x : N) (b : jsstring) :
  isWhiteSpace x = false -> trimEnd (a ++ x :: b) = a ++ x :: trimEnd b.
Proof.
  intros Hx. unfold trimEnd. rewrite rev_app_distr. simpl rev.
  rewrite <- app_assoc. simpl app. rewrite (trimStart_app _ _ _ Hx).
  rewrite rev_app_distr. simpl rev. rewrite rev_involutive, <- app_assoc.
  reflexivity.
Qed.

Lemma trimStart_suffix (s : jsstring) : exists p, s = p ++ trimStart s.
Proof.
  induction s as [|c s (p & IH)]; [exists []; reflexivity|]. simpl.
  destruct (isWhiteSpace c); [|exists []; reflexivity].
  exists (c :: p). simpl. rewrite <- IH. reflexivity.
Qed.

Lemma trimStart_length (s : jsstring) :
  (length (trimStart s) <= length s)%nat.
Proof.
  destruct (trimStart_suffix s) as (p & E). rewrite E at 2.
  rewrite length_app. lia.
Qed.

(** A string that [trim] leaves alone has no white space at either
    end. *)
Lemma trim_fixed (u : jsstring) :
  trim u = u -> trimStart u = u /\ trimEnd u = u.
Proof.
  intros Ht.
  assert (Hs : trimStart u = u).
  { destruct (trimStart_suffix u) as (p & E).
    assert (Hlen : (length u <= length (trimStart u))%nat).
    { rewrite <- Ht at 1. unfold trim, trimEnd.
      rewrite length_rev. etransitivity; [apply trimStart_length|].
      rewrite length_rev. reflexivity. }
    rewrite E in Hlen at 1. rewrite length_app in Hlen.
    destruct p; [symmetry; exact E|simpl in Hlen; lia]. }
  split; [exact Hs|]. unfold trim in Ht. rewrite Hs in Ht. exact Ht.
Qed.

Lemma not_elem_of_qmark (s : jsstring) :
  includes s QMARK = false -> QMARK ∉ s.
Proof. intros H Hin. apply includes_elem_of in Hin. congruence. Qed.

(** The tested suffix does not depend on the query string. *)
Lemma cleanUrl_query (u q : jsstring) :
  QMARK ∉ u -> trim u = u -> cleanUrl (u ++ QMARK :: q) = cleanUrl u.
Proof.
  intros Hq Ht. unfold cleanUrl. rewrite Ht.
  destruct (trim_fixed u Ht) as [Hs He].
  assert (Hn : isWhiteSpace QMARK = false) by reflexivity.
  unfold trim.
  assert (Hstart : trimStart (u ++ QMARK :: q) = u ++ QMARK :: q).
  { rewrite (trimStart_app _ _ _ Hn), Hs. reflexivity. }
  rewrite Hstart, (trimEnd_app _ _ _ Hn), (split_app_sep _ _ _ Hq).
  rewrite (split_no_sep _ _ Hq). reflexivity.
Qed.

End CleanUrl.

Section Classification.
Import JS Player.

(** A string has one last unit: the four suffixes exclude each other. *)
Lemma endsWith_last (c p : jsstring) (x : N) :
  endsWith c (p ++ [x]) = true -> exists c', c = c' ++ [x].
Proof.
  unfold endsWith. rewrite rev_app_distr. simpl.
  destruct (rev c) as [|y r] eqn:E; simpl; [discriminate|].
  intros H. apply andb_prop in H as [H _]. apply N.eqb_eq in H. subst y.
  exists (rev r). rewrite <- (rev_involutive c), E. reflexivity.
Qed.

Lemma suffix_exclusive (c p q : jsstring) (x y : N) :
  x <> y -> endsWith c (p ++ [x]) = true -> endsWith c (q ++ [y]) = false.
Proof.
  intros Hxy Hp. destruct (endsWith c (q ++ [y])) eqn:Hq; [|reflexivity].
  apply endsWith_last in Hp as [c1 H1]. apply endsWith_last in Hq as [c2 H2].
  rewrite H1 in H2. apply app_inj_tail in H2 as [_ H2]. contradiction.
Qed.

Lemma dash_excludes (c : jsstring) :
  isDash c = true -> isFlv c = false /\ isTs c = false /\ isM3u8 c = false.
Proof.
  unfold isDash, isFlv, isTs, isM3u8. intros H.
  change (js ".mpd") with (js ".mp" ++ [100]) in H.
  repeat split.
  - change (js ".flv") with (js ".fl" ++ [118]).
    eapply suffix_exclusive; [|exact H]. discriminate.
  - change (js ".ts") with (js ".t" ++ [115]).
    eapply suffix_exclusive; [|exact H]. discriminate.
  - change (js ".m3u8") with (js ".m3u" ++ [56]).
    eapply suffix_exclusive; [|exact H]. discriminate.
Qed.

Lemma segmented_excludes (c : jsstring) :
  isFlv c || isTs c = true -> isDash c = false /\ isM3u8 c = false.
Proof.
  unfold isDash, isFlv, isTs, isM3u8. intros H.
  change (js ".mpd") with (js ".mp" ++ [100]).
  change (js ".m3u8") with (js ".m3u" ++ [56]).
  apply orb_prop in H as [H|H].
  - change (js ".flv") with (js ".fl" ++ [118]) in H.
    split; (eapply suffix_exclusive; [|exact H]; discriminate).
  - change (js ".ts") with (js ".t" ++ [115]) in H.
    split; (eapply suffix_exclusive; [|exact H]; discriminate).
Qed.

Lemma m3u8_excludes (c : jsstring) :
  isM3u8 c = true -> isDash c = false /\ isFlv c = false /\ isTs c = false.
Proof.
  unfold isDash, isFlv, isTs, isM3u8. intros H.
  change (js ".m3u8") with (js ".m3u" ++ [56]) in H.
  repeat split.
  - change (js ".mpd") with (js ".mp" ++ [100]).
    eapply suffix_exclusive; [|exact H]. discriminate.
  - change (js ".flv") with (js ".fl" ++ [118]).
    eapply suffix_exclusive; [|exact H]. discriminate.
  - change (js ".ts") with (js ".t" ++ [115]).
    eapply suffix_exclusive; [|exact H]. discriminate.
Qed.

(** C7. Protocol classification is a total function of the URL and the
    capability flags, decided in first-match order on the lower-cased
    URL without its query string: [.mpd] gives DASH; [.flv] or [.ts]
    gives MPEG_TS_FLV when segmented playback is supported and falls
    through to NATIVE otherwise; [.m3u8] gives HLS when the HLS engine is
    available; no recognised extension gives HLS when the HLS engine is
    available and the element has no native HLS support; everything else
    is NATIVE.  The class depends neither on the case of the ASCII
    letters nor on the query string.  [.MPD?token=1] is DASH in every
    environment. *)
Theorem classify_first_match (env : Env) (u : jsstring) :
  let c := cleanUrl u in
  (isDash c = true -> classify env u = DASH)
  /\ (isFlv c || isTs c = true ->
      classify env u = if mseLivePlayback env then MPEG_TS_FLV else NATIVE)
  /\ (isM3u8 c = true ->
      classify env u = if hlsIsSupported env then HLS else NATIVE)
  /\ (isDash c = false -> isFlv c || isTs c = false -> isM3u8 c = false ->
      classify env u =
        if hlsIsSupported env && negb (canPlayNativeHls env)
        then HLS else NATIVE)
  /\ (exists! p, classify env u = p)
  /\ classify env (map upperAscii u) = classify env u
  /\ (forall q, QMARK ∉ u -> trim u = u ->
      classify env (u ++ QMARK :: q) = classify env u)
  /\ classify env (js ".MPD?token=1") = DASH.
Proof.
  intros c. unfold classify. fold c.
  split; [|split; [|split; [|split; [|split; [|split; [|split]]]]]].
  - intros ->. reflexivity.
  - intros H. destruct (segmented_excludes c H) as [-> Hm]. rewrite H, Hm.
    simpl. destruct (mseLivePlayback env); [reflexivity|].
    simpl. apply orb_prop in H as [->| ->]; simpl;
      rewrite ?andb_false_r; reflexivity.
  - intros H. destruct (m3u8_excludes c H) as (-> & -> & ->). rewrite H.
    simpl. rewrite andb_true_r. reflexivity.
  - intros -> H ->. rewrite H. apply orb_false_elim in H as [-> ->].
    reflexivity.
  - eexists. split; [reflexivity|]. intros p <-. reflexivity.
  - fold (classify env u). unfold classify. rewrite cleanUrl_upper.
    reflexivity.
  - intros q Hq Ht. fold (classify env u). unfold classify.
    rewrite (cleanUrl_query u q Hq Ht). reflexivity.
  - reflexivity.
Qed.

(** Instances of C7, one for each premise. *)
Lemma classify_first_match_witness :
  classify Sample.mseBrowser (js "http://example.com/a.MPD?token=1") = DASH
  /\ classify Sample.nativeBrowser (js "http://example.com/a.ts") = NATIVE
  /\ classify Sample.mseBrowser (js "http://example.com/a.M3U8?x=1") = HLS
  /\ classify Sample.mseBrowser (js " http://example.com/stream ") = HLS
  /\ classify Sample.mseBrowser
       (js "http://example.com/a.flv" ++ QMARK :: js "token=1")
     = classify Sample.mseBrowser (js "http://example.com/a.flv").
Proof.
  split; [|split; [|split; [|split]]].
  - destruct (classify_first_match Sample.mseBrowser
                (js "http://example.com/a.MPD?token=1")) as (H & _).
    exact (H eq_refl).
  - destruct (classify_first_match Sample.nativeBrowser
                (js "http://example.com/a.ts")) as (_ & H & _).
    exact (H eq_refl).
  - destruct (classify_first_match Sample.mseBrowser
                (js "http://example.com/a.M3U8?x=1")) as (_ & _ & H & _).
    exact (H eq_refl).
  - destruct (classify_first_match Sample.mseBrowser
                (js " http://example.com/stream ")) as (_ & _ & _ & H & _).
    exact (H eq_refl eq_refl eq_refl).
  - destruct (classify_first_match Sample.mseBrowser
                (js "http://example.com/a.flv"))
      as (_ & _ & _ & _ & _ & _ & H & _).
    apply H; [|reflexivity].
    apply not_elem_of_qmark. reflexivity.
Defined.

End Classification.

(** ** Buffer health *)

Section BufferHealth.
Import JS Player.
Local Open Scope float_scope.

(** *** Signs of binary64 results *)

Lemma shr_1_nonneg (mrs : shr_record) :
  (0 <= shr_m mrs)%Z -> (0 <= shr_m (shr_1 mrs))%Z.
Proof.
  destruct mrs as [m r s]. simpl.
  destruct m as [|[p|p|]|[p|p|]]; simpl; lia.
Qed.

Lemma iter_pos_keeps {A} (P : A -> Prop) (f : A -> A) :
  (forall x, P x -> P (f x)) ->
  forall p x, P x -> P (SpecFloat.iter_pos f p x).
Proof.
  intros Hf. induction p as [p IH|p IH|]; intros x Hx; simpl; auto.
Qed.

Lemma shr_nonneg (mrs : shr_record) (e n : Z) :
  (0 <= shr_m mrs)%Z -> (0 <= shr_m (fst (shr mrs e n)))%Z.
Proof.
  intros H. unfold shr. destruct n as [|p|p]; simpl; auto.
  apply (iter_pos_keeps (fun r => (0 <= shr_m r)%Z)); auto.
  apply shr_1_nonneg.
Qed.

Lemma shr_fexp_nonneg (m e : Z) (l : location) :
  (0 <= m)%Z -> (0 <= shr_m (fst (shr_fexp prec emax m e l)))%Z.
Proof.
  intros H. unfold shr_fexp. apply shr_nonneg.
  destruct l as [|[| |]]; simpl; exact H.
Qed.

Lemma round_nearest_even_nonneg (m : Z) (l : location) :
  (0 <= m)%Z -> (0 <= round_nearest_even m l)%Z.
Proof.
  intros H. destruct l as [|[| |]]; simpl; try lia.
  destruct (Z.even m); lia.
Qed.

Lemma binary_round_aux_signed (sx : bool) (mx ex : Z) (lx : location) :
  (0 <= mx)%Z -> signed sx (binary_round_aux prec emax sx mx ex lx).
Proof.
  intros H. unfold binary_round_aux.
  pose proof (shr_fexp_nonneg mx ex lx H) as H1.
  destruct (shr_fexp prec emax mx ex lx) as [mrs' e'].
  pose proof (shr_fexp_nonneg
                (round_nearest_even (shr_m mrs') (loc_of_shr_record mrs'))
                e' loc_Exact
                (round_nearest_even_nonneg _ _ H1)) as H2.
  destruct (shr_fexp prec emax _ e' loc_Exact) as [mrs'' e''].
  simpl in H2. destruct (shr_m mrs'') as [|p|p]; simpl; [reflexivity| |lia].
  destruct (Z.leb e'' _); reflexivity.
Qed.

Lemma binary_round_signed (sx : bool) (mx : positive) (ex : Z) :
  signed sx (binary_round prec emax sx mx ex).
Proof.
  unfold binary_round. destruct (shl_align _ _ _) as [mz ez].
  apply binary_round_aux_signed. lia.
Qed.

Lemma binary_normalize_nonneg (m e : Z) :
  (0 <= m)%Z -> signed false (binary_normalize prec emax m e false).
Proof.
  intros H. destruct m as [|p|p]; simpl; [reflexivity| |lia].
  apply binary_round_signed.
Qed.

Lemma digits2_pos_bounds (m : positive) :
  (2 ^ (Z.pos (digits2_pos m) - 1) <= Z.pos m < 2 ^ Z.pos (digits2_pos m))%Z.
Proof.
  induction m as [m IH|m IH|]; simpl digits2_pos.
  - rewrite Pos2Z.inj_succ.
    replace (Z.succ (Z.pos (digits2_pos m)) - 1)%Z
      with (Z.succ (Z.pos (digits2_pos m) - 1)) by lia.
    rewrite !Z.pow_succ_r by lia. lia.
  - rewrite Pos2Z.inj_succ.
    replace (Z.succ (Z.pos (digits2_pos m)) - 1)%Z
      with (Z.succ (Z.pos (digits2_pos m) - 1)) by lia.
    rewrite !Z.pow_succ_r by lia. lia.
  - simpl. lia.
Qed.

Lemma iter_xO_ge (m d : positive) :
  (2 * Z.pos m <= Z.pos (Pos.iter xO m d))%Z.
Proof.
  induction d as [|d IH] using Pos.peano_ind.
  - simpl. lia.
  - rewrite Pos.iter_succ. lia.
Qed.

(** The difference of two numbers in the order [0 <= y <= x], [y]
    finite, is a number that is not negative. *)
Lemma SFsub_ordered (x y : spec_float) :
  valid_binary x = true -> valid_binary y = true ->
  SFleb (S754_zero false) y = true ->
  SFltb y (S754_infinity false) = true ->
  SFleb y x = true ->
  SFleb (S754_zero false) (SF64sub x y) = true.
Proof.
  intros Vx Vy H0 Hfin Hle.
  destruct y as [sy|sy| |sy my ey]; try discriminate.
  - (* y is a zero *)
    destruct x as [sx|sx| |sx mx ex]; try discriminate.
    + destruct sx, sy; reflexivity.
    + destruct sx; [discriminate|reflexivity].
    + destruct sx; [discriminate|reflexivity].
  - destruct sy; discriminate.
  - destruct sy; [discriminate|].
    destruct x as [sx|sx| |sx mx ex]; try discriminate.
    + destruct sx; [discriminate|reflexivity].
    + destruct sx; [discriminate|].
      unfold SF64sub, SFsub. cbn [cond_Zopp].
      assert (Hm : (0 <= Z.pos (fst (shl_align mx ex (Z.min ex ey)))
                        - Z.pos (fst (shl_align my ey (Z.min ex ey))))%Z).
      { unfold SFleb, SFcompare in Hle.
        change (Pos.compare_cont Eq my mx) with (Pos.compare my mx) in Hle.
        destruct (Z.compare_spec ey ex) as [E|E|E]; try discriminate.
        - subst ey. rewrite Z.min_id. unfold shl_align. rewrite Z.sub_diag.
          cbn [fst]. destruct (Pos.compare_spec my mx); try discriminate; lia.
        - rewrite Z.min_r by lia. unfold shl_align. rewrite Z.sub_diag.
          destruct (ey - ex)%Z as [|d|d] eqn:Ed; try lia. cbn [fst].
          pose proof (iter_xO_ge mx d).
          pose proof (digits2_pos_bounds mx) as Bx.
          pose proof (digits2_pos_bounds my) as By.
          simpl in Vx, Vy. unfold bounded, canonical_mantissa, fexp in Vx, Vy.
          apply andb_prop in Vx as [Vx _]. apply andb_prop in Vy as [Vy _].
          apply Z.eqb_eq in Vx, Vy.
          unfold SpecFloat.emin in Vx, Vy.
          assert (Dx : Z.pos (digits2_pos mx) = prec) by (unfold prec, emax in *; lia).
          assert (Dy : (Z.pos (digits2_pos my) <= prec)%Z) by (unfold prec, emax in *; lia).
          rewrite Dx in Bx.
          assert (Hp : (2 ^ Z.pos (digits2_pos my) <= 2 ^ prec)%Z)
            by (apply Z.pow_le_mono_r; lia).
          replace (2 ^ prec)%Z with (2 * 2 ^ (prec - 1))%Z in Hp
            by (unfold prec; reflexivity).
          lia. }
      set (m := (_ - _)%Z) in *.
      pose proof (binary_normalize_nonneg m (Z.min ex ey) Hm) as Hs.
      destruct (binary_normalize prec emax m (Z.min ex ey) false)
        as [s|s| |s mz ez]; simpl in Hs; subst; try contradiction; reflexivity.
Qed.

Lemma SFcompare_refl (x : spec_float) :
  x <> S754_nan -> SFcompare x x = Some Eq.
Proof.
  destruct x as [s|s| |s m e]; simpl; intros H; try congruence.
  - destruct s; reflexivity.
  - change (Pos.compare_cont Eq m m) with (Pos.compare m m).
    rewrite Z.compare_refl, Pos.compare_refl. destruct s; reflexivity.
Qed.

Lemma SFcompare_antisym (x y : spec_float) :
  SFcompare y x = option_map CompOpp (SFcompare x y).
Proof.
  destruct x as [s|s| |s m e], y as [s'|s'| |s' m' e']; simpl;
    try reflexivity; try (destruct s; reflexivity);
    try (destruct s'; reflexivity); try (destruct s, s'; reflexivity).
  change (Pos.compare_cont Eq m m') with (Pos.compare m m').
  change (Pos.compare_cont Eq m' m) with (Pos.compare m' m).
  rewrite (Z.compare_antisym e e'), (Pos.compare_antisym m m').
  destruct s, s', (e ?= e')%Z, (m ?= m')%positive; reflexivity.
Qed.

Lemma is_nan_spec (x : float) :
  is_nan x = match Prim2SF x with S754_nan => true | _ => false end.
Proof.
  unfold is_nan. rewrite FloatAxioms.eqb_spec. unfold SFeqb.
  destruct (Prim2SF x) as [s|s| |s m e] eqn:E; try reflexivity;
    rewrite SFcompare_refl by discriminate; reflexivity.
Qed.

Lemma leb_not_nan (a b : float) :
  (a <=? b) = true -> is_nan a = false /\ is_nan b = false.
Proof.
  rewrite FloatAxioms.leb_spec, !is_nan_spec. unfold SFleb.
  destruct (Prim2SF a), (Prim2SF b); simpl; intros H;
    try discriminate; split; reflexivity.
Qed.

Lemma ltb_not_nan (a b : float) :
  (a <? b) = true -> is_nan a = false /\ is_nan b = false.
Proof.
  rewrite FloatAxioms.ltb_spec, !is_nan_spec. unfold SFltb.
  destruct (Prim2SF a), (Prim2SF b); simpl; intros H;
    try discriminate; split; reflexivity.
Qed.

(** On numbers, [a < b] is the negation of [b <= a]. *)
Lemma ltb_negb_leb (a b : float) :
  is_nan a = false -> is_nan b = false -> (a <? b) = negb (b <=? a).
Proof.
  rewrite FloatAxioms.ltb_spec, FloatAxioms.leb_spec, !is_nan_spec. unfold SFltb, SFleb.
  rewrite (SFcompare_antisym (Prim2SF a) (Prim2SF b)).
  destruct (Prim2SF a) as [s|s| |s m e], (Prim2SF b) as [s'|s'| |s' m' e'];
    try discriminate; intros _ _;
    destruct (SFcompare _ _) as [[| |]|] eqn:E; try reflexivity;
    simpl in E; try discriminate.
Qed.

Lemma sub_ordered (e t : float) :
  (0 <=? t) = true -> (t <? infinity) = true -> (t <=? e) = true ->
  (0 <=? e - t) = true.
Proof.
  rewrite !FloatAxioms.leb_spec, FloatAxioms.ltb_spec, FloatAxioms.sub_spec. intros H0 Hf Hle.
  apply SFsub_ordered; auto using Prim2SF_valid.
Qed.

(** *** The health reading *)

Lemma covers_test (s e t : float) :
  (s <=? t) && (t <=? e) = true <-> covers (s, e) t.
Proof. unfold covers. simpl. apply andb_true_iff. Qed.

Lemma bufferEndAt_first (pre post : list (float * float)) (s e t : float) :
  Forall (fun r => ~ covers r t) pre -> covers (s, e) t ->
  bufferEndAt (pre ++ (s, e) :: post) t = e.
Proof.
  intros Hpre Hc. induction Hpre as [|[s' e'] pre Hn _ IH]; simpl.
  - apply covers_test in Hc. rewrite Hc. reflexivity.
  - destruct ((s' <=? t) && (t <=? e')) eqn:E; [|exact IH].
    apply covers_test in E. contradiction.
Qed.

Lemma bufferEndAt_none (ranges : list (float * float)) (t : float) :
  Forall (fun r => ~ covers r t) ranges -> bufferEndAt ranges t = 0.
Proof.
  intros H. induction H as [|[s e] rest Hn _ IH]; simpl; [reflexivity|].
  destruct ((s <=? t) && (t <=? e)) eqn:E; [|exact IH].
  apply covers_test in E. contradiction.
Qed.

(** The loop stops at the first range that covers the position, or
    finds none. *)
Lemma bufferEndAt_cases (ranges : list (float * float)) (t : float) :
  (exists pre s e post,
      ranges = pre ++ (s, e) :: post
      /\ Forall (fun r => ~ covers r t) pre /\ covers (s, e) t)
  \/ Forall (fun r => ~ covers r t) ranges.
Proof.
  induction ranges as [|[s e] rest IH]; [right; constructor|].
  destruct ((s <=? t) && (t <=? e)) eqn:E.
  - left. exists [], s, e, rest. split; [reflexivity|].
    split; [constructor|apply covers_test, E].
  - assert (Hn : ~ covers (s, e) t).
    { intros Hc. apply covers_test in Hc. congruence. }
    destruct IH as [(pre & s' & e' & post & -> & Hpre & Hc)|Hnone].
    + left. exists ((s, e) :: pre), s', e', post. split; [reflexivity|].
      split; [constructor; assumption|exact Hc].
    + right. constructor; assumption.
Qed.

Lemma mathMax_zero (x : float) :
  mathMax 0 x = if is_nan x then nan else if 0 <? x then x else 0.
Proof.
  unfold mathMax. change (is_nan 0) with false. change (PrimFloat.classify 0) with PZero.
  cbn [orb]. destruct (is_nan x); reflexivity.
Qed.

(** [Math.max(0, x)] is [x] for a number that is not negative, up to the
    sign of zero. *)
Lemma mathMax_nonneg (x : float) :
  (0 <=? x) = true ->
  (mathMax 0 x =? x) = true /\ (0 <=? mathMax 0 x) = true.
Proof.
  intros H. destruct (leb_not_nan _ _ H) as [_ Hx].
  rewrite mathMax_zero, Hx.
  destruct (0 <? x) eqn:E.
  - split; [|exact H]. unfold is_nan in Hx. apply negb_false_iff in Hx.
    exact Hx.
  - split; [|reflexivity].
    rewrite (ltb_negb_leb 0 x eq_refl Hx) in E. apply negb_false_iff in E.
    revert H E. rewrite FloatAxioms.eqb_spec, !FloatAxioms.leb_spec. unfold SFeqb, SFleb.
    rewrite (SFcompare_antisym (Prim2SF 0) (Prim2SF x)).
    destruct (SFcompare (Prim2SF 0) (Prim2SF x)) as [[| |]|];
      simpl; congruence.
Qed.

(** [Math.max(0, 0 - t)] is [0] for a position that is not negative. *)
Lemma mathMax_before (t : float) :
  (0 <=? t) = true -> mathMax 0 (0 - t) = 0.
Proof.
  intros H. rewrite mathMax_zero, is_nan_spec, FloatAxioms.ltb_spec, FloatAxioms.sub_spec.
  rewrite FloatAxioms.leb_spec in H. change (Prim2SF 0) with (S754_zero false) in *.
  destruct (Prim2SF t) as [s|s| |s m e]; try discriminate.
  - destruct s; reflexivity.
  - destruct s; [discriminate|reflexivity].
  - destruct s; [discriminate|reflexivity].
Qed.

Lemma two_spec : Prim2SF 2 = S754_finite false 4503599627370496 (-51).
Proof. reflexivity. Qed.

Lemma five_spec : Prim2SF 5 = S754_finite false 5629499534213120 (-50).
Proof. reflexivity. Qed.

Lemma below_two_below_five (x : float) : (x <? 2) = true -> (x <? 5) = true.
Proof.
  rewrite !FloatAxioms.ltb_spec, two_spec, five_spec. unfold SFltb, SFcompare.
  destruct (Prim2SF x) as [s|s| |s m e]; try (destruct s); auto.
  destruct (Z.compare_spec e (-51)), (Z.compare_spec e (-50));
    auto; try discriminate; lia.
Qed.

Lemma band_poor (l : float) : band l = poor <-> (l <? 2) = true.
Proof.
  unfold band. destruct (l <? 2); [tauto|].
  destruct (l <? 5); split; discriminate.
Qed.

Lemma leb_negb_ltb (a b : float) :
  is_nan a = false -> is_nan b = false -> (b <=? a) = negb (a <? b).
Proof.
  intros Ha Hb. rewrite (ltb_negb_leb a b Ha Hb), negb_involutive.
  reflexivity.
Qed.

Lemma band_fair (l : float) :
  (0 <=? l) = true ->
  band l = fair <-> (2 <=? l) = true /\ (l <? 5) = true.
Proof.
  intros H. destruct (leb_not_nan _ _ H) as [_ Hl].
  rewrite (leb_negb_ltb l 2 Hl eq_refl).
  unfold band. destruct (l <? 2) eqn:E2; simpl.
  - split; [discriminate|]. intros [? _]. discriminate.
  - destruct (l <? 5); split; try tauto; try discriminate.
    intros [_ ?]. discriminate.
Qed.

Lemma band_good (l : float) :
  (0 <=? l) = true -> band l = good <-> (5 <=? l) = true.
Proof.
  intros H. destruct (leb_not_nan _ _ H) as [_ Hl].
  rewrite (leb_negb_ltb l 5 Hl eq_refl).
  unfold band. destruct (l <? 2) eqn:E2.
  - rewrite (below_two_below_five l E2). split; discriminate.
  - destruct (l <? 5); simpl; split; try tauto; discriminate.
Qed.

Lemma checkHealth_ready (v : Video) :
  video_error v = false -> (3 <= readyState v)%nat ->
  exists m, checkHealth (Some v) false = Some m
            /\ bufferLead m = leadOf v /\ status m = band (leadOf v).
Proof.
  intros He Hr. unfold checkHealth. rewrite He. simpl.
  destruct (Nat.ltb_spec (readyState v) 3) as [|_]; [lia|].
  fold (leadOf v). unfold band.
  destruct (leadOf v <? 2); [eauto|]. destruct (leadOf v <? 5); eauto.
Qed.

(** The lead of a sample at a position that is a finite time. *)
Lemma leadOf_nonneg (v : Video) :
  (0 <=? currentTime v) = true -> (currentTime v <? infinity) = true ->
  (0 <=? leadOf v) = true.
Proof.
  intros H0 Hf. unfold leadOf.
  destruct (bufferEndAt_cases (buffered v) (currentTime v))
    as [(pre & s & e & post & Hb & Hpre & Hc)|Hnone].
  - rewrite Hb, (bufferEndAt_first pre post s e _ Hpre Hc).
    apply mathMax_nonneg, sub_ordered; auto. apply Hc.
  - rewrite (bufferEndAt_none _ _ Hnone), (mathMax_before _ H0).
    reflexivity.
Qed.

(** C8. A health sample is offline with lead 0 when the element reports
    an error or the session is pending removal, whatever the buffer
    holds; buffering with lead 0 when the ready state is below 3.
    Otherwise, the position being a finite time that is not negative,
    its lead is [Math.max(0, end - position)] for the end of the (first)
    buffered range that contains the position, which as a number equals
    that difference computed in binary64, and 0 when no range contains
    the position; the lead is a number that is not negative, and the
    status is poor below 2 s, fair from 2 s up to 5 s, good from 5 s.
    Buffered [0, 20) at position 12 gives lead 8 and good; position 9
    with only [10, 10.5) gives lead 0 and poor; buffered [0, 2.4) at
    position 0.4 gives lead 2, the rounded difference, and fair. *)
Theorem checkHealth_classification (v : Video) (removing : bool) :
  (0 <=? currentTime v) = true -> (currentTime v <? infinity) = true ->
  (video_error v || removing = true ->
   exists m, checkHealth (Some v) removing = Some m
             /\ status m = offline /\ bufferLead m = 0)
  /\ (video_error v || removing = false -> (readyState v < 3)%nat ->
      exists m, checkHealth (Some v) removing = Some m
                /\ status m = buffering /\ bufferLead m = 0)
  /\ (video_error v || removing = false -> (3 <= readyState v)%nat ->
      exists m, checkHealth (Some v) removing = Some m
        /\ (forall pre s e post,
              buffered v = pre ++ (s, e) :: post ->
              Forall (fun r => ~ covers r (currentTime v)) pre ->
              covers (s, e) (currentTime v) ->
              bufferLead m = mathMax 0 (e - currentTime v)
              /\ (bufferLead m =? e - currentTime v) = true)
        /\ (Forall (fun r => ~ covers r (currentTime v)) (buffered v) ->
            bufferLead m = 0)
        /\ (0 <=? bufferLead m) = true
        /\ (status m = poor <-> (bufferLead m <? 2) = true)
        /\ (status m = fair <->
            (2 <=? bufferLead m) = true /\ (bufferLead m <? 5) = true)
        /\ (status m = good <-> (5 <=? bufferLead m) = true))
  /\ (exists m,
        checkHealth (Some {| video_error := false; readyState := 4;
                             currentTime := 12; buffered := [(0, 20)] |})
                    false = Some m
        /\ bufferLead m = 8 /\ status m = good)
  /\ (exists m,
        checkHealth (Some {| video_error := false; readyState := 4;
                             currentTime := 9; buffered := [(10, 10.5)] |})
                    false = Some m
        /\ bufferLead m = 0 /\ status m = poor)
  /\ (exists m,
        checkHealth (Some {| video_error := false; readyState := 4;
                             currentTime := nearest_0_4;
                             buffered := [(0, nearest_2_4)] |})
                    false = Some m
        /\ bufferLead m = 2 /\ status m = fair).
Proof.
  intros Ht Hf. split; [|split; [|split; [|split; [|split]]]].
  - intros H. unfold checkHealth. rewrite H. eauto.
  - intros H Hr. unfold checkHealth. rewrite H.
    destruct (Nat.ltb_spec (readyState v) 3) as [_|Hge]; [eauto|lia].
  - intros H Hr. apply orb_false_elim in H as [He ->].
    destruct (checkHealth_ready v He Hr) as (m & Hm & Hl & Hs).
    pose proof (leadOf_nonneg v Ht Hf) as Hn.
    exists m. split; [exact Hm|]. rewrite Hl, Hs.
    split; [|split; [|split; [|split; [|split]]]].
    + intros pre s e post Hb Hpre Hc. unfold leadOf.
      rewrite Hb, (bufferEndAt_first pre post s e _ Hpre Hc).
      split; [reflexivity|].
      apply mathMax_nonneg, sub_ordered; auto. apply Hc.
    + intros Hnone. unfold leadOf.
      rewrite (bufferEndAt_none _ _ Hnone). apply mathMax_before, Ht.
    + exact Hn.
    + apply band_poor.
    + apply band_fair, Hn.
    + apply band_good, Hn.
  - eexists. split; [vm_compute; reflexivity|]. split; reflexivity.
  - eexists. split; [vm_compute; reflexivity|]. split; reflexivity.
  - eexists. split; [vm_compute; reflexivity|]. split; reflexivity.
Qed.

(** An instance of C8: the position inside the second of two ranges. *)
Lemma checkHealth_classification_witness :
  let v := {| video_error := false; readyState := 4; currentTime := 12;
              buffered := [(0, 5); (10, 13.5)] |} in
  exists m, checkHealth (Some v) false = Some m
            /\ bufferLead m = 1.5 /\ status m = poor.
Proof.
  intros v.
  destruct (checkHealth_classification v false eq_refl eq_refl)
    as (_ & _ & H & _).
  destruct (H eq_refl) as (m & Hm & Hfirst & _ & _ & Hpoor & _).
  { simpl. lia. }
  assert (Hl : bufferLead m = 1.5).
  { destruct (Hfirst [(0, 5)] 10 13.5 []) as [Hl _].
    - reflexivity.
    - constructor; [|constructor]. intros [_ Hc]. discriminate Hc.
    - split; reflexivity.
    - rewrite Hl. reflexivity. }
  exists m. split; [exact Hm|]. split; [exact Hl|].
  apply Hpoor. rewrite Hl. reflexivity.
Defined.

End BufferHealth.

(** ** Error handlers and the removal timer *)

Section Recovery.
Import JS Player.

Ltac quiet :=
  repeat (simpl; rewrite ?omap_app, ?app_nil_r); repeat split; auto.

Lemma callbacks_app (st : State) (e : list Effect) :
  omap (fun e => match e with OnChannelError i => Some i | _ => None end)
       (trace st ++ e)
  = callbacks st
    ++ omap (fun e => match e with OnChannelError i => Some i | _ => None end) e.
Proof. unfold callbacks. apply omap_app. Qed.

(** What an error or a play rejection leaves alone: the timer, the
    channel, the effect's dependency, the callbacks fired so far, and a
    verdict already pending. *)
Lemma handle_quiet (ev : Event) (st : State) :
  (forall ms, ev <> Elapse ms) ->
  removalTimer (handle ev st) = removalTimer st
  /\ removalDep (handle ev st) = removalDep st
  /\ channel (handle ev st) = channel st
  /\ callbacks (handle ev st) = callbacks st
  /\ (isRemoving st = true -> isRemoving (handle ev st) = true).
Proof.
  intros Hne. unfold callbacks.
  destruct ev as [|ty|[ty f]| |e|ms]; simpl.
  - destruct (dashRef st); quiet.
  - destruct (mpegtsRef st); [|quiet]. destruct ty; quiet.
  - unfold onHlsError, destroyPlayers. simpl.
    destruct (hlsRef st), f, ty, (dashRef st), (mpegtsRef st); quiet.
  - destruct (videoOnerror st); quiet.
  - destruct (backend st), e; quiet.
  - exfalso. exact (Hne ms eq_refl).
Qed.

Lemma removalEffect_settled (st : State) :
  removalDep st = isRemoving st -> removalEffect st = st.
Proof.
  intros H. unfold removalEffect. rewrite H.
  destruct (isRemoving st); reflexivity.
Qed.

(** Once the verdict is pending and the timer armed, the callback fires
    when the time left has passed, and nothing else fires. *)
Lemma run_pending (evs : list Event) (st : State) :
  isRemoving st = true -> removalDep st = true -> armed st ->
  callbacks (run evs st)
  = callbacks st
    ++ match removalTimer st with
       | Some remaining =>
           if remaining <=? elapsed evs then [id (channel st)] else []
       | None => []
       end.
Proof.
  revert st. induction evs as [|ev evs IH]; intros st Hr Hd Ha.
  - simpl. unfold armed in Ha. destruct (removalTimer st) as [r|]; [|by rewrite app_nil_r].
    destruct (N.leb_spec r 0) as [Hle|_]; [lia|by rewrite app_nil_r].
  - change (run (ev :: evs) st) with (run evs (dispatch st ev)).
    unfold dispatch.
    assert (Hel : (exists ms, ev = Elapse ms) \/ forall ms, ev <> Elapse ms).
    { destruct ev; eauto; right; intros; discriminate. }
    destruct Hel as [[ms ->]|Hq].
    + simpl handle. unfold elapse. unfold armed in Ha.
      destruct (removalTimer st) as [r|] eqn:Et.
      * rewrite removalEffect_settled by (simpl; congruence).
        rewrite IH; simpl; auto.
        -- unfold callbacks. simpl.
           destruct (N.leb_spec r ms) as [Hle|Hgt].
           ++ destruct (N.leb_spec r (ms + elapsed evs)) as [_|?]; [|lia].
              rewrite omap_app. simpl. by rewrite app_nil_r.
           ++ destruct (N.leb_spec (r - ms) (elapsed evs)),
                       (N.leb_spec r (ms + elapsed evs)); try lia; reflexivity.
        -- unfold armed. simpl. destruct (N.leb_spec r ms); [exact I|lia].
      * rewrite removalEffect_settled by congruence.
        rewrite IH; auto.
        -- rewrite Et. reflexivity.
        -- unfold armed. rewrite Et. exact I.
    + destruct (handle_quiet ev st Hq) as (Ht & Hdep & Hc & Hcb & Hrm).
      rewrite removalEffect_settled by (rewrite Hdep, Hrm; auto).
      rewrite IH.
      * rewrite Hcb, Ht, Hc.
        destruct ev; try reflexivity. exfalso. exact (Hq ms eq_refl).
      * auto.
      * congruence.
      * unfold armed. rewrite Ht. exact Ha.
Qed.

(** C1. In a DASH session, after the engine reports an error the
    channel-failed callback has been invoked exactly once, with the
    identifier of the channel, as soon as 2500 ms have passed since the
    error, and not at all before, whatever further engine errors, play
    rejections and passages of time follow.  In an HLS session a
    non-fatal network error changes nothing: no callback is ever invoked
    for it and the session stays active. *)
Theorem dash_fatal_callback_after_delay (env : Env) (inh : Inherited)
    (ch : Channel) :
  (classify env (url ch) = DASH ->
   forall evs,
     callbacks (run (DashError :: evs) (setup env inh ch))
     = if DELAY <=? elapsed evs then [id ch] else [])
  /\ (classify env (url ch) = HLS ->
      let nonFatal := HlsError {| hls_type := NETWORK_ERROR; fatal := false |} in
      dispatch (setup env inh ch) nonFatal = setup env inh ch
      /\ active (dispatch (setup env inh ch) nonFatal) = true
      /\ forall ms,
           callbacks (run [nonFatal; Elapse ms] (setup env inh ch)) = []).
Proof.
  split.
  - intros Hc evs.
    change (run (DashError :: evs) (setup env inh ch))
      with (run evs (dispatch (setup env inh ch) DashError)).
    rewrite run_pending.
    + unfold dispatch, setup. rewrite Hc. reflexivity.
    + unfold dispatch, setup. rewrite Hc. reflexivity.
    + unfold dispatch, setup. rewrite Hc. reflexivity.
    + unfold dispatch, setup. rewrite Hc. vm_compute. reflexivity.
  - intros Hc nonFatal.
    assert (H : dispatch (setup env inh ch) nonFatal = setup env inh ch).
    { unfold dispatch, setup. rewrite Hc. reflexivity. }
    split; [exact H|]. split; [rewrite H; reflexivity|].
    intros ms. unfold run. simpl fold_left. rewrite H.
    unfold dispatch, setup. rewrite Hc. reflexivity.
Qed.

(** C2. The HLS error listener of an attached, active session: an
    error not flagged fatal is ignored; a fatal network error calls
    [startLoad] and a fatal media error calls [recoverMediaError], and
    neither raises a verdict (no error message, no pending removal, no
    timer, no callback later on); any other fatal error destroys the
    adapter and raises the verdict [Stream Connection Failed], which
    arms the removal timer. *)
Theorem hls_error_policy (st : State) (data : HlsErrorData) :
  hlsRef st = true -> isRemoving st = false -> removalDep st = false ->
  removalTimer st = None ->
  let st' := dispatch st (HlsError data) in
  match fatal data, hls_type data with
  | false, _ => st' = st
  | true, NETWORK_ERROR =>
      trace st'
      = trace st
        ++ [ConsoleLog (js "fatal network error encountered, trying to recover");
            HlsStartLoad]
      /\ hlsRef st' = true /\ error st' = error st
      /\ isRemoving st' = false /\ removalTimer st' = None
      /\ forall ms, callbacks (dispatch st' (Elapse ms)) = callbacks st
  | true, MEDIA_ERROR =>
      trace st'
      = trace st
        ++ [ConsoleLog (js "fatal media error encountered, trying to recover");
            HlsRecoverMediaError]
      /\ hlsRef st' = true /\ error st' = error st
      /\ isRemoving st' = false /\ removalTimer st' = None
      /\ forall ms, callbacks (dispatch st' (Elapse ms)) = callbacks st
  | true, _ =>
      HlsDestroy ∈ trace st' /\ hlsRef st' = false
      /\ error st' = Some (js "Stream Connection Failed")
      /\ isRemoving st' = true /\ removalTimer st' = Some DELAY
      /\ callbacks (dispatch st' (Elapse DELAY))
         = callbacks st ++ [id (channel st)]
  end.
Proof.
  intros Hh Hr Hd Ht st'. subst st'. unfold dispatch. simpl handle.
  rewrite Hh. unfold onHlsError.
  destruct data as [ty [|]]; simpl fatal; simpl hls_type; cbv iota;
    [|apply removalEffect_settled; congruence].
  assert (Hrec : forall e,
            omap (fun e => match e with OnChannelError i => Some i | _ => None end) e = [] ->
            let st' := removalEffect (emit e st) in
            trace st' = trace st ++ e
            /\ hlsRef st' = true /\ error st' = error st
            /\ isRemoving st' = false /\ removalTimer st' = None
            /\ forall ms, callbacks (dispatch st' (Elapse ms)) = callbacks st).
  { intros e He st'. subst st'.
    rewrite removalEffect_settled by (simpl; congruence).
    repeat split; simpl; auto.
    intros ms. unfold dispatch. simpl handle. unfold elapse. simpl.
    rewrite Ht. rewrite removalEffect_settled by (simpl; congruence).
    unfold callbacks. simpl. rewrite omap_app, He. apply app_nil_r. }
  assert (Hesc :
            let st' := removalEffect
                         (handleFatalError (js "Stream Connection Failed")
                                           (destroyPlayers st)) in
            HlsDestroy ∈ trace st' /\ hlsRef st' = false
            /\ error st' = Some (js "Stream Connection Failed")
            /\ isRemoving st' = true /\ removalTimer st' = Some DELAY
            /\ callbacks (dispatch st' (Elapse DELAY))
               = callbacks st ++ [id (channel st)]).
  { unfold removalEffect, handleFatalError, destroyPlayers. simpl.
    rewrite Hh, Hd. simpl. repeat split.
    - rewrite !elem_of_app, elem_of_cons. auto.
    - unfold callbacks. simpl.
      destruct (dashRef st), (mpegtsRef st); simpl;
        rewrite ?omap_app; simpl; rewrite ?app_nil_r; reflexivity. }
  destruct ty; first [apply Hrec; reflexivity | exact Hesc].
Qed.

(** C9, at the input where the code departs from it.  In an MPEG-TS
    session a play request rejected with [NotAllowedError] is logged
    with [console.error] and [isPlaying] stays [true]: no paused state
    is shown.  The handler of [safePlay], which the HLS and the native
    branch use (the latter where the HLS engine is not supported), sets
    [isPlaying] to [false] for the same rejection.  So it is in the
    first session after mount, and in every later one: the MPEG-TS
    session keeps the [isPlaying] it found, the others end paused. *)
Theorem mpegts_autoplay_block_not_paused :
  let blocked st := dispatch st (PlayRejected NotAllowedError) in
  let ts inh :=
    blocked (setup Sample.mseBrowser inh
                   (Sample.channelAt "http://example.com/live.ts")) in
  let hls inh :=
    blocked (setup Sample.mseBrowser inh
                   (Sample.channelAt "http://example.com/live.m3u8")) in
  let native inh :=
    blocked (setup Sample.nativeBrowser inh
                   (Sample.channelAt "http://example.com/live.m3u8")) in
  backend (ts mounted) = MPEG_TS_FLV
  /\ isPlaying (ts mounted) = true
  /\ trace (ts mounted) = [ConsoleError (js "Auto-play failed")]
  /\ backend (hls mounted) = HLS /\ isPlaying (hls mounted) = false
  /\ backend (native mounted) = NATIVE /\ isPlaying (native mounted) = false
  /\ forall inh,
       isPlaying (ts inh) = wasPlaying inh
       /\ error (ts inh) = None /\ isRemoving (ts inh) = false
       /\ isPlaying (hls inh) = false /\ isPlaying (native inh) = false.
Proof.
  intros blocked ts hls native.
  repeat split; reflexivity.
Qed.

(** An instance of C1: two DASH errors one second apart, the callback
    fires once, 2.5 s after the first. *)
Lemma dash_fatal_callback_after_delay_witness :
  let ch := Sample.channelAt "http://example.com/a.mpd?token=1" in
  let hls := Sample.channelAt "http://example.com/a.m3u8" in
  callbacks (run [DashError; Elapse 1000; DashError; Elapse 1499]
                 (setup Sample.mseBrowser mounted ch)) = []
  /\ callbacks (run [DashError; Elapse 1000; DashError; Elapse 1500;
                     Elapse 5000]
                    (setup Sample.mseBrowser mounted ch)) = [id ch]
  /\ active (dispatch (setup Sample.mseBrowser mounted hls)
                      (HlsError {| hls_type := NETWORK_ERROR;
                                   fatal := false |})) = true.
Proof.
  intros ch hls.
  destruct (dash_fatal_callback_after_delay Sample.mseBrowser mounted ch)
    as [Hd _].
  destruct (dash_fatal_callback_after_delay Sample.mseBrowser mounted hls)
    as [_ Hh].
  split; [|split].
  - apply (Hd eq_refl [Elapse 1000; DashError; Elapse 1499]).
  - apply (Hd eq_refl [Elapse 1000; DashError; Elapse 1500; Elapse 5000]).
  - apply (Hh eq_refl).
Defined.

(** An instance of C2: a fatal network error in a fresh HLS session. *)
Lemma hls_error_policy_witness :
  let st := setup Sample.mseBrowser mounted
                  (Sample.channelAt "http://example.com/a.m3u8") in
  let st' := dispatch st (HlsError {| hls_type := NETWORK_ERROR;
                                      fatal := true |}) in
  HlsStartLoad ∈ trace st' /\ isRemoving st' = false.
Proof.
  intros st st'.
  destruct (hls_error_policy st {| hls_type := NETWORK_ERROR; fatal := true |}
              eq_refl eq_refl eq_refl eq_refl) as (Ht & _ & _ & Hr & _).
  split; [|exact Hr].
  fold st' in Ht. rewrite Ht. apply elem_of_app. right.
  apply elem_of_cons. right. apply elem_of_cons. left. reflexivity.
Defined.

End Recovery.

(** * Further properties *)

(** ** The parser: channels, identifiers, failure *)

Section ParserChannels.
Import JS Parser Playlist.
Variable now : nat -> N.

Lemma forEach_urls (lines : list jsstring) (i : nat) (st st' : State) :
  forEach now lines i st = Ok st' ->
  url <$> channels st'
  = (url <$> channels st) ++ (trim <$> filter (fun l => isUrl l = true) lines)
  /\ id <$> channels st'
     = (id <$> channels st)
       ++ ((fun j => channelId (now j) j) <$> urlIndices i lines).
Proof.
  revert i st. induction lines as [|l lines IH]; intros i st H; simpl in H.
  - injection H as <-. simpl. rewrite !app_nil_r. auto.
  - apply bind_Ok in H as (st1 & H1 & H). apply IH in H as [Hu Hi].
    rewrite step_kind in H1. rewrite filter_cons. cbn [urlIndices].
    unfold isUrl in *.
    destruct (kind l) eqn:Ek;
      try (injection H1 as <-; rewrite decide_False by discriminate; auto).
    apply urlLine_Ok in H1 as (d & _ & Hc & _).
    rewrite decide_True by reflexivity.
    rewrite Hc, fmap_app in Hu, Hi. cbn in Hu, Hi.
    rewrite <- app_assoc in Hu, Hi. auto.
Qed.

(** X1.  One channel per URL line, in the order of the lines, each with
    the trimmed line as its URL. *)
Theorem channels_follow_url_lines (content : jsstring) (r : Parsed) :
  parseM3U now content = Ok r ->
  url <$> parsed_channels r
  = trim <$> filter (fun l => isUrl l = true) (split LF content).
Proof.
  intros H. unfold parseM3U in H. apply bind_Ok in H as (st & Hf & Hr).
  injection Hr as <-. apply forEach_urls in Hf as [Hu _]. exact Hu.
Qed.

Lemma uintUnits_inj (u u' : Decimal.uint) :
  uintUnits u = uintUnits u' -> u = u'.
Proof.
  revert u'. induction u as [|u IH|u IH|u IH|u IH|u IH|u IH|u IH|u IH|u IH|u IH];
    intros [|u'|u'|u'|u'|u'|u'|u'|u'|u'|u']; simpl; intros H;
    try discriminate; try reflexivity;
    injection H as H; f_equal; apply IH; exact H.
Qed.

Lemma ofNat_inj (i j : nat) : ofNat i = ofNat j -> i = j.
Proof.
  unfold ofNat. intros H. apply uintUnits_inj in H.
  rewrite <- (DecimalNat.Unsigned.of_to i), <- (DecimalNat.Unsigned.of_to j), H.
  reflexivity.
Qed.

Lemma hyphen_not_digit (u : Decimal.uint) : HYPHEN ∉ uintUnits u.
Proof.
  induction u; simpl; rewrite ?not_elem_of_cons;
    [apply not_elem_of_nil|..]; (split; [discriminate|assumption]).
Qed.

(** The line index can be read back from an identifier. *)
Lemma channelId_inj (t t' : N) (i j : nat) :
  channelId t i = channelId t' j -> i = j.
Proof.
  unfold channelId. intros H.
  assert (Hl : forall a k,
             List.last (split HYPHEN (a ++ js "-" ++ ofNat k)) [] = ofNat k).
  { intros a k. change (js "-" ++ ofNat k) with (HYPHEN :: ofNat k).
    rewrite split_last, split_no_sep by apply hyphen_not_digit.
    reflexivity. }
  apply ofNat_inj.
  rewrite <- (Hl (js "ch-" ++ ofN t) i), <- (Hl (js "ch-" ++ ofN t') j).
  rewrite <- !app_assoc. rewrite H. reflexivity.
Qed.

Lemma urlIndices_from (i : nat) (lines : list jsstring) :
  Forall (fun j => (i <= j)%nat) (urlIndices i lines)
  /\ NoDup (urlIndices i lines).
Proof.
  revert i. induction lines as [|l lines IH]; intros i; simpl.
  - split; constructor.
  - destruct (IH (S i)) as [Hge Hnd].
    assert (Hge' : Forall (fun j => (i <= j)%nat) (urlIndices (S i) lines)).
    { eapply Forall_impl; [exact Hge|]. simpl. intros. lia. }
    destruct (isUrl l); [|auto].
    split; [constructor; [lia|exact Hge']|].
    constructor; [|exact Hnd].
    intros Hin. rewrite Forall_forall in Hge. apply Hge in Hin. lia.
Qed.

Lemma parse_ids_NoDup (content : jsstring) (r : Parsed) :
  parseM3U now content = Ok r -> NoDup (id <$> parsed_channels r).
Proof.
  intros H. unfold parseM3U in H. apply bind_Ok in H as (st & Hf & Hr).
  injection Hr as <-. apply forEach_urls in Hf as [_ Hi]. simpl in Hi.
  cbn [parsed_channels]. rewrite Hi.
  apply NoDup_fmap_2_strong; [|apply urlIndices_from].
  intros i j _ _ E. exact (channelId_inj _ _ _ _ E).
Qed.

(** X2.  The channels of a parsed playlist have pairwise distinct
    identifiers, whatever [Date.now()] returns: the identifier of a
    channel ends in the index of its URL line. *)
Theorem channel_ids_unique (content : jsstring) (r : Parsed) :
  parseM3U now content = Ok r ->
  NoDup (id <$> parsed_channels r)
  /\ id <$> parsed_channels r
     = (fun j => channelId (now j) j) <$> urlIndices 0 (split LF content).
Proof.
  intros H. unfold parseM3U in H. apply bind_Ok in H as (st & Hf & Hr).
  injection Hr as <-. apply forEach_urls in Hf as [_ Hi]. simpl in Hi.
  cbn [parsed_channels]. rewrite Hi. split; [|reflexivity].
  apply NoDup_fmap_2_strong; [|apply urlIndices_from].
  intros i j _ _ E. exact (channelId_inj _ _ _ _ E).
Qed.

Lemma bind_Throw {A B} (r : result A) (k : A -> result B) (e : exn) :
  bind r k = Throw e -> r = Throw e \/ exists a, r = Ok a /\ k a = Throw e.
Proof.
  destruct r as [a|e']; simpl; [eauto|]. intros H. left. congruence.
Qed.

(** The first line that throws is a URL line whose pending properties
    hold an undecodable header value. *)
Lemma forEach_Throw (lines : list jsstring) (i : nat) (st : State) (e : exn) :
  forEach now lines i st = Throw e ->
  exists l1 u l2 s,
    lines = l1 ++ u :: l2 /\ isUrl u = true
    /\ forEach now l1 i st = Ok s
    /\ extractDrm (currentProps s) = Throw e.
Proof.
  revert i st. induction lines as [|l lines IH]; intros i st H; simpl in H;
    [discriminate|].
  apply bind_Throw in H as [H|(st1 & H1 & H)].
  - rewrite step_kind in H. unfold isUrl.
    destruct (kind l) eqn:Ek; try discriminate.
    exists [], l, lines, st. rewrite Ek. repeat split; auto.
    unfold urlLine in H. apply bind_Throw in H as [H|(d & _ & H)];
      [exact H|discriminate].
  - apply IH in H as (l1 & u & l2 & s & -> & Hu & Hf & He).
    exists (l :: l1), u, l2, s. repeat split; auto.
    simpl. rewrite H1. exact Hf.
Qed.

(** Any list of lines ends in a block: what follows its last URL
    line. *)
Lemma block_decomposition (lines : list jsstring) :
  exists pre mid,
    lines = pre ++ mid /\ completed pre
    /\ Forall (fun l => isUrl l = false) mid.
Proof.
  induction lines as [|l lines IH] using rev_ind.
  - exists [], []. split; [reflexivity|]. split; [left; reflexivity|constructor].
  - destruct IH as (pre & mid & -> & Hc & Hm). destruct (isUrl l) eqn:E.
    + exists ((pre ++ mid) ++ [l]), []. rewrite app_nil_r.
      split; [reflexivity|]. split; [|constructor].
      right. eauto.
    + exists pre, (mid ++ [l]). rewrite app_assoc. split; [reflexivity|].
      split; [exact Hc|]. apply Forall_app. split; [exact Hm|].
      constructor; [exact E|constructor].
Qed.

Lemma forEach_block_props (pre mid : list jsstring) (s : State) :
  completed pre -> Forall (fun l => isUrl l = false) mid ->
  forEach now (pre ++ mid) 0 initial = Ok s ->
  currentProps s = pendingProps mid
  /\ currentChannel s = pendingChannel mid
  /\ length (channels s) = countUrls pre.
Proof.
  intros Hc Hm H. rewrite forEach_app in H.
  apply bind_Ok in H as (s1 & H1 & H2).
  destruct (forEach_completed now pre s1 Hc H1) as (Hp & Hcc & Hn).
  destruct (forEach_pending now mid (0 + length pre) s1 Hm)
    as (s' & H' & Hch & Hp' & Hc').
  rewrite H2 in H'. injection H' as <-.
  rewrite Hp in Hp'. rewrite Hcc in Hc'. rewrite Hch. auto.
Qed.

(** X3.  [parseM3U] throws exactly when the properties pending at some
    URL line make the DRM extraction throw, that is when a header value
    of its license key is not percent-decodable.  A playlist without
    property lines never throws. *)
Theorem parse_throws_iff (content : jsstring) (e : exn) :
  (parseM3U now content = Throw e
   <-> exists pre mid u post,
         split LF content = pre ++ mid ++ u :: post
         /\ completed pre
         /\ Forall (fun l => isUrl l = false) mid
         /\ isUrl u = true
         /\ extractDrm (pendingProps mid) = Throw e)
  /\ (Forall (fun l => isProperty l = false) (split LF content) ->
      exists r, parseM3U now content = Ok r).
Proof.
  assert (Hiff : parseM3U now content = Throw e
    <-> exists pre mid u post,
          split LF content = pre ++ mid ++ u :: post
          /\ completed pre
          /\ Forall (fun l => isUrl l = false) mid
          /\ isUrl u = true
          /\ extractDrm (pendingProps mid) = Throw e).
  { unfold parseM3U. split.
    - intros H. apply bind_Throw in H as [H|(st & _ & H)]; [|discriminate].
      apply forEach_Throw in H as (l1 & u & l2 & s & Hl & Hu & Hf & He).
      destruct (block_decomposition l1) as (pre & mid & -> & Hc & Hm).
      destruct (forEach_block_props pre mid s Hc Hm Hf) as (Hp & _).
      exists pre, mid, u, l2. rewrite Hl, <- app_assoc, <- Hp. auto.
    - intros (pre & mid & u & post & -> & Hc & Hm & Hu & He).
      rewrite app_assoc, forEach_app.
      destruct (forEach now (pre ++ mid) 0 initial) as [s|e'] eqn:Hf;
        [|destruct e, e'; reflexivity].
      destruct (forEach_block_props pre mid s Hc Hm Hf) as (Hp & _).
      simpl. rewrite step_kind. unfold isUrl in Hu.
      destruct (kind u); try discriminate.
      unfold urlLine. rewrite Hp, He. reflexivity. }
  split; [exact Hiff|].
  intros Hn.
  assert (Hne : parseM3U now content <> Throw e).
  { intros E. apply Hiff in E.
    destruct E as (pre & mid & u & post & Hl & _ & _ & _ & He).
    rewrite Hl in Hn. apply Forall_app in Hn as [_ Hn].
    apply Forall_app in Hn as [Hn _].
    rewrite (pendingProps_none mid Hn) in He. discriminate. }
  destruct (parseM3U now content) as [r|e']; [eauto|].
  destruct e, e'. congruence.
Qed.

Lemma trimStart_head (s : jsstring) (c : N) (t : jsstring) :
  trimStart s = c :: t -> isWhiteSpace c = false.
Proof.
  induction s as [|d s IH]; simpl; [discriminate|].
  destruct (isWhiteSpace d) eqn:E; [exact IH|]. intros [= <- _]. exact E.
Qed.

Lemma trimStart_idem (s : jsstring) : trimStart (trimStart s) = trimStart s.
Proof.
  induction s as [|c s IH]; [reflexivity|]. simpl.
  destruct (isWhiteSpace c) eqn:E; [exact IH|]. simpl. rewrite E. reflexivity.
Qed.

Lemma trimEnd_idem (s : jsstring) : trimEnd (trimEnd s) = trimEnd s.
Proof. unfold trimEnd. rewrite rev_involutive, trimStart_idem. reflexivity. Qed.

(** Trimming twice is trimming once. *)
Lemma trim_idem (s : jsstring) : trim (trim s) = trim s.
Proof.
  unfold trim. destruct (trimStart s) as [|c t] eqn:E; [reflexivity|].
  pose proof (trimStart_head s c t E) as Hc.
  assert (Hcons : forall w, trimEnd (c :: w) = c :: trimEnd w)
    by (intros w; exact (trimEnd_app [] c w Hc)).
  rewrite Hcons. simpl trimStart. rewrite Hc, Hcons, trimEnd_idem.
  reflexivity.
Qed.

Lemma kind_url (l : jsstring) :
  isUrl l = true ->
  nonEmpty (trim l) = true /\ startsWith (trim l) [HASH] = false.
Proof.
  unfold isUrl, kind.
  destruct (nonEmpty (trim l)); simpl; [|discriminate].
  destruct (startsWith (trim l) KODIPROP); [discriminate|].
  destruct (startsWith (trim l) EXTINF); [discriminate|].
  destruct (startsWith (trim l) [HASH]); simpl; [discriminate|auto].
Qed.

Lemma makeChannel_presentable (t : N) (i n : nat) (cc : PartialChannel)
    (props : gmap jsstring jsstring) (l : jsstring) (d : option DrmConfig) :
  namedOrBlank cc -> isUrl l = true ->
  presentable (makeChannel t i n cc props (trim l) d).
Proof.
  intros Hn Hu. destruct (kind_url l Hu) as [Hne Hh].
  unfold presentable, makeChannel. cbn [name group url].
  split; [|split; [|split; [|split]]]; try assumption.
  - unfold namedOrBlank in Hn. unfold orElse.
    destruct (p_name cc) as [nm|]; [rewrite Hn; exact Hn|reflexivity].
  - eexists. split; [reflexivity|]. unfold orElse.
    destruct (p_group cc) as [g|]; [|reflexivity].
    destruct (nonEmpty g) eqn:E; [exact E|reflexivity].
  - apply trim_idem.
Qed.

Lemma step_presentable (st st' : State) (i : nat) (l : jsstring) :
  Forall presentable (channels st) -> namedOrBlank (currentChannel st) ->
  step now st i l = Ok st' ->
  Forall presentable (channels st') /\ namedOrBlank (currentChannel st').
Proof.
  intros Hp Hn H. rewrite step_kind in H.
  destruct (kind l) eqn:Ek; try (injection H as <-; auto; fail).
  - injection H as <-. split; [exact Hp|].
    unfold namedOrBlank, extinf, extinfChannel. cbn [currentChannel p_name].
    destruct (nonEmpty (extinfName (substringFrom (trim l) 8))) eqn:E;
      [exact E|reflexivity].
  - apply urlLine_Ok in H as (d & _ & Hc & Hcc & _).
    rewrite Hc, Hcc. split; [|exact I].
    apply Forall_app. split; [exact Hp|]. constructor; [|constructor].
    apply makeChannel_presentable; [exact Hn|].
    unfold isUrl. rewrite Ek. reflexivity.
Qed.

Lemma parse_presentable (content : jsstring) (r : Parsed) :
  parseM3U now content = Ok r -> Forall presentable (parsed_channels r).
Proof.
  intros H. unfold parseM3U in H. apply bind_Ok in H as (st & Hf & Hr).
  injection Hr as <-. cbn [parsed_channels].
  assert (Hinv : forall lines i s s',
             Forall presentable (channels s) ->
             namedOrBlank (currentChannel s) ->
             forEach now lines i s = Ok s' ->
             Forall presentable (channels s')).
  { induction lines as [|l lines IH]; intros i s s' Hp Hn Hs; simpl in Hs.
    - injection Hs as <-. exact Hp.
    - apply bind_Ok in Hs as (s1 & H1 & Hs).
      destruct (step_presentable s s1 i l Hp Hn H1) as [Hp1 Hn1].
      exact (IH _ _ _ Hp1 Hn1 Hs). }
  eapply Hinv; [| |exact Hf]; [constructor|exact I].
Qed.

(** The group of every channel is the name of a category. *)
Lemma parse_groups_listed (content : jsstring) (r : Parsed) (c : Channel)
    (g : jsstring) :
  parseM3U now content = Ok r -> c ∈ parsed_channels r -> group c = Some g ->
  exists cat, cat ∈ parsed_categories r /\ cat_name cat = g.
Proof.
  intros H Hc Hg. unfold parseM3U in H. apply bind_Ok in H as (st & Hf & Hr).
  injection Hr as <-. cbn [parsed_channels parsed_categories] in *.
  assert (Hi : categoriesInv [] initial).
  { split; [constructor|]. intros x. simpl. rewrite !elem_of_nil. tauto. }
  destruct (forEach_categories now _ _ _ _ _ Hi Hf) as [_ Hin].
  assert (Hs : g ∈ sort (categoriesSet st)).
  { apply elem_of_sort, Hin. left. unfold channelGroups.
    apply list_elem_of_omap. eauto. }
  apply list_elem_of_lookup in Hs as (i & Hi').
  unfold sortedCategories. eexists. split.
  - apply elem_of_cons. right. apply list_elem_of_lookup. exists i.
    rewrite list_lookup_imap, Hi'. reflexivity.
  - reflexivity.
Qed.

(** X4.  Every channel of a parsed playlist has a non-empty name, a
    non-empty group that is the name of one of the categories, and a
    URL that is non-empty, trimmed and not a comment line. *)
Theorem channels_presentable (content : jsstring) (r : Parsed) :
  parseM3U now content = Ok r ->
  Forall (fun c =>
            presentable c
            /\ exists cat, cat ∈ parsed_categories r
                           /\ group c = Some (cat_name cat))
         (parsed_channels r).
Proof.
  intros H. pose proof (parse_presentable content r H) as Hp.
  rewrite Forall_forall in *. intros c Hc. split; [exact (Hp c Hc)|].
  destruct (Hp c Hc) as (_ & (g & Hg & _) & _).
  destruct (parse_groups_listed content r c g H Hc Hg) as (cat & Hcat & <-).
  eauto.
Qed.

Lemma trimStart_app_any (l r : jsstring) :
  trimStart (l ++ r)
  = match trimStart l with [] => trimStart r | _ => trimStart l ++ r end.
Proof.
  induction l as [|c l IH]; [reflexivity|]. simpl.
  destruct (isWhiteSpace c); [exact IH|reflexivity].
Qed.

Lemma trimEnd_snoc (s : jsstring) (c : N) :
  isWhiteSpace c = true -> trimEnd (s ++ [c]) = trimEnd s.
Proof.
  intros Hc. unfold trimEnd. rewrite rev_app_distr. simpl. rewrite Hc.
  reflexivity.
Qed.

Lemma trim_snoc (s : jsstring) (c : N) :
  isWhiteSpace c = true -> trim (s ++ [c]) = trim s.
Proof.
  intros Hc. unfold trim. rewrite trimStart_app_any.
  destruct (trimStart s) as [|x t] eqn:E.
  - simpl. rewrite Hc. reflexivity.
  - rewrite <- E. apply trimEnd_snoc, Hc.
Qed.

Lemma split_crlf (s : jsstring) :
  Forall2 (fun a b => a = b \/ a = b ++ [CR])
          (split LF (crlf s)) (split LF s).
Proof.
  induction s as [|c s IH]; [repeat constructor|].
  change (crlf (c :: s))
    with ((if c =? LF then [CR; LF] else [c]) ++ crlf s).
  destruct (N.eqb_spec c LF) as [->|Hc].
  - change ([CR; LF] ++ crlf s) with ([CR] ++ LF :: crlf s).
    rewrite split_app_sep, split_cons_sep.
    + constructor; [right; reflexivity|exact IH].
    + intros H. apply list_elem_of_singleton in H. discriminate.
  - simpl. destruct (N.eqb_spec c LF) as [|_]; [contradiction|].
    destruct IH as [|p q ps qs [->| ->] IH]; constructor; auto.
Qed.

Lemma forEach_trim (l1 l2 : list jsstring) (i : nat) (st : State) :
  trim <$> l1 = trim <$> l2 -> forEach now l1 i st = forEach now l2 i st.
Proof.
  revert l2 i st. induction l1 as [|a l1 IH]; intros [|b l2] i st H;
    try discriminate; [reflexivity|].
  injection H as Hab H. simpl. unfold step. rewrite Hab.
  destruct (if negb (nonEmpty (trim b)) then _ else _); [|reflexivity].
  simpl. apply IH, H.
Qed.

(** X16.  Only the trimmed lines count: two texts whose lines agree
    after trimming parse alike.  In particular a playlist with Windows
    line ends parses as the same playlist with plain line feeds. *)
Theorem parse_ignores_line_padding (c1 c2 : jsstring) :
  (trim <$> split LF c1 = trim <$> split LF c2 ->
   parseM3U now c1 = parseM3U now c2)
  /\ parseM3U now (crlf c1) = parseM3U now c1.
Proof.
  assert (H : forall a b, trim <$> split LF a = trim <$> split LF b ->
                          parseM3U now a = parseM3U now b).
  { intros a b E. unfold parseM3U. rewrite (forEach_trim _ _ _ _ E).
    reflexivity. }
  split; [apply H|]. apply H.
  induction (split_crlf c1) as [|a b la lb [->| ->] _ IH]; simpl.
  - reflexivity.
  - f_equal. exact IH.
  - f_equal; [|exact IH]. apply trim_snoc. reflexivity.
Qed.

End ParserChannels.

(** ** The parser: property lines, attributes, header values *)

Section ParserLines.
Import JS Parser Playlist.

(** X5.  A property line whose trimmed text is [#KODIPROP:k=v], with no
    equals sign in [k], binds the trimmed [k] to the trimmed [v] for the
    pending channel: it overwrites an earlier binding of that key and
    leaves the other keys alone (the key [__proto__] is never bound); a
    property line without an equals sign changes nothing. *)
Theorem property_line_binds (block : list jsstring) (l k v : jsstring) :
  (trim l = KODIPROP ++ k ++ EQUALS :: v -> EQUALS ∉ k ->
   forall k',
     pendingProps (block ++ [l]) !! k'
     = if decide (trim k = k' /\ trim k <> protoKey) then Some (trim v)
       else pendingProps block !! k')
  /\ (forall rest,
        trim l = KODIPROP ++ rest -> EQUALS ∉ rest ->
        pendingProps (block ++ [l]) = pendingProps block).
Proof.
  assert (Hprop : forall rest, trim l = KODIPROP ++ rest ->
                    pendingProps (block ++ [l])
                    = kodipropSet (trim l) (pendingProps block)).
  { intros rest Hl.
    assert (Hp : isProperty l = true)
      by (unfold isProperty, kind; rewrite Hl, startsWith_prefix; reflexivity).
    unfold pendingProps. rewrite fold_left_app. cbn [fold_left].
    rewrite Hp. reflexivity. }
  split.
  - intros Hl Hk k'. rewrite (Hprop _ Hl), Hl, (kodipropSet_pair k v _ Hk).
    apply objSet_lookup.
  - intros rest Hl Hr. rewrite (Hprop _ Hl), Hl. unfold kodipropSet.
    change (substringFrom (KODIPROP ++ rest) 10) with rest.
    rewrite (indexOf_absent rest EQUALS Hr). reflexivity.
Qed.

Lemma untilQuote_Some (s v : jsstring) :
  untilQuote s = Some v -> exists b, s = v ++ QUOTE :: b /\ QUOTE ∉ v.
Proof.
  revert v. induction s as [|c s IH]; intros v; simpl; [discriminate|].
  destruct (N.eqb_spec c QUOTE) as [->|Hc].
  - intros [= <-]. exists s. split; [reflexivity|apply not_elem_of_nil].
  - destruct (untilQuote s) as [w|]; [|discriminate].
    intros [= <-]. destruct (IH w eq_refl) as (b & -> & Hw).
    exists b. split; [reflexivity|].
    apply not_elem_of_cons. split; [congruence|exact Hw].
Qed.

Lemma untilQuote_absent (s : jsstring) : QUOTE ∉ s -> untilQuote s = None.
Proof.
  induction s as [|c s IH]; intros Hs; [reflexivity|]. simpl.
  apply not_elem_of_cons in Hs as [Hc Hs].
  destruct (N.eqb_spec c QUOTE) as [->|_]; [contradiction|].
  rewrite (IH Hs). reflexivity.
Qed.

Lemma matchAttr_sound (attr s v : jsstring) :
  matchAttr attr s = Some v ->
  exists a b, s = a ++ attr ++ [EQUALS] ++ quoted v ++ b /\ QUOTE ∉ v.
Proof.
  induction s as [|c s IH].
  - cbn [matchAttr].
    replace (startsWith [] (attr ++ [EQUALS; QUOTE])) with false
      by (destruct attr; reflexivity).
    discriminate.
  - cbn [matchAttr].
    destruct (startsWith (c :: s) (attr ++ [EQUALS; QUOTE])) eqn:E.
    + destruct (untilQuote (drop (length attr + 2) (c :: s))) as [w|] eqn:Eu.
      * intros [= <-]. apply untilQuote_Some in Eu as (b & Eb & Hw).
        apply startsWith_split in E. rewrite length_app in E. simpl in E.
        rewrite Eb in E. exists [], b. split; [|exact Hw].
        rewrite E at 1. unfold quoted. simpl.
        rewrite <- !app_assoc. reflexivity.
      * intros H. destruct (IH H) as (a & b & -> & Hv).
        exists (c :: a), b. auto.
    + intros H. destruct (IH H) as (a & b & -> & Hv).
      exists (c :: a), b. auto.
Qed.

Lemma matchAttr_unquoted (attr s : jsstring) :
  QUOTE ∉ s -> matchAttr attr s = None.
Proof.
  induction s as [|c s IH]; intros Hs.
  - cbn [matchAttr].
    replace (startsWith [] (attr ++ [EQUALS; QUOTE])) with false
      by (destruct attr; reflexivity).
    reflexivity.
  - cbn [matchAttr].
    assert (Hu : untilQuote (drop (length attr + 2) (c :: s)) = None).
    { apply untilQuote_absent. intros Hin. apply Hs.
      rewrite <- (take_drop (length attr + 2) (c :: s)).
      apply elem_of_app. right. exact Hin. }
    rewrite Hu. apply not_elem_of_cons in Hs as [_ Hs].
    destruct (startsWith (c :: s) (attr ++ [EQUALS; QUOTE])); exact (IH Hs).
Qed.

(** X6.  The identifier, the logo and the group an [#EXTINF] line
    supplies are quote-free texts that stand in the line, in double
    quotes, right after [tvg-id=], [tvg-logo=] and [group-title=]; the
    group is [Uncategorized] otherwise.  A line without double quotes
    supplies no identifier, no logo and the group [Uncategorized]. *)
Theorem extinf_attributes_quoted (info : jsstring) :
  (forall v, p_tvgId (extinfChannel info) = Some v ->
     exists a b, info = a ++ js "tvg-id=" ++ quoted v ++ b /\ QUOTE ∉ v)
  /\ (forall v, p_logo (extinfChannel info) = Some v ->
        exists a b, info = a ++ js "tvg-logo=" ++ quoted v ++ b /\ QUOTE ∉ v)
  /\ (forall g, p_group (extinfChannel info) = Some g ->
        g = UNCATEGORIZED
        \/ exists a b,
             info = a ++ js "group-title=" ++ quoted g ++ b /\ QUOTE ∉ g)
  /\ (QUOTE ∉ info ->
      p_tvgId (extinfChannel info) = None
      /\ p_logo (extinfChannel info) = None
      /\ p_group (extinfChannel info) = Some UNCATEGORIZED).
Proof.
  unfold extinfChannel. cbn [p_tvgId p_logo p_group].
  split; [|split; [|split]].
  - intros v H. apply matchAttr_sound in H as (a & b & -> & Hv).
    exists a, b. split; [reflexivity|exact Hv].
  - intros v H. apply matchAttr_sound in H as (a & b & -> & Hv).
    exists a, b. split; [reflexivity|exact Hv].
  - intros g H. destruct (matchAttr (js "group-title") info) as [w|] eqn:E.
    + injection H as ->. right.
      apply matchAttr_sound in E as (a & b & -> & Hv).
      exists a, b. split; [reflexivity|exact Hv].
    + injection H as <-. left. reflexivity.
  - intros Hq. rewrite !(matchAttr_unquoted _ info Hq). auto.
Qed.

End ParserLines.

(** ** The application shell *)

Section AppLists.
Import JS App.

Lemma findIndex_range {A} (p : A -> bool) (l : list A) :
  (-1 <= findIndex p l < Z.of_nat (length l))%Z.
Proof.
  induction l as [|x l IH]; simpl; [lia|].
  destruct (p x); [lia|].
  destruct (Z.eqb_spec (findIndex p l) (-1)); lia.
Qed.

Lemma findIndex_none {A} (p : A -> bool) (l : list A) :
  findIndex p l = (-1)%Z <-> Forall (fun x => p x = false) l.
Proof.
  induction l as [|x l IH]; simpl.
  - split; [constructor|reflexivity].
  - pose proof (findIndex_range p l) as Hr.
    destruct (p x) eqn:E.
    + split; [discriminate|]. intros H. inversion H; congruence.
    + destruct (Z.eqb_spec (findIndex p l) (-1)) as [Hi|Hi].
      * split; [|reflexivity]. intros _. constructor; [exact E|].
        apply IH, Hi.
      * split; [lia|]. intros H. inversion H as [|? ? _ Hl]; subst.
        apply IH in Hl. contradiction.
Qed.

(** The element [findIndex] points at satisfies the predicate. *)
Lemma findIndex_found {A} (p : A -> bool) (l : list A) :
  findIndex p l <> (-1)%Z ->
  exists x, at_ l (findIndex p l) = Some x /\ p x = true.
Proof.
  induction l as [|x l IH]; simpl; [contradiction|].
  destruct (p x) eqn:E; [exists x; auto|].
  pose proof (findIndex_range p l) as Hr.
  destruct (Z.eqb_spec (findIndex p l) (-1)) as [Hi|Hi]; [contradiction|].
  intros _. destruct (IH Hi) as (y & Hy & Hp). exists y. split; [|exact Hp].
  unfold at_ in *. destruct (Z.ltb_spec (findIndex p l) 0); [lia|].
  destruct (Z.ltb_spec (findIndex p l + 1) 0); [lia|].
  replace (Z.to_nat (findIndex p l + 1)) with (S (Z.to_nat (findIndex p l)))
    by lia.
  exact Hy.
Qed.

(** Among distinct identifiers, [findIndex] by identifier is the
    inverse of indexing. *)
Lemma findIndex_at (l : list Channel) (i : nat) (c : Channel) :
  NoDup (id <$> l) -> l !! i = Some c ->
  findIndex (fun x => bool_decide (id x = id c)) l = Z.of_nat i.
Proof.
  revert i. induction l as [|x l IH]; intros i Hnd Hi; [discriminate|].
  rewrite fmap_cons in Hnd. apply NoDup_cons in Hnd as [Hx Hnd].
  destruct i as [|i]; simpl in *.
  - injection Hi as ->. rewrite bool_decide_eq_true_2 by reflexivity.
    reflexivity.
  - rewrite bool_decide_eq_false_2.
    + rewrite (IH i Hnd Hi).
      destruct (Z.eqb_spec (Z.of_nat i) (-1)); lia.
    + intros E. apply Hx. rewrite E. apply list_elem_of_fmap.
      exists c. split; [reflexivity|]. eapply list_elem_of_lookup_2. exact Hi.
Qed.

Lemma at_nat {A} (l : list A) (i : nat) : at_ l (Z.of_nat i) = l !! i.
Proof.
  unfold at_. destruct (Z.ltb_spec (Z.of_nat i) 0); [lia|].
  rewrite Nat2Z.id. reflexivity.
Qed.

(** X11.  [toggleFavorite] flips the membership of the channel's URL
    among the favorites and of no other URL, keeps the favorites free
    of duplicates, and toggling twice gives the same set back. *)
Theorem toggleFavorite_flips (ch : Channel) (st : State) :
  (forall u, u ∈ favorites (toggleFavorite ch st)
             <-> (u = url ch /\ url ch ∉ favorites st)
                 \/ (u <> url ch /\ u ∈ favorites st))
  /\ (forall u, u ∈ favorites (toggleFavorite ch (toggleFavorite ch st))
                <-> u ∈ favorites st)
  /\ (NoDup (favorites st) -> NoDup (favorites (toggleFavorite ch st))).
Proof.
  assert (Hflip : forall s u,
    u ∈ favorites (toggleFavorite ch s)
    <-> (u = url ch /\ url ch ∉ favorites s)
        \/ (u <> url ch /\ u ∈ favorites s)).
  { intros s u. unfold toggleFavorite, setHas, setDelete.
    cbn [favorites setFavorites]. case_bool_decide as Hin.
    - rewrite list_elem_of_filter. split; [tauto|].
      intros [[_ Hn]|H]; [contradiction|tauto].
    - rewrite elem_of_setAdd. split.
      + intros [->|Hu]; [auto|]. right. split; [|exact Hu].
        intros ->. contradiction.
      + intros [[-> _]|[_ Hu]]; auto. }
  split; [exact (Hflip st)|]. split.
  - intros u. rewrite Hflip, (Hflip st (url ch)), (Hflip st u).
    destruct (decide (u = url ch)) as [->|Hne];
      destruct (decide (url ch ∈ favorites st)); tauto.
  - intros Hnd. unfold toggleFavorite, setHas, setDelete.
    cbn [favorites setFavorites]. case_bool_decide.
    + apply NoDup_filter. exact Hnd.
    + apply NoDup_setAdd. exact Hnd.
Qed.

End AppLists.

Section AppHandlers.
Import JS App.
Variable lower : jsstring -> jsstring.
Variable now : nat -> N.

Lemma parse_length (content : jsstring) (r : Parser.Parsed) :
  Parser.parseM3U now content = Ok r ->
  length (Parser.parsed_channels r) = Parser.countUrls (split LF content).
Proof.
  intros H. unfold Parser.parseM3U in H.
  apply bind_Ok in H as (s & Hf & Hr). injection Hr as <-.
  apply forEach_channels in Hf as (more & Hm & Hl). simpl in *.
  rewrite Hm. exact Hl.
Qed.

(** X7.  [loadPlaylist] accepts a text exactly when it parses and has a
    URL line: the channels (one per URL line) and categories are stored,
    the view switches to browsing and the focus goes to the first card.
    Otherwise it raises one alert and changes nothing else. *)
Theorem loadPlaylist_accepts (content : jsstring) (st : State) :
  (forall r, Parser.parseM3U now content = Ok r ->
     (0 < Parser.countUrls (split LF content))%nat ->
     loadPlaylist now content st
     = setFocusedIndex 0
         (setAppState BROWSING
            (setCategories (Parser.parsed_categories r)
               (setChannels (Parser.parsed_channels r) st)))
     /\ length (channels (loadPlaylist now content st))
        = Parser.countUrls (split LF content))
  /\ (forall r, Parser.parseM3U now content = Ok r ->
        Parser.countUrls (split LF content) = 0%nat ->
        loadPlaylist now content st
        = say (Alert (js "No channels found in playlist. The file might be empty or invalid.")) st)
  /\ (forall e, Parser.parseM3U now content = Throw e ->
        loadPlaylist now content st
        = say (Alert (js "Failed to parse playlist")) st).
Proof.
  unfold loadPlaylist. split; [|split].
  - intros r Hr Hn. rewrite Hr. pose proof (parse_length content r Hr) as Hl.
    destruct (Nat.eqb_spec (length (Parser.parsed_channels r)) 0) as [E|_];
      [lia|].
    split; [reflexivity|exact Hl].
  - intros r Hr Hn. rewrite Hr. pose proof (parse_length content r Hr) as Hl.
    destruct (Nat.eqb_spec (length (Parser.parsed_channels r)) 0) as [_|E];
      [reflexivity|lia].
  - intros e He. rewrite He. reflexivity.
Qed.

(** The filters do not look at the current channel, the grid focus or
    the channel list itself. *)
Lemma shown_ext (st st' : State) (c : Channel) :
  selectedCategory st' = selectedCategory st ->
  searchTerm st' = searchTerm st ->
  showFavoritesOnly st' = showFavoritesOnly st ->
  favorites st' = favorites st ->
  shown lower st' c = shown lower st c.
Proof. intros H1 H2 H3 H4. unfold shown. rewrite H1, H2, H3, H4. reflexivity. Qed.

Lemma filtered_sub (st : State) (c : Channel) :
  c ∈ filteredChannels lower st <-> c ∈ channels st /\ shown lower st c = true.
Proof. unfold filteredChannels. rewrite list_elem_of_filter. tauto. Qed.

Lemma filtered_NoDup (st : State) :
  NoDup (id <$> channels st) -> NoDup (id <$> filteredChannels lower st).
Proof.
  unfold filteredChannels. generalize (channels st).
  induction l as [|c l IH]; intros Hnd; [constructor|].
  rewrite fmap_cons in Hnd. apply NoDup_cons in Hnd as [Hc Hnd].
  rewrite filter_cons. destruct (decide (shown lower st c = true)).
  - rewrite fmap_cons. apply NoDup_cons. split; [|exact (IH Hnd)].
    intros Hin. apply Hc. apply list_elem_of_fmap in Hin as (x & Hx & Hin).
    apply list_elem_of_filter in Hin as [_ Hin].
    apply list_elem_of_fmap. eauto.
  - exact (IH Hnd).
Qed.

Lemma NoDup_id_inj (l : list Channel) (i j : nat) (a b : Channel) :
  NoDup (id <$> l) -> l !! i = Some a -> l !! j = Some b -> id a = id b ->
  i = j.
Proof.
  intros Hnd Hi Hj E.
  eapply NoDup_lookup; [exact Hnd| |].
  - rewrite list_lookup_fmap, Hi. reflexivity.
  - rewrite list_lookup_fmap, Hj, E. reflexivity.
Qed.

Lemma filtered_after_removal (st st' : State) (P : Channel -> Prop)
    `{!forall c, Decision (P c)} :
  channels st' = filter P (channels st) ->
  selectedCategory st' = selectedCategory st ->
  searchTerm st' = searchTerm st ->
  showFavoritesOnly st' = showFavoritesOnly st ->
  favorites st' = favorites st ->
  filteredChannels lower st' = filter P (filteredChannels lower st).
Proof.
  intros Hch H1 H2 H3 H4. unfold filteredChannels. rewrite Hch.
  rewrite !list_filter_filter. apply list_filter_iff. intros c.
  rewrite (shown_ext st st' c H1 H2 H3 H4). tauto.
Qed.

(** X8.  When the player reports the channel at position [i] of the
    current view as failed (identifiers being distinct), exactly that
    channel leaves the channel list, and the view afterwards is the old
    view without it, in the same order.  With more than one channel in
    view the channel at position [i + 1] of the old view, or at position
    0 when [i] was the last, becomes current and nothing else changes:
    it is another channel and it is in view afterwards.  With the failed
    channel alone in view the application raises the alert and returns
    to browsing with no current channel.  A report for an identifier
    that is not in view changes nothing. *)
Theorem failover_removes_and_advances (failed : Channel) (i : nat)
    (st : State) :
  let view := filteredChannels lower st in
  let st' := handleChannelError lower (id failed) st in
  let removed :=
    setChannels (filter (fun c => id c <> id failed) (channels st))
      (say (Log (js "Channel " ++ id failed
                 ++ js " failed. Removing and skipping.")) st) in
  (NoDup (id <$> channels st) -> view !! i = Some failed ->
   (forall c, c ∈ channels st' <-> c ∈ channels st /\ c <> failed)
   /\ filteredChannels lower st' = filter (fun c => id c <> id failed) view
   /\ ((1 < length view)%nat ->
       exists next,
         view !! (if decide (S i < length view)%nat then S i else 0%nat)
         = Some next
         /\ st' = setCurrentChannel (Some next) removed
         /\ next <> failed
         /\ next ∈ filteredChannels lower st')
   /\ (length view = 1%nat ->
       st' = setCurrentChannel None
               (setAppState BROWSING
                  (say (Alert (js "All channels in this list seem to be offline."))
                       removed))))
  /\ ((forall c, c ∈ view -> id c <> id failed) -> st' = st).
Proof.
  intros view st' removed. split.
  - intros Hnd Hi.
    pose proof (filtered_NoDup st Hnd) as HndF.
    set (F := filteredChannels lower st) in *. subst view.
    pose proof (findIndex_at F i failed HndF Hi) as Hidx.
    pose proof (lookup_lt_Some _ _ _ Hi) as Hlt.
    set (j := if decide (S i < length F)%nat then S i else 0%nat).
    assert (Hj : Z.rem (Z.of_nat i + 1) (Z.of_nat (length F)) = Z.of_nat j).
    { subst j. destruct (decide (S i < length F)%nat) as [Hs|Hs].
      - rewrite Z.rem_small by lia. lia.
      - replace (Z.of_nat i + 1)%Z with (Z.of_nat (length F)) by lia.
        rewrite Z.rem_same by lia. reflexivity. }
    assert (Hst : st'
                  = if (1 <? Z.of_nat (length F))%Z
                    then match F !! j with
                         | Some next => setCurrentChannel (Some next) removed
                         | None =>
                             setCurrentChannel None
                               (setAppState BROWSING
                                  (say (Alert (js "All channels in this list seem to be offline."))
                                       removed))
                         end
                    else setCurrentChannel None
                           (setAppState BROWSING
                              (say (Alert (js "All channels in this list seem to be offline."))
                                   removed))).
    { subst st'. unfold handleChannelError. fold F. rewrite Hidx.
      destruct (Z.eqb_spec (Z.of_nat i) (-1)) as [E|_]; [lia|].
      destruct (1 <? Z.of_nat (length F))%Z; [|reflexivity].
      rewrite Hj, at_nat. destruct (F !! j); reflexivity. }
    assert (Hch : channels st'
                  = filter (fun c => id c <> id failed) (channels st)).
    { rewrite Hst. destruct (1 <? _)%Z; [destruct (F !! j)|]; reflexivity. }
    assert (Hview : filteredChannels lower st'
                    = filter (fun c => id c <> id failed) F).
    { apply filtered_after_removal; [exact Hch|..]; rewrite Hst;
        (destruct (1 <? _)%Z; [destruct (F !! j)|]; reflexivity). }
    split; [|split; [exact Hview|split]].
    + intros c. rewrite Hch, list_elem_of_filter. split.
      * intros [Hne Hc]. split; [exact Hc|]. intros ->. contradiction.
      * intros [Hc Hne]. split; [|exact Hc]. intros E. apply Hne.
        apply list_elem_of_lookup in Hc as (a & Ha).
        assert (Hfc : failed ∈ channels st).
        { apply (filtered_sub st). apply list_elem_of_lookup. eauto. }
        apply list_elem_of_lookup in Hfc as (b & Hb).
        pose proof (NoDup_id_inj _ _ _ _ _ Hnd Ha Hb E) as ->.
        congruence.
    + intros Hn.
      assert (Hjlt : (j < length F)%nat /\ j <> i).
      { subst j. destruct (decide (S i < length F)%nat); lia. }
      destruct Hjlt as [Hjlt Hji].
      destruct (lookup_lt_is_Some_2 F j Hjlt) as (next & Hnext).
      assert (Hne : id next <> id failed).
      { intros E. apply Hji. exact (NoDup_id_inj _ _ _ _ _ HndF Hnext Hi E). }
      exists next. split; [exact Hnext|]. split.
      * rewrite Hst.
        destruct (Z.ltb_spec 1 (Z.of_nat (length F))) as [_|E]; [|lia].
        rewrite Hnext. reflexivity.
      * split; [intros ->; contradiction|].
        rewrite Hview. apply list_elem_of_filter. split; [exact Hne|].
        apply list_elem_of_lookup. eauto.
    + intros Hn. rewrite Hst.
      destruct (Z.ltb_spec 1 (Z.of_nat (length F))) as [E|_]; [lia|].
      reflexivity.
  - intros Hnone. subst st'. unfold handleChannelError.
    assert (Hidx : findIndex (fun c => bool_decide (id c = id failed))
                             (filteredChannels lower st) = (-1)%Z).
    { apply findIndex_none. apply Forall_forall. intros c Hc.
      apply bool_decide_eq_false_2. exact (Hnone c Hc). }
    rewrite Hidx. reflexivity.
Qed.

Lemma setCurrentChannel_same (st : State) :
  setCurrentChannel (currentChannel st) st = st.
Proof. destruct st. reflexivity. Qed.

Lemma setCurrentChannel_twice (a b : option Channel) (st : State) :
  setCurrentChannel a (setCurrentChannel b st) = setCurrentChannel a st.
Proof. reflexivity. Qed.

(** Where the channel after (or before) the current one lies. *)
Lemma handleNextChannel_at (st : State) (c : Channel) (i : nat) :
  NoDup (id <$> channels st) -> currentChannel st = Some c ->
  filteredChannels lower st !! i = Some c ->
  handleNextChannel lower st
  = setCurrentChannel
      (filteredChannels lower st
         !! (if decide (S i < length (filteredChannels lower st))%nat
             then S i else 0%nat))
      st
  /\ handlePrevChannel lower st
     = setCurrentChannel
         (filteredChannels lower st
            !! (match i with
                | O => length (filteredChannels lower st) - 1
                | S k => k
                end)%nat)
         st.
Proof.
  intros Hnd Hc Hi. pose proof (filtered_NoDup st Hnd) as HndF.
  set (F := filteredChannels lower st) in *.
  pose proof (findIndex_at F i c HndF Hi) as Hidx.
  pose proof (lookup_lt_Some _ _ _ Hi) as Hlt.
  unfold handleNextChannel, handlePrevChannel, getCurrentChannelIndex.
  rewrite Hc. fold F. rewrite Hidx.
  destruct (Z.eqb_spec (Z.of_nat i) (-1)) as [E|_]; [lia|]. split.
  - destruct (decide (S i < length F)%nat) as [Hs|Hs].
    + rewrite Z.rem_small by lia.
      replace (Z.of_nat i + 1)%Z with (Z.of_nat (S i)) by lia.
      rewrite at_nat. reflexivity.
    + replace (Z.of_nat i + 1)%Z with (Z.of_nat (length F)) by lia.
      rewrite Z.rem_same by lia. reflexivity.
  - destruct i as [|k].
    + replace (Z.of_nat 0 - 1 + Z.of_nat (length F))%Z
        with (Z.of_nat (length F - 1)) by lia.
      rewrite Z.rem_small by lia. rewrite at_nat. reflexivity.
    + replace (Z.of_nat (S k) - 1 + Z.of_nat (length F))%Z
        with (Z.of_nat k + 1 * Z.of_nat (length F))%Z by lia.
      rewrite Z.rem_add by lia. rewrite Z.rem_small by lia.
      rewrite at_nat. reflexivity.
Qed.

(** X9.  With distinct identifiers and the current channel at position
    [i] of the view, [handleNextChannel] makes the channel at position
    [i + 1] current, the first one after the last, and
    [handlePrevChannel] the channel at position [i - 1], the last one
    before the first.  Both change the current channel and nothing
    else, so the view stays as it is and the new current channel lies
    in it, and they undo each other. *)
Theorem next_prev_round_trip (st : State) (c : Channel) (i : nat) :
  let view := filteredChannels lower st in
  NoDup (id <$> channels st) -> currentChannel st = Some c ->
  view !! i = Some c ->
  (exists n,
     view !! (if decide (S i < length view)%nat then S i else 0%nat) = Some n
     /\ handleNextChannel lower st = setCurrentChannel (Some n) st
     /\ filteredChannels lower (handleNextChannel lower st) = view)
  /\ (exists p,
        view !! (match i with O => length view - 1 | S k => k end)%nat = Some p
        /\ handlePrevChannel lower st = setCurrentChannel (Some p) st
        /\ filteredChannels lower (handlePrevChannel lower st) = view)
  /\ handlePrevChannel lower (handleNextChannel lower st) = st
  /\ handleNextChannel lower (handlePrevChannel lower st) = st.
Proof.
  intros view Hnd Hc Hi. subst view.
  set (F := filteredChannels lower st) in *.
  pose proof (lookup_lt_Some _ _ _ Hi) as Hlt.
  destruct (handleNextChannel_at st c i Hnd Hc Hi) as [Hnext Hprev].
  fold F in Hnext, Hprev.
  set (j := if decide (S i < length F)%nat then S i else 0%nat) in *.
  set (k := match i with O => (length F - 1)%nat | S k => k end) in *.
  assert (Hj : (j < length F)%nat) by (subst j; destruct (decide _); lia).
  assert (Hk : (k < length F)%nat) by (subst k; destruct i; lia).
  destruct (lookup_lt_is_Some_2 F j Hj) as (n & Hn).
  destruct (lookup_lt_is_Some_2 F k Hk) as (p & Hp).
  rewrite Hn in Hnext. rewrite Hp in Hprev.
  split; [|split; [|split]].
  - exists n. split; [exact Hn|]. split; [exact Hnext|].
    rewrite Hnext. reflexivity.
  - exists p. split; [exact Hp|]. split; [exact Hprev|].
    rewrite Hprev. reflexivity.
  - rewrite Hnext.
    destruct (handleNextChannel_at (setCurrentChannel (Some n) st) n j
                Hnd eq_refl Hn) as [_ Hback].
    rewrite Hback.
    change (filteredChannels lower (setCurrentChannel (Some n) st)) with F.
    replace (match j with O => (length F - 1)%nat | S k0 => k0 end) with i
      by (subst j; destruct (decide _); simpl; lia).
    rewrite Hi, setCurrentChannel_twice, <- Hc. apply setCurrentChannel_same.
  - rewrite Hprev.
    destruct (handleNextChannel_at (setCurrentChannel (Some p) st) p k
                Hnd eq_refl Hp) as [Hforth _].
    rewrite Hforth.
    change (filteredChannels lower (setCurrentChannel (Some p) st)) with F.
    assert (Hik : (if decide (S k < length F)%nat then S k else 0%nat) = i).
    { subst k. destruct i as [|i'].
      - destruct (decide (S (length F - 1) < length F)%nat); lia.
      - destruct (decide (S i' < length F)%nat); lia. }
    rewrite Hik.
    rewrite Hi, setCurrentChannel_twice, <- Hc. apply setCurrentChannel_same.
Qed.

Lemma handleKeyDown_filtered (key : Key) (st : State) :
  filteredChannels lower (handleKeyDown lower key st)
  = filteredChannels lower st.
Proof.
  unfold handleKeyDown. destruct (appState st); try reflexivity.
  destruct (isSidebarFocused st); [destruct key; reflexivity|].
  destruct key; cbv zeta;
    try match goal with
        | |- context [match at_ ?l ?i with _ => _ end] => destruct (at_ l i)
        end;
    match goal with
    | |- context [negb ?b] => destruct b
    end; reflexivity.
Qed.

(** X10.  In the browsing view a focus that lies on a card stays on a
    card under every key, and under every sequence of keys; the keys
    never change what is in view. *)
Theorem focus_stays_on_a_card (keys : list Key) (st : State) :
  (0 <= focusedIndex st < Z.of_nat (length (filteredChannels lower st)))%Z ->
  let st' := fold_left (fun s k => handleKeyDown lower k s) keys st in
  (0 <= focusedIndex st' < Z.of_nat (length (filteredChannels lower st)))%Z
  /\ filteredChannels lower st' = filteredChannels lower st.
Proof.
  revert st. induction keys as [|key keys IH]; intros st Hf; [auto|].
  cbn [fold_left]. cbv zeta.
  assert (Hstep :
    (0 <= focusedIndex (handleKeyDown lower key st)
       < Z.of_nat (length (filteredChannels lower st)))%Z).
  { unfold handleKeyDown. destruct (appState st); try exact Hf.
    destruct (isSidebarFocused st).
    - destruct key; try exact Hf; cbn [focusedIndex setFocusedIndex]; lia.
    - unfold COLUMNS.
      destruct key; cbv zeta;
        try match goal with
            | |- context [match at_ ?l ?i with _ => _ end] =>
                destruct (at_ l i)
            end;
        match goal with
        | |- context [negb ?b] => destruct b
        end;
        cbn [focusedIndex setFocusedIndex setAppState handleChannelSelect
             setCurrentChannel negb]; lia. }
  pose proof (handleKeyDown_filtered key st) as Hsame.
  rewrite <- Hsame in Hstep. destruct (IH _ Hstep) as [H1 H2].
  rewrite Hsame in H1, H2. auto.
Qed.

(** X12.  In a freshly loaded playlist (no search text, no favorites
    filter) every channel is in view under the category that bears its
    group; a category named neither [all] nor [All Channels] brings
    only channels of its group into view; those two names bring every
    channel into view. *)
Theorem channels_in_view_by_category (content : jsstring)
    (r : Parser.Parsed) (st : State) :
  Parser.parseM3U now content = Ok r ->
  channels st = Parser.parsed_channels r ->
  categories st = Parser.parsed_categories r ->
  searchTerm st = [] -> showFavoritesOnly st = false ->
  (forall c, c ∈ channels st ->
     exists cat, cat ∈ categories st
                 /\ group c = Some (cat_name cat)
                 /\ c ∈ filteredChannels lower (selectCategory cat st))
  /\ (forall cat c,
        cat_name cat <> js "all" -> cat_name cat <> js "All Channels" ->
        c ∈ filteredChannels lower (selectCategory cat st) ->
        group c = Some (cat_name cat))
  /\ (forall cat,
        cat_name cat = js "all" \/ cat_name cat = js "All Channels" ->
        filteredChannels lower (selectCategory cat st) = channels st).
Proof.
  intros Hp Hch Hcat Hs Hf.
  assert (Hshown : forall cat c,
    shown lower (selectCategory cat st) c
    = if negb (bool_decide
                 ((if bool_decide (cat_name cat = js "All Channels")
                   then js "all" else cat_name cat) = js "all"))
         && negb (bool_decide
                    (group c
                     = Some (if bool_decide (cat_name cat = js "All Channels")
                             then js "all" else cat_name cat)))
      then false else true).
  { intros cat c. unfold shown, selectCategory.
    cbn [selectedCategory searchTerm showFavoritesOnly favorites
         setFocusedIndex setSelectedCategory].
    rewrite Hs, Hf. reflexivity. }
  split; [|split].
  - intros c Hc. rewrite Hch in Hc.
    pose proof (parse_presentable now content r Hp) as Hall.
    rewrite Forall_forall in Hall.
    destruct (Hall c Hc) as (_ & (g & Hg & _) & _).
    destruct (parse_groups_listed now content r c g Hp Hc Hg)
      as (cat & Hin & <-).
    exists cat. rewrite Hcat. split; [exact Hin|]. split; [exact Hg|].
    apply filtered_sub. split; [cbn; rewrite Hch; exact Hc|].
    rewrite Hshown.
    destruct (decide (cat_name cat = js "All Channels")) as [E|E].
    + rewrite !(bool_decide_eq_true_2 _ E).
      rewrite (bool_decide_eq_true_2 (js "all" = js "all") eq_refl).
      reflexivity.
    + rewrite !(bool_decide_eq_false_2 _ E).
      rewrite (bool_decide_eq_true_2 _ Hg), andb_false_r. reflexivity.
  - intros cat c Hn1 Hn2 Hc. apply filtered_sub in Hc as [_ Hc].
    rewrite Hshown in Hc.
    rewrite !(bool_decide_eq_false_2 _ Hn2) in Hc.
    rewrite (bool_decide_eq_false_2 _ Hn1) in Hc. cbn [negb andb] in Hc.
    case_bool_decide as Hg; [exact Hg|discriminate].
  - intros cat Hn. unfold filteredChannels.
    change (channels (selectCategory cat st)) with (channels st).
    assert (Hsel : (if bool_decide (cat_name cat = js "All Channels")
                    then js "all" else cat_name cat) = js "all").
    { destruct Hn as [E|E].
      - rewrite E. case_bool_decide; reflexivity.
      - rewrite (bool_decide_eq_true_2 _ E). reflexivity. }
    clear Hch. induction (channels st) as [|c l IH]; [reflexivity|].
    rewrite filter_cons_True.
    + f_equal. exact IH.
    + rewrite Hshown, Hsel.
      rewrite (bool_decide_eq_true_2 (js "all" = js "all") eq_refl).
      reflexivity.
Qed.

Lemma at_in_range {A} (l : list A) (k : Z) :
  (0 <= k < Z.of_nat (length l))%Z -> exists x, at_ l k = Some x.
Proof.
  intros Hk. unfold at_.
  destruct (Z.ltb_spec k 0) as [|_]; [lia|].
  apply lookup_lt_is_Some. lia.
Qed.

Lemma NoDup_id_filter (P : Channel -> Prop) `{!forall c, Decision (P c)}
    (l : list Channel) :
  NoDup (id <$> l) -> NoDup (id <$> filter P l).
Proof.
  induction l as [|c l IH]; intros Hnd; [constructor|].
  rewrite fmap_cons in Hnd. apply NoDup_cons in Hnd as [Hc Hnd].
  rewrite filter_cons. destruct (decide (P c)).
  - rewrite fmap_cons. apply NoDup_cons. split; [|exact (IH Hnd)].
    intros Hin. apply Hc. apply list_elem_of_fmap in Hin as (x & Hx & Hin).
    apply list_elem_of_filter in Hin as [_ Hin].
    apply list_elem_of_fmap. eauto.
  - exact (IH Hnd).
Qed.

(** What every handler keeps. *)
Lemma perform_keeps (a : Action) (st : State) :
  NoDup (id <$> channels st)
  /\ Forall Playlist.presentable (channels st)
  /\ (appState st = PLAYING -> exists c, currentChannel st = Some c) ->
  NoDup (id <$> channels (perform lower now a st))
  /\ Forall Playlist.presentable (channels (perform lower now a st))
  /\ (appState (perform lower now a st) = PLAYING ->
      exists c, currentChannel (perform lower now a st) = Some c).
Proof.
  intros (Hnd & Hp & Hc).
  assert (Hload : forall content,
    NoDup (id <$> channels (loadPlaylist now content st))
    /\ Forall Playlist.presentable (channels (loadPlaylist now content st))
    /\ (appState (loadPlaylist now content st) = PLAYING ->
        exists c, currentChannel (loadPlaylist now content st) = Some c)).
  { intros content. unfold loadPlaylist.
    destruct (Parser.parseM3U now content) as [r|e] eqn:E; [|cbn; auto].
    destruct (length (Parser.parsed_channels r) =? 0)%nat; [cbn; auto|].
    cbn. split; [exact (parse_ids_NoDup now content r E)|].
    split; [exact (parse_presentable now content r E)|discriminate]. }
  assert (Hstep : forall i,
    i <> (-1)%Z ->
    (-1 <= i < Z.of_nat (length (filteredChannels lower st)))%Z ->
    forall k, (k = Z.rem (i + 1) (Z.of_nat (length (filteredChannels lower st)))
               \/ k = Z.rem (i - 1 + Z.of_nat (length (filteredChannels lower st)))
                            (Z.of_nat (length (filteredChannels lower st)))) ->
    exists x, at_ (filteredChannels lower st) k = Some x).
  { intros i Hi Hr k Hk. apply at_in_range.
    destruct Hk as [-> | ->].
    - pose proof (Z.rem_bound_pos (i + 1)
                    (Z.of_nat (length (filteredChannels lower st)))).
      lia.
    - pose proof (Z.rem_bound_pos
                    (i - 1 + Z.of_nat (length (filteredChannels lower st)))
                    (Z.of_nat (length (filteredChannels lower st)))).
      lia. }
  destruct a; cbn [perform].
  - unfold handleTextSubmit. destruct (negb _); [auto|apply Hload].
  - apply Hload.
  - cbn. eauto.
  - cbn. split; [exact Hnd|]. split; [exact Hp|discriminate].
  - unfold handleChannelError.
    destruct (Z.eqb_spec (findIndex (fun c => bool_decide (id c = channelId))
                                    (filteredChannels lower st)) (-1))
      as [|Hi]; [auto|].
    assert (Hf : NoDup (id <$> filter (fun c => id c <> channelId)
                                      (channels st))
                 /\ Forall Playlist.presentable
                           (filter (fun c => id c <> channelId) (channels st))).
    { split; [apply NoDup_id_filter, Hnd|].
      rewrite Forall_forall in *. intros c Hin.
      apply list_elem_of_filter in Hin as [_ Hin]. auto. }
    destruct (if (1 <? _)%Z then _ else None) as [next|]; cbn.
    + destruct Hf. eauto.
    + destruct Hf. repeat split; auto. discriminate.
  - unfold handleNextChannel, getCurrentChannelIndex.
    destruct (currentChannel st) as [cur|] eqn:Ecur;
      [|cbn; rewrite ?Ecur; auto].
    destruct (Z.eqb_spec (findIndex (fun c => bool_decide (id c = id cur))
                                    (filteredChannels lower st)) (-1))
      as [|Hi]; [rewrite Ecur; auto|].
    cbn. split; [exact Hnd|]. split; [exact Hp|]. intros _.
    eapply Hstep; [exact Hi|apply findIndex_range|left; reflexivity].
  - unfold handlePrevChannel, getCurrentChannelIndex.
    destruct (currentChannel st) as [cur|] eqn:Ecur;
      [|cbn; rewrite ?Ecur; auto].
    destruct (Z.eqb_spec (findIndex (fun c => bool_decide (id c = id cur))
                                    (filteredChannels lower st)) (-1))
      as [|Hi]; [rewrite Ecur; auto|].
    cbn. split; [exact Hnd|]. split; [exact Hp|]. intros _.
    eapply Hstep; [exact Hi|apply findIndex_range|right; reflexivity].
  - unfold handleKeyDown.
    destruct (appState st) eqn:Ea;
      [rewrite Ea; repeat split; auto; discriminate|
      |rewrite Ea; repeat split; auto].
    destruct (isSidebarFocused st);
      [destruct key; cbn; rewrite ?Ea; repeat split; auto; discriminate|].
    destruct key; cbn;
      try match goal with
          | |- context [at_ ?l ?k] => destruct (at_ l k)
          end;
      try match goal with
          | |- context [Z.eqb ?a ?b] => destruct (Z.eqb a b)
          end;
      cbn; rewrite ?Ea; repeat split; auto; try discriminate; eauto.
  - cbn. auto.
  - cbn. auto.
  - cbn. auto.
  - cbn. auto.
  - cbn. auto.
  - cbn. split; [exact Hnd|]. split; [exact Hp|discriminate].
Qed.

(** X18.  Throughout a session, whatever the user and the player ask
    for and in whatever order, the channels keep pairwise distinct
    identifiers and stay presentable, and the player view always has a
    channel to show. *)
Theorem session_invariants (saved : list jsstring) (actions : list Action) :
  let st := session lower now saved actions in
  NoDup (id <$> channels st)
  /\ Forall Playlist.presentable (channels st)
  /\ (appState st = PLAYING -> exists c, currentChannel st = Some c).
Proof.
  unfold session.
  assert (H0 : NoDup (id <$> channels (mount saved))
               /\ Forall Playlist.presentable (channels (mount saved))
               /\ (appState (mount saved) = PLAYING ->
                   exists c, currentChannel (mount saved) = Some c)).
  { cbn. split; [constructor|]. split; [constructor|discriminate]. }
  revert H0. generalize (mount saved).
  induction actions as [|a actions IH]; intros st H; [exact H|].
  cbn [fold_left]. apply IH, perform_keeps, H.
Qed.

(** X17.  The [Clear filters] button, offered when nothing is in view,
    brings every channel into view, whatever was filtered before. *)
Theorem clearFilters_shows_all (st : State) :
  filteredChannels lower (clearFilters st) = channels st.
Proof.
  unfold filteredChannels.
  change (channels (clearFilters st)) with (channels st).
  induction (channels st) as [|c l IH]; [reflexivity|].
  rewrite filter_cons_True; [f_equal; exact IH|].
  unfold shown, clearFilters. cbn.
  rewrite (bool_decide_eq_true_2 (js "all" = js "all") eq_refl).
  reflexivity.
Qed.

End AppHandlers.

(** ** Verdicts of a playback session *)

Section Verdicts.
Import JS Player Verdict.

Ltac fields :=
  repeat (simpl; rewrite ?omap_app, ?app_nil_r); repeat split; auto;
  try discriminate; try congruence.

Ltac close := repeat split; simpl; intros; auto; try congruence.

Lemma setup_quiescent (env : Env) (inh : Inherited) (ch : Channel) :
  quiescent (classify env (url ch)) (videoOnerror (setup env inh ch))
            (setup env inh ch).
Proof. unfold quiescent, setup. simpl. repeat split; reflexivity. Qed.

Lemma dispatch_quiescent (b : Protocol) (o : bool) (st : State) (ev : Event) :
  quiescent b o st -> fatalFor b o ev = false -> quiescent b o (dispatch st ev).
Proof.
  intros (Hb & Hh & Hd & Hm & Hv & Hr & Hdep & Ht & He & Hc) Hf.
  assert (Hq : handle ev st = st
               \/ exists e p,
                    handle ev st = setIsPlaying p (emit e st)
                    /\ omap (fun e => match e with
                                      | OnChannelError i => Some i
                                      | _ => None
                                      end) e = []).
  { destruct ev as [|ty|[ty f]| |e|ms]; simpl.
    - rewrite Hd. destruct b; try discriminate Hf; auto.
    - rewrite Hm. destruct b; auto. destruct ty; try discriminate Hf;
        right; exists [ConsoleError (js "MPEGTS Error")], (isPlaying st);
        (split; [destruct st; reflexivity|reflexivity]).
    - rewrite Hh. destruct b; auto. unfold onHlsError. simpl in *.
      destruct f; auto.
      destruct ty; try discriminate Hf; right; eexists _, (isPlaying st);
        (split; [destruct st; reflexivity|reflexivity]).
    - rewrite Hv. simpl in Hf. rewrite Hf. auto.
    - rewrite Hb. destruct b, e; auto; right; simpl;
        first [ eexists _, false; split; [reflexivity|reflexivity]
              | eexists _, (isPlaying st);
                split; [destruct st; reflexivity|reflexivity] ].
    - unfold elapse. rewrite Ht. auto. }
  unfold dispatch.
  destruct Hq as [->|(e & p & -> & Hq)].
  - rewrite removalEffect_settled by congruence.
    unfold quiescent. auto 11.
  - rewrite removalEffect_settled by (simpl; congruence).
    unfold quiescent, callbacks in *. simpl.
    rewrite omap_app, Hc, Hq. auto 11.
Qed.

Lemma run_quiescent (b : Protocol) (o : bool) (evs : list Event) (st : State) :
  quiescent b o st -> Forall (fun ev => fatalFor b o ev = false) evs ->
  quiescent b o (run evs st).
Proof.
  revert st. induction evs as [|ev evs IH]; intros st Hq Hf; [exact Hq|].
  inversion Hf as [|? ? H1 H2]; subst.
  apply (IH (dispatch st ev)); [apply dispatch_quiescent|]; assumption.
Qed.

Lemma channel_dispatch (st : State) (ev : Event) :
  channel (dispatch st ev) = channel st.
Proof.
  assert (Hr : forall s, channel (removalEffect s) = channel s).
  { intros s. unfold removalEffect. destruct (Bool.eqb _ _); reflexivity. }
  unfold dispatch. rewrite Hr.
  destruct ev as [|ty|[ty f]| |e|ms]; simpl.
  - destruct (dashRef st); reflexivity.
  - destruct (mpegtsRef st), ty; reflexivity.
  - unfold onHlsError. destruct (hlsRef st), f, ty; reflexivity.
  - destruct (videoOnerror st); reflexivity.
  - destruct (backend st), e; reflexivity.
  - unfold elapse. destruct (removalTimer st); reflexivity.
Qed.

Lemma channel_run (evs : list Event) (st : State) :
  channel (run evs st) = channel st.
Proof.
  revert st. induction evs as [|ev evs IH]; intros st; [reflexivity|].
  change (run (ev :: evs) st) with (run evs (dispatch st ev)).
  rewrite IH. apply channel_dispatch.
Qed.

Lemma fatal_message (b : Protocol) (o : bool) (ev : Event) :
  fatalFor b o ev = true -> exists m, verdictMessage ev = Some m.
Proof. destruct ev; simpl; intros H; try discriminate; eauto. Qed.

Lemma dispatch_fatal (b : Protocol) (o : bool) (st : State) (ev : Event) :
  quiescent b o st -> fatalFor b o ev = true ->
  condemned b o (dispatch st ev)
  /\ removalTimer (dispatch st ev) = Some DELAY
  /\ callbacks (dispatch st ev) = []
  /\ error (dispatch st ev) = verdictMessage ev.
Proof.
  intros (Hb & Hh & Hd & Hm & Hv & Hr & Hdep & Ht & He & Hc) Hf.
  unfold dispatch, condemned, callbacks in *.
  destruct ev as [|ty|[ty f]| |e|ms]; simpl in Hf; try discriminate Hf.
  - destruct b; try discriminate Hf.
    simpl. rewrite Hd. unfold removalEffect. simpl. rewrite Hdep. simpl.
    rewrite !omap_app, Hc. fields.
  - destruct b, ty; try discriminate Hf.
    simpl. rewrite Hm. unfold removalEffect. simpl. rewrite Hdep. simpl.
    rewrite !omap_app, Hc. fields.
  - destruct b; try discriminate Hf. simpl in Hf.
    apply andb_true_iff in Hf as [-> Hty].
    simpl. rewrite Hh. unfold onHlsError. simpl.
    destruct ty; try discriminate Hty;
      unfold removalEffect; simpl; rewrite Hdep, Hd, Hm, Hh; simpl;
      rewrite !omap_app, Hc; fields.
  - subst o. simpl. rewrite Hf. unfold removalEffect. simpl.
    rewrite Hdep. simpl. rewrite !omap_app, Hc, Hh, Hd, Hm.
    destruct b; fields.
Qed.

(** After the verdict an event either leaves the message alone or, being
    fatal, puts its own. *)
Lemma dispatch_condemned (b : Protocol) (o : bool) (st : State) (ev : Event) :
  condemned b o st ->
  condemned b o (dispatch st ev)
  /\ (error (dispatch st ev) = error st
      \/ fatalFor b o ev = true /\ error (dispatch st ev) = verdictMessage ev)
  /\ (fatalFor b o ev = false -> error (dispatch st ev) = error st).
Proof.
  intros (Hb & Hh & Hd & Hm & Hv & Hr & Hdep).
  assert (Hs : forall s, isRemoving s = true -> removalDep s = true ->
                         removalEffect s = s).
  { intros s H1 H2. apply removalEffect_settled. congruence. }
  unfold dispatch, condemned.
  destruct ev as [|ty|[ty f]| |e|ms]; simpl.
  - destruct (dashRef st) eqn:E.
    + pose proof (Hd eq_refl) as ->. rewrite Hs by (simpl; auto). close.
    + rewrite Hs by (simpl; auto). close.
  - destruct (mpegtsRef st) eqn:E.
    + pose proof (Hm eq_refl) as ->.
      destruct ty; rewrite Hs by (simpl; auto); close.
    + rewrite Hs by (simpl; auto). close.
  - destruct (hlsRef st) eqn:E.
    + pose proof (Hh eq_refl) as ->. unfold onHlsError. simpl.
      destruct f, ty; rewrite Hs by (simpl; auto); close;
        try discriminate.
    + rewrite Hs by (simpl; auto). close.
  - destruct (videoOnerror st) eqn:E; rewrite Hs by (simpl; auto); subst o;
      close.
  - destruct (backend st) eqn:E, e; rewrite Hs by (simpl; auto); close.
  - unfold elapse. destruct (removalTimer st);
      rewrite Hs by (simpl; auto); close.
Qed.

Lemma run_condemned (b : Protocol) (o : bool) (evs : list Event) (st : State) :
  condemned b o st ->
  condemned b o (run evs st)
  /\ (error (run evs st) = error st
      \/ exists ev, ev ∈ evs /\ fatalFor b o ev = true
                    /\ error (run evs st) = verdictMessage ev)
  /\ (Forall (fun ev => fatalFor b o ev = false) evs ->
      error (run evs st) = error st).
Proof.
  revert st. induction evs as [|ev evs IH]; intros st Hc.
  - split; [exact Hc|]. split; [left; reflexivity|reflexivity].
  - change (run (ev :: evs) st) with (run evs (dispatch st ev)).
    destruct (dispatch_condemned b o st ev Hc) as (Hc1 & He1 & Hn1).
    destruct (IH _ Hc1) as (Hc2 & He2 & Hn2).
    split; [exact Hc2|]. split.
    + destruct He2 as [He2|(ev' & Hin & Hf & He2)].
      * rewrite He2. destruct He1 as [He1|[Hf He1]]; [left; exact He1|].
        right. exists ev. split; [apply elem_of_cons; auto|]. auto.
      * right. exists ev'. split; [apply elem_of_cons; auto|]. auto.
    + intros Hf. inversion Hf as [|? ? H1 H2]; subst.
      rewrite (Hn2 H2). exact (Hn1 H1).
Qed.

Lemma run_app (evs evs' : list Event) (st : State) :
  run (evs ++ evs') st = run evs' (run evs st).
Proof. apply fold_left_app. Qed.

Lemma elapsed_app (evs evs' : list Event) :
  elapsed (evs ++ evs') = (elapsed evs + elapsed evs')%N.
Proof.
  induction evs as [|ev evs IH]; [reflexivity|].
  destruct ev; simpl; rewrite IH; lia.
Qed.

(** The events up to the first one that is fatal for the session. *)
Lemma first_fatal (b : Protocol) (o : bool) (evs : list Event) :
  Forall (fun ev => fatalFor b o ev = false) evs
  \/ exists pre ev post,
       evs = pre ++ ev :: post
       /\ Forall (fun ev => fatalFor b o ev = false) pre
       /\ fatalFor b o ev = true.
Proof.
  induction evs as [|ev evs IH]; [left; constructor|].
  destruct (fatalFor b o ev) eqn:E.
  - right. exists [], ev, evs. repeat split; [constructor|exact E].
  - destruct IH as [IH|(pre & ev' & post & -> & Hp & Hf)].
    + left. constructor; assumption.
    + right. exists (ev :: pre), ev', post.
      repeat split; [constructor; assumption|exact Hf].
Qed.

Lemma run_after_fatal (env : Env) (inh : Inherited) (ch : Channel)
    (pre post : list Event) (ev : Event) :
  let b := classify env (url ch) in
  let o := videoOnerror (setup env inh ch) in
  Forall (fun ev => fatalFor b o ev = false) pre -> fatalFor b o ev = true ->
  let st := run (pre ++ ev :: post) (setup env inh ch) in
  callbacks st = (if DELAY <=? elapsed post then [id ch] else [])
  /\ condemned b o st
  /\ (exists ev', ev' ∈ ev :: post /\ fatalFor b o ev' = true
                  /\ error st = verdictMessage ev')
  /\ (Forall (fun ev => fatalFor b o ev = false) post ->
      error st = verdictMessage ev).
Proof.
  intros b o Hp Hf st. subst st.
  rewrite run_app.
  change (run (ev :: post) ?s) with (run post (dispatch s ev)).
  pose proof (run_quiescent b o pre _ (setup_quiescent env inh ch) Hp) as Hq.
  destruct (dispatch_fatal b o _ ev Hq Hf) as (Hc & Ht & Hcb & He).
  destruct (run_condemned b o post _ Hc) as (Hc' & He' & Hn').
  split; [|split; [exact Hc'|split]].
  - rewrite run_pending.
    + rewrite Hcb, Ht, channel_dispatch, channel_run. reflexivity.
    + apply Hc.
    + apply Hc.
    + unfold armed. rewrite Ht. reflexivity.
  - destruct He' as [He'|(ev' & Hin & Hf' & He')].
    + exists ev. split; [apply elem_of_cons; auto|]. split; [exact Hf|].
      rewrite He'. exact He.
    + exists ev'. split; [apply elem_of_cons; auto|]. auto.
  - intros Hn. rewrite (Hn' Hn). exact He.
Qed.



(** X15.  Whatever happens in a session, [onChannelError] is called at
    most once, only for the channel of the session, never before
    2500 ms have passed, and never without a verdict being shown. *)
Theorem channel_error_at_most_once (env : Env) (inh : Inherited)
    (ch : Channel) (evs : list Event) :
  let st := run evs (setup env inh ch) in
  (callbacks st = [] \/ callbacks st = [id ch])
  /\ ((elapsed evs < DELAY)%N -> callbacks st = [])
  /\ (callbacks st <> [] -> isRemoving st = true /\ error st <> None).
Proof.
  intros st. subst st.
  destruct (first_fatal (classify env (url ch))
                        (videoOnerror (setup env inh ch)) evs)
    as [Hq|(pre & ev & post & -> & Hp & Hf)].
  - destruct (run_quiescent _ _ evs _ (setup_quiescent env inh ch) Hq)
      as (_ & _ & _ & _ & _ & _ & _ & _ & _ & Hc).
    rewrite Hc. split; [auto|]. split; [auto|]. intros H. contradiction.
  - destruct (run_after_fatal env inh ch pre post ev Hp Hf)
      as (Hcb & Hc & (ev' & _ & Hf' & He) & _).
    destruct (fatal_message _ _ ev' Hf') as (m & Hm).
    rewrite Hcb, elapsed_app.
    destruct (N.leb_spec DELAY (elapsed post)) as [Hle|Hlt].
    + split; [auto|]. split.
      * intros H. destruct ev; simpl in H; lia.
      * intros _. split; [apply Hc|]. rewrite He, Hm. discriminate.
    + split; [auto|]. split; [auto|]. intros H. contradiction.
Qed.

End Verdicts.

(** ** Instances on the sample data *)

Section Instances.
Import JS Parser Playlist Fixtures.

Lemma threeChannels_parses :
  exists r, parseM3U Sample.clock threeChannels = Ok r.
Proof.
  destruct (parseM3U Sample.clock threeChannels) as [r|e] eqn:E; [eauto|].
  vm_compute in E. discriminate.
Qed.

Lemma browsing_ids : NoDup (id <$> App.channels browsing).
Proof. apply (bool_decide_unpack _). vm_compute. reflexivity. Qed.

Lemma badEscape_lines :
  split LF badEscape = [] ++ badBlock ++ Sample.firstUrl :: [].
Proof. vm_compute. reflexivity. Qed.

Lemma badBlock_throws : extractDrm (pendingProps badBlock) = Throw URIError.
Proof. vm_compute. reflexivity. Qed.

Lemma padded_lines :
  trim <$> split LF paddedChannels = trim <$> split LF threeChannels.
Proof. vm_compute. reflexivity. Qed.

(** An instance of X1. *)
Lemma channels_follow_url_lines_witness :
  match parseM3U Sample.clock Sample.twoChannels with
  | Ok r => url <$> parsed_channels r = [Sample.firstUrl; Sample.secondUrl]
  | Throw _ => False
  end.
Proof.
  destruct (parseM3U Sample.clock Sample.twoChannels) as [r|] eqn:E;
    [|vm_compute in E; discriminate].
  rewrite (channels_follow_url_lines Sample.clock Sample.twoChannels r E).
  vm_compute. reflexivity.
Defined.

(** An instance of X2. *)
Lemma channel_ids_unique_witness :
  match parseM3U Sample.clock Sample.twoChannels with
  | Ok r =>
      NoDup (id <$> parsed_channels r)
      /\ id <$> parsed_channels r
         = [js "ch-1700000000000-3"; js "ch-1700000000000-5"]
  | Throw _ => False
  end.
Proof.
  destruct (parseM3U Sample.clock Sample.twoChannels) as [r|] eqn:E;
    [|vm_compute in E; discriminate].
  destruct (channel_ids_unique Sample.clock Sample.twoChannels r E)
    as [Hnd Hids].
  split; [exact Hnd|]. rewrite Hids. vm_compute. reflexivity.
Defined.

(** An instance of X3: a header value that cannot be decoded makes the
    parse throw; a playlist without property lines parses. *)
Lemma parse_throws_iff_witness :
  parseM3U Sample.clock badEscape = Throw URIError
  /\ exists r, parseM3U Sample.clock Sample.replacedMetadata = Ok r.
Proof.
  split.
  - apply (proj1 (parse_throws_iff Sample.clock badEscape URIError)).
    exists [], badBlock, Sample.firstUrl, [].
    split; [exact badEscape_lines|].
    split; [left; reflexivity|].
    split; [repeat constructor|].
    split; [reflexivity|exact badBlock_throws].
  - apply (proj2 (parse_throws_iff Sample.clock Sample.replacedMetadata
                                   URIError)).
    vm_compute. repeat constructor.
Defined.

(** An instance of X4. *)
Lemma channels_presentable_witness :
  match parseM3U Sample.clock Sample.twoChannels with
  | Ok r =>
      Forall (fun c =>
                presentable c
                /\ exists cat, cat ∈ parsed_categories r
                               /\ group c = Some (cat_name cat))
             (parsed_channels r)
  | Throw _ => False
  end.
Proof.
  destruct (parseM3U Sample.clock Sample.twoChannels) as [r|] eqn:E;
    [|vm_compute in E; discriminate].
  exact (channels_presentable Sample.clock Sample.twoChannels r E).
Defined.

(** An instance of X5: key and value are trimmed. *)
Lemma property_line_binds_witness :
  pendingProps [js "#KODIPROP: http-user-agent = Kodi/20 "] !! js "http-user-agent"
  = Some (js "Kodi/20").
Proof.
  set (l := js "#KODIPROP: http-user-agent = Kodi/20 ").
  destruct (property_line_binds [] l (js " http-user-agent ") (js " Kodi/20"))
    as [H _].
  change (pendingProps [l]) with (pendingProps ([] ++ [l])).
  rewrite (H ltac:(vm_compute; reflexivity)
             ltac:(apply (bool_decide_unpack _); vm_compute; reflexivity)
             (js "http-user-agent")).
  vm_compute. reflexivity.
Defined.

(** An instance of X6. *)
Lemma extinf_attributes_quoted_witness :
  exists a b,
    info = a ++ js "tvg-id=" ++ quoted (js "one.tv") ++ b
    /\ QUOTE ∉ js "one.tv".
Proof.
  destruct (extinf_attributes_quoted info) as [H _].
  apply H. vm_compute. reflexivity.
Defined.

(** An instance of X7. *)
Lemma loadPlaylist_accepts_witness :
  App.appState (App.loadPlaylist Sample.clock threeChannels (App.mount []))
  = App.BROWSING
  /\ length (App.channels
               (App.loadPlaylist Sample.clock threeChannels (App.mount [])))
     = 3%nat.
Proof.
  destruct (parseM3U Sample.clock threeChannels) as [r|] eqn:E;
    [|vm_compute in E; discriminate].
  destruct (loadPlaylist_accepts Sample.clock threeChannels (App.mount []))
    as [H _].
  destruct (H r E ltac:(vm_compute; lia)) as [H1 H2].
  split; [rewrite H1; reflexivity|]. rewrite H2. vm_compute. reflexivity.
Defined.

Lemma playing_ids : NoDup (id <$> App.channels playing).
Proof. apply (bool_decide_unpack _). vm_compute. reflexivity. Qed.

Lemma playing_view :
  App.filteredChannels toLowerCase playing
  = [channelNo 0; channelNo 1; channelNo 2].
Proof. vm_compute. reflexivity. Qed.

Lemma playing_second :
  App.filteredChannels toLowerCase playing !! 1%nat = Some (channelNo 1).
Proof. rewrite playing_view. reflexivity. Qed.

Lemma playing_current : App.currentChannel playing = Some (channelNo 1).
Proof. reflexivity. Qed.

(** An instance of X8: the second of three channels fails while it
    plays; the third takes over and the view keeps the first and the
    third. *)
Lemma failover_removes_and_advances_witness :
  let st' := App.handleChannelError toLowerCase (id (channelNo 1)) playing in
  App.currentChannel st' = Some (channelNo 2)
  /\ App.filteredChannels toLowerCase st' = [channelNo 0; channelNo 2]
  /\ App.appState st' = App.PLAYING.
Proof.
  intros st'.
  destruct (failover_removes_and_advances toLowerCase (channelNo 1) 1 playing)
    as [H _].
  destruct (H playing_ids playing_second) as (_ & Hview & Hnext & _).
  destruct Hnext as (next & Hn & Hst & _).
  { rewrite playing_view. simpl. lia. }
  rewrite playing_view in Hn. simpl in Hn. injection Hn as <-.
  fold st' in Hst, Hview. rewrite Hview, Hst.
  split; [reflexivity|]. split; [|reflexivity].
  rewrite playing_view. vm_compute. reflexivity.
Defined.

(** An instance of X9: from the second of three channels, next is the
    third and previous is the first. *)
Lemma next_prev_round_trip_witness :
  App.currentChannel (App.handleNextChannel toLowerCase playing)
  = Some (channelNo 2)
  /\ App.currentChannel (App.handlePrevChannel toLowerCase playing)
     = Some (channelNo 0)
  /\ App.handlePrevChannel toLowerCase
       (App.handleNextChannel toLowerCase playing) = playing.
Proof.
  destruct (next_prev_round_trip toLowerCase playing (channelNo 1) 1
              playing_ids playing_current playing_second)
    as ((n & Hn & Hnext & _) & (p & Hp & Hprev & _) & Hround & _).
  rewrite playing_view in Hn, Hp. simpl in Hn, Hp.
  injection Hn as <-. injection Hp as <-.
  split; [rewrite Hnext; reflexivity|].
  split; [rewrite Hprev; reflexivity|exact Hround].
Defined.

(** An instance of X10. *)
Lemma focus_stays_on_a_card_witness :
  let keys := [App.ArrowRight; App.ArrowDown; App.ArrowRight; App.ArrowRight;
               App.ArrowUp; App.ArrowLeft; App.OtherKey] in
  let st' := fold_left (fun s k => App.handleKeyDown toLowerCase k s)
                       keys browsing in
  (0 <= App.focusedIndex st' < 3)%Z.
Proof.
  intros keys st'.
  destruct (focus_stays_on_a_card toLowerCase keys browsing) as [H _].
  - vm_compute. split; [discriminate|reflexivity].
  - exact H.
Defined.

(** An instance of X11. *)
Lemma toggleFavorite_flips_witness :
  NoDup (App.favorites (App.toggleFavorite (channelNo 0) browsing)).
Proof.
  destruct (toggleFavorite_flips (channelNo 0) browsing) as (_ & _ & H).
  apply H. constructor.
Defined.

(** An instance of X12. *)
Lemma channels_in_view_by_category_witness :
  exists cat, cat ∈ App.categories browsing
              /\ group (channelNo 2) = Some (cat_name cat)
              /\ channelNo 2 ∈ App.filteredChannels toLowerCase
                                  (App.selectCategory cat browsing).
Proof.
  destruct (parseM3U Sample.clock threeChannels) as [r|] eqn:E;
    [|vm_compute in E; discriminate].
  assert (Hb : browsing
               = App.setFocusedIndex 0
                   (App.setAppState App.BROWSING
                      (App.setCategories (parsed_categories r)
                         (App.setChannels (parsed_channels r)
                                          (App.mount []))))).
  { unfold browsing, App.handleTextSubmit, App.loadPlaylist. rewrite E.
    replace (nonEmpty threeChannels) with true by (vm_compute; reflexivity).
    replace (length (parsed_channels r) =? 0)%nat with false; [reflexivity|].
    vm_compute in E. injection E as <-. reflexivity. }
  destruct (channels_in_view_by_category toLowerCase Sample.clock
              threeChannels r browsing E) as [H _].
  - rewrite Hb. reflexivity.
  - rewrite Hb. reflexivity.
  - reflexivity.
  - reflexivity.
  - apply H. apply (list_elem_of_lookup_2 _ 2). vm_compute. reflexivity.
Defined.



(** An instance of X15. *)
Lemma channel_error_at_most_once_witness :
  Player.callbacks
    (Player.run [Player.DashError; Player.Elapse 2499]
                (Player.setup Sample.mseBrowser Player.mounted dashChannel))
  = [].
Proof.
  destruct (channel_error_at_most_once Sample.mseBrowser Player.mounted
              dashChannel [Player.DashError; Player.Elapse 2499])
    as (_ & H & _).
  apply H. vm_compute. reflexivity.
Defined.

(** An instance of X16. *)
Lemma parse_ignores_line_padding_witness :
  parseM3U Sample.clock paddedChannels = parseM3U Sample.clock threeChannels.
Proof.
  destruct (parse_ignores_line_padding Sample.clock paddedChannels
                                       threeChannels) as [H _].
  exact (H padded_lines).
Defined.

(** An instance of X18: a playlist is pasted in and the focused card is
    opened with the Enter key. *)
Lemma session_invariants_witness :
  exists c,
    App.currentChannel
      (App.session toLowerCase Sample.clock []
                   [App.TextSubmit threeChannels; App.KeyDown App.Enter])
    = Some c.
Proof.
  destruct (session_invariants toLowerCase Sample.clock []
              [App.TextSubmit threeChannels; App.KeyDown App.Enter])
    as (_ & _ & H).
  apply H. vm_compute. reflexivity.
Defined.

End Instances.
